(** * Bytecode transformation: a shallow embedding of
      [torch/_dynamo/bytecode_transformation.py]

    The Python module decodes a code object into a list of mutable
    [Instruction] objects, lets a caller edit the list, and re-encodes it.
    Instructions are compared and hashed by identity ([__eq__] and [__hash__]
    use [id]), the passes mutate them in place, and jump instructions hold a
    reference to their target.  The embedding therefore keeps the objects in
    a store and represents an instruction list as a list of references. *)

From Stdlib Require Import ZArith List String Ascii Bool Lia Arith PeanoNat.
From Stdlib Require Import DecimalString.
From Stdlib Require DecimalNat DecimalFacts.
Import ListNotations.
Open Scope string_scope.
Open Scope list_scope.
Open Scope Z_scope.

(** ** Exceptions and fallible computations *)

Inductive exn : Type :=
| KeyError | IndexError | AssertionError | TypeError | ValueError.

Inductive result (A : Type) : Type :=
| Ok (a : A)
| Raise (e : exn).
Arguments Ok {A} a.
Arguments Raise {A} e.

Definition bind {A B : Type} (m : result A) (f : A -> result B) : result B :=
  match m with
  | Ok a => f a
  | Raise e => Raise e
  end.

Notation "x <- m ;; k" := (bind m (fun x => k))
  (at level 61, m at next level, right associativity).
Notation "' p <- m ;; k" := (bind m (fun x => match x with p => k end))
  (at level 61, p pattern, m at next level, right associativity).

Definition assert (b : bool) : result unit :=
  if b then Ok tt else Raise AssertionError.

Definition is_ok {A : Type} (m : result A) : Prop :=
  match m with Ok _ => True | Raise _ => False end.

(** ** Python values held in [argval] (typed [Any] in the source) *)

Inductive pyval : Type :=
| PyNone
| PyInt (n : Z)
| PyStr (s : string)
| PyObj (k : nat).

Definition pyval_eqb (a b : pyval) : bool :=
  match a, b with
  | PyNone, PyNone => true
  | PyInt x, PyInt y => Z.eqb x y
  | PyStr x, PyStr y => String.eqb x y
  | PyObj x, PyObj y => Nat.eqb x y
  | _, _ => false
  end.

Definition opt_Z_eqb (a : option Z) (b : Z) : bool :=
  match a with Some x => Z.eqb x b | None => false end.

(** ** The [Instruction] dataclass and the object store *)

(** References to objects in the store. *)
Abbreviation ref := nat (only parsing).

Record Instruction : Type := mkInstruction {
  opcode : Z;
  opname : string;
  arg : option Z;
  argval : pyval;
  offset : option Z;
  starts_line : option Z;
  is_jump_target : bool;
  target : option ref;
  (* attribute added by [devirtualize_jumps] *)
  argrepr : option string
}.

Definition set_opcode (i : Instruction) (v : Z) : Instruction :=
  mkInstruction v (opname i) (arg i) (argval i) (offset i) (starts_line i)
    (is_jump_target i) (target i) (argrepr i).
Definition set_opname (i : Instruction) (v : string) : Instruction :=
  mkInstruction (opcode i) v (arg i) (argval i) (offset i) (starts_line i)
    (is_jump_target i) (target i) (argrepr i).
Definition set_arg (i : Instruction) (v : option Z) : Instruction :=
  mkInstruction (opcode i) (opname i) v (argval i) (offset i) (starts_line i)
    (is_jump_target i) (target i) (argrepr i).
Definition set_argval (i : Instruction) (v : pyval) : Instruction :=
  mkInstruction (opcode i) (opname i) (arg i) v (offset i) (starts_line i)
    (is_jump_target i) (target i) (argrepr i).
Definition set_offset (i : Instruction) (v : option Z) : Instruction :=
  mkInstruction (opcode i) (opname i) (arg i) (argval i) v (starts_line i)
    (is_jump_target i) (target i) (argrepr i).
Definition set_starts_line (i : Instruction) (v : option Z) : Instruction :=
  mkInstruction (opcode i) (opname i) (arg i) (argval i) (offset i) v
    (is_jump_target i) (target i) (argrepr i).
Definition set_target (i : Instruction) (v : option ref) : Instruction :=
  mkInstruction (opcode i) (opname i) (arg i) (argval i) (offset i)
    (starts_line i) (is_jump_target i) v (argrepr i).
Definition set_argrepr (i : Instruction) (v : option string) : Instruction :=
  mkInstruction (opcode i) (opname i) (arg i) (argval i) (offset i)
    (starts_line i) (is_jump_target i) (target i) v.

(** The store maps every reference to an object; references below
    [next_ref] are the allocated ones. *)
Record heap : Type := mkHeap {
  cell : ref -> Instruction;
  next_ref : ref
}.

Definition deref (h : heap) (r : ref) : Instruction := cell h r.

Definition store (h : heap) (r : ref) (i : Instruction) : heap :=
  mkHeap (fun r' => if Nat.eqb r' r then i else cell h r') (next_ref h).

Definition alloc (h : heap) (i : Instruction) : ref * heap :=
  (next_ref h,
   mkHeap (fun r' => if Nat.eqb r' (next_ref h) then i else cell h r')
          (S (next_ref h))).

Arguments deref : simpl never.
Arguments store : simpl never.
Arguments alloc : simpl never.

(** Every element of an instruction list is an allocated object. *)
Definition allocated (h : heap) (l : list ref) : Prop :=
  Forall (fun r => (r < next_ref h)%nat) l.

(** ** [sys.version_info] and the tables of the [dis] module *)

Definition version : Type := (Z * Z)%type.

Definition version_ge (v w : version) : bool :=
  (fst w <? fst v) || ((fst v =? fst w) && (snd w <=? snd v)).
Definition version_lt (v w : version) : bool := negb (version_ge v w).

(** ** Code objects

    The fields of [types.CodeType] read or written by the module.  The same
    record stands for the [code_options] dictionary, whose keys are these
    fields.  [co_lnotab] is the line table: [co_lnotab] before Python 3.10,
    [co_linetable] from 3.10 on. *)
Record Code : Type := mkCode {
  co_argcount : Z;
  co_posonlyargcount : Z;
  co_kwonlyargcount : Z;
  co_nlocals : Z;
  co_stacksize : Z;
  co_flags : Z;
  co_code : list Z;
  co_consts : list pyval;
  co_names : list string;
  co_varnames : list string;
  co_filename : string;
  co_name : string;
  co_qualname : string;
  co_firstlineno : Z;
  co_lnotab : list Z;
  co_exceptiontable : list Z;
  co_freevars : list string;
  co_cellvars : list string
}.

(** The [dis] module belongs to the running interpreter, not to this
    repository, so its tables are taken as a parameter.  [dis_opname] is the
    256-entry list [dis.opname], read at an opcode. *)
Record Dis : Type := mkDis {
  dis_opname : Z -> string;
  dis_opmap : string -> option Z;
  dis_hasjabs : list Z;
  dis_hasjrel : list Z;
  dis_haslocal : list Z;
  dis_hasname : list Z;
  dis_EXTENDED_ARG : Z
}.

Definition Z_in (x : Z) (l : list Z) : bool := existsb (Z.eqb x) l.

Definition str_in (x : string) (l : list string) : bool :=
  existsb (String.eqb x) l.

(** [needle in haystack] on Python strings. *)
Fixpoint is_prefix (p s : string) : bool :=
  match p, s with
  | EmptyString, _ => true
  | String a p', String b s' => Ascii.eqb a b && is_prefix p' s'
  | String _ _, EmptyString => false
  end.

Fixpoint str_contains (needle hay : string) : bool :=
  is_prefix needle hay ||
  match hay with
  | EmptyString => false
  | String _ hay' => str_contains needle hay'
  end.

Definition Z_to_string (z : Z) : string := NilZero.string_of_int (Z.to_int z).

(** [_PYOPCODE_CACHES.get(name, 0)] *)
Definition _PYOPCODE_CACHES : list (string * Z) :=
  [ ("BINARY_SUBSCR", 4); ("STORE_SUBSCR", 1); ("UNPACK_SEQUENCE", 1);
    ("STORE_ATTR", 4); ("LOAD_ATTR", 4); ("COMPARE_OP", 2);
    ("LOAD_GLOBAL", 5); ("BINARY_OP", 1); ("LOAD_METHOD", 10);
    ("PRECALL", 1); ("CALL", 4) ].

Fixpoint dict_get {V : Type} (d : list (string * V)) (k : string) (dflt : V) : V :=
  match d with
  | [] => dflt
  | (k', v) :: d' => if String.eqb k k' then v else dict_get d' k dflt
  end.

(** Removing the last element of a Python list. *)
Fixpoint unsnoc {A : Type} (l : list A) : option (list A * A) :=
  match l with
  | [] => None
  | x :: l' =>
      match unsnoc l' with
      | None => Some ([], x)
      | Some (init, y) => Some (x :: init, y)
      end
  end.

Section Transformation.

Variable ver : version.
Variable dis : Dis.

Definition is_extended_arg (i : Instruction) : bool :=
  opcode i =? dis_EXTENDED_ARG dis.

(** *** [create_instruction] *)
Definition create_instruction (h : heap) (name : string) (a : option Z)
    (av : option pyval) (tgt : option ref) : result (ref * heap) :=
  match dis_opmap dis name with
  | None => Raise KeyError
  | Some op =>
      let av' := match av with
                 | Some v => v
                 | None => match a with Some n => PyInt n | None => PyNone end
                 end in
      Ok (alloc h (mkInstruction op name a av' None None false tgt None))
  end.

(** *** [instruction_size] *)
Definition instruction_size (i : Instruction) : Z :=
  if version_ge ver (3, 11)
  then 2 * (dict_get _PYOPCODE_CACHES (dis_opname dis (opcode i)) 0 + 1)
  else 2.

(** *** [check_offsets] *)
Fixpoint check_offsets_from (off : Z) (h : heap) (l : list ref) : result unit :=
  match l with
  | [] => Ok tt
  | r :: l' =>
      _ <- assert (opt_Z_eqb (offset (deref h r)) off) ;;
      check_offsets_from (off + instruction_size (deref h r)) h l'
  end.

Definition check_offsets (h : heap) (l : list ref) : result unit :=
  check_offsets_from 0 h l.

(** *** [update_offsets] *)
Fixpoint update_offsets_from (off : Z) (h : heap) (l : list ref) : heap :=
  match l with
  | [] => h
  | r :: l' =>
      let h1 := store h r (set_offset (deref h r) (Some off)) in
      update_offsets_from (off + instruction_size (deref h1 r)) h1 l'
  end.

Definition update_offsets (h : heap) (l : list ref) : heap :=
  update_offsets_from 0 h l.

(** *** [fix_extended_args] *)

(** [maybe_pop_n]: up to [n] times, drop the last element of [output] when it
    is an EXTENDED_ARG. *)
Fixpoint maybe_pop_n (h : heap) (n : nat) (output : list ref) : list ref :=
  match n with
  | O => output
  | S n' =>
      match unsnoc output with
      | Some (init, r) =>
          if is_extended_arg (deref h r)
          then maybe_pop_n h n' init
          else maybe_pop_n h n' output
      | None => maybe_pop_n h n' output
      end
  end.

(** Truthiness of [inst.arg and inst.arg > bound]. *)
Definition arg_gt (a : option Z) (bound : Z) : bool :=
  match a with
  | Some n => negb (n =? 0) && (bound <? n)
  | None => false
  end.

(** Append freshly created EXTENDED_ARG instructions carrying
    [a >> s] for each shift [s] of [shifts]. *)
Fixpoint append_extended (h : heap) (output : list ref) (a : Z)
    (shifts : list Z) : result (heap * list ref) :=
  match shifts with
  | [] => Ok (h, output)
  | s :: shifts' =>
      '(r, h1) <- create_instruction h "EXTENDED_ARG" (Some (Z.shiftr a s))
                    None None ;;
      append_extended h1 (output ++ [r]) a shifts'
  end.

Definition arg_or_0 (a : option Z) : Z :=
  match a with Some n => n | None => 0 end.

Fixpoint fix_extended_args_loop (h : heap) (l : list ref) (output : list ref)
    : result (heap * list ref) :=
  match l with
  | [] => Ok (h, output)
  | r :: l' =>
      let inst := deref h r in
      '(h1, output1) <-
        (if is_extended_arg inst then
           Ok (store h r (set_arg inst (Some 0)), output)
         else if arg_gt (arg inst) 0xFFFFFF then
           append_extended h (maybe_pop_n h 3 output) (arg_or_0 (arg inst))
             [24; 16; 8]
         else if arg_gt (arg inst) 0xFFFF then
           append_extended h (maybe_pop_n h 2 output) (arg_or_0 (arg inst))
             [16; 8]
         else if arg_gt (arg inst) 0xFF then
           append_extended h (maybe_pop_n h 1 output) (arg_or_0 (arg inst))
             [8]
         else Ok (h, output)) ;;
      fix_extended_args_loop h1 l' (output1 ++ [r])
  end.

(** Returns the store, the new contents of [instructions] and [added]. *)
Definition fix_extended_args (h : heap) (l : list ref)
    : result (heap * list ref * Z) :=
  '(h1, output) <- fix_extended_args_loop h l [] ;;
  let added := Z.of_nat (List.length output) - Z.of_nat (List.length l) in
  _ <- assert (0 <=? added) ;;
  Ok (h1, output, added).

(** *** [virtualize_jumps] *)

(** Lookup in a dictionary built by a comprehension: the last binding of a
    key wins. *)
Fixpoint dict_last {K V : Type} (eqb : K -> K -> bool) (d : list (K * V))
    (k : K) : option V :=
  match d with
  | [] => None
  | (k', v) :: d' =>
      match dict_last eqb d' k with
      | Some v' => Some v'
      | None => if eqb k' k then Some v else None
      end
  end.

Definition opt_eqb (a b : option Z) : bool :=
  match a, b with
  | Some x, Some y => Z.eqb x y
  | None, None => true
  | _, _ => false
  end.

Definition is_jump (i : Instruction) : bool :=
  Z_in (opcode i) (dis_hasjabs dis) || Z_in (opcode i) (dis_hasjrel dis).

(** The inner [for offset in (0, 2, 4, 6)] loop; [None] when it ends without
    [break], which leaves [inst.target] as it was. *)
Fixpoint probe_target (h : heap) (jump_targets : list (option Z * ref))
    (av : Z) (offsets : list Z) : result (option ref) :=
  match offsets with
  | [] => Ok None
  | o :: offsets' =>
      match dict_last opt_eqb jump_targets (Some (av + o)) with
      | None => Raise KeyError
      | Some t =>
          if negb (is_extended_arg (deref h t)) then Ok (Some t)
          else probe_target h jump_targets av offsets'
      end
  end.

Fixpoint virtualize_jumps_loop (jump_targets : list (option Z * ref))
    (h : heap) (l : list ref) : result heap :=
  match l with
  | [] => Ok h
  | r :: l' =>
      let inst := deref h r in
      h1 <- (if is_jump inst then
               match argval inst with
               | PyInt av =>
                   t <- probe_target h jump_targets av [0; 2; 4; 6] ;;
                   match t with
                   | Some t' => Ok (store h r (set_target inst (Some t')))
                   | None => Ok h
                   end
               | _ => Raise TypeError
               end
             else Ok h) ;;
      virtualize_jumps_loop jump_targets h1 l'
  end.

Definition virtualize_jumps (h : heap) (l : list ref) : result heap :=
  virtualize_jumps_loop (map (fun r => (offset (deref h r), r)) l) h l.

(** *** [devirtualize_jumps] *)

(** [indexof = {id(inst): i for i, inst in enumerate(instructions)}] *)
Definition indexof (l : list ref) : list (ref * nat) :=
  combine l (seq 0 (List.length l)).

(** The [for offset in (1, 2, 3)] loop that moves [target] back over the
    EXTENDED_ARG instructions right before it. *)
Fixpoint prefix_start (h : heap) (l : list ref) (target_index : nat)
    (tgt : ref) (offsets : list nat) : ref :=
  match offsets with
  | [] => tgt
  | o :: offsets' =>
      if (o <=? target_index)%nat &&
         is_extended_arg (deref h (nth (target_index - o) l tgt))
      then prefix_start h l target_index (nth (target_index - o) l tgt) offsets'
      else tgt
  end.

(** [int(x / 2)]: true division, then truncation toward zero. *)
Definition int_div2 (x : Z) : Z := Z.quot x 2.

Definition sub_offsets (a b : option Z) (size : Z) : result Z :=
  match a, b with
  | Some x, Some y => Ok (x - y - size)
  | _, _ => Raise TypeError
  end.

Definition repr_offset (o : option Z) : string :=
  match o with
  | Some z => Z_to_string z
  | None => "None"
  end.

(** What the body of the loop makes of the jump [r]: its [arg], [argval]
    and [argrepr] are assigned. *)
Definition devirtualized_jump (h : heap) (l : list ref) (r : ref)
    : result Instruction :=
  let inst := deref h r in
  match target inst with
  | None => Raise KeyError
  | Some t0 =>
      match dict_last Nat.eqb (indexof l) t0 with
      | None => Raise KeyError
      | Some target_index =>
          let t := prefix_start h l target_index t0 [1; 2; 3]%nat in
          let toff := offset (deref h t) in
          a <- (if Z_in (opcode inst) (dis_hasjabs dis) then
                  if version_lt ver (3, 10) then Ok toff
                  else match toff with
                       | Some x => Ok (Some (int_div2 x))
                       | None => Raise TypeError
                       end
                else
                  d <- sub_offsets toff (offset inst) (instruction_size inst) ;;
                  let a0 := if version_lt ver (3, 10) then d else int_div2 d in
                  if version_ge ver (3, 11) &&
                     str_contains "BACKWARD" (opname inst)
                  then Ok (Some (- a0))
                  else Ok (Some a0)) ;;
          let inst1 := set_arg inst a in
          let inst2 := set_argval inst1
                         (match toff with Some x => PyInt x | None => PyNone end) in
          Ok (set_argrepr inst2 (Some (String.append "to " (repr_offset toff))))
      end
  end.

Definition devirtualize_jump (h : heap) (l : list ref) (r : ref) : result heap :=
  inst' <- devirtualized_jump h l r ;;
  Ok (store h r inst').

Fixpoint devirtualize_jumps_loop (all : list ref) (h : heap) (l : list ref)
    : result heap :=
  match l with
  | [] => Ok h
  | r :: l' =>
      h1 <- (if is_jump (deref h r) then devirtualize_jump h all r else Ok h) ;;
      devirtualize_jumps_loop all h1 l'
  end.

Definition devirtualize_jumps (h : heap) (l : list ref) : result heap :=
  devirtualize_jumps_loop l h l.

(** *** [strip_extended_args] *)
Definition strip_extended_args (h : heap) (l : list ref) : list ref :=
  filter (fun r => negb (is_extended_arg (deref h r))) l.

(** *** [remove_load_call_method] *)
Definition rewrites : list (string * string) :=
  [ ("LOAD_METHOD", "LOAD_ATTR"); ("CALL_METHOD", "CALL_FUNCTION") ].

Fixpoint dict_find {V : Type} (d : list (string * V)) (k : string) : option V :=
  match d with
  | [] => None
  | (k', v) :: d' => if String.eqb k k' then Some v else dict_find d' k
  end.

Fixpoint remove_load_call_method (h : heap) (l : list ref) : result heap :=
  match l with
  | [] => Ok h
  | r :: l' =>
      let inst := deref h r in
      h1 <- match dict_find rewrites (opname inst) with
            | Some name' =>
                match dis_opmap dis name' with
                | Some op => Ok (store h r (set_opcode (set_opname inst name') op))
                | None => Raise KeyError
                end
            | None => Ok h
            end ;;
      remove_load_call_method h1 l'
  end.

(** *** [cell_and_freevars_offset] and [explicit_super] *)
Definition cell_and_freevars_offset (code : Code) (i : Z) : Z :=
  if version_ge ver (3, 11) then i + co_nlocals code else i.

(** [tuple.index]: the first position of [x]. *)
Fixpoint tuple_index (l : list string) (x : string) : option Z :=
  match l with
  | [] => None
  | y :: l' =>
      if String.eqb y x then Some 0
      else match tuple_index l' x with
           | Some i => Some (i + 1)
           | None => None
           end
  end.

Definition set_arg_argval_2 (h : heap) (r : ref) : heap :=
  store h r (set_argval (set_arg (deref h r) (Some 2)) (PyInt 2)).

(** The body of [if nexti.opname in (...) and nexti.arg == 0:] for the
    instructions [nexti] and (when present) [instructions[idx + 2]]. *)
Definition expand_super (code : Code) (h : heap) (output : list ref)
    (nexti : ref) (after : list ref) : result (heap * list ref) :=
  let cell_and_free := co_cellvars code ++ co_freevars code in
  _ <- assert (str_in "__class__" cell_and_free) ;;
  '(r1, h1) <- create_instruction h "LOAD_DEREF"
                 (option_map (cell_and_freevars_offset code)
                    (tuple_index cell_and_free "__class__"))
                 (Some (PyStr "__class__")) None ;;
  match co_varnames code with
  | [] => Raise IndexError
  | first_var :: _ =>
      '(r2, h2) <-
        (if str_in first_var cell_and_free then
           create_instruction h1 "LOAD_DEREF"
             (option_map (cell_and_freevars_offset code)
                (tuple_index cell_and_free first_var))
             (Some (PyStr first_var)) None
         else
           create_instruction h1 "LOAD_FAST" (Some 0) (Some (PyStr first_var))
             None) ;;
      let is_precall := String.eqb (opname (deref h2 nexti)) "PRECALL" in
      let h3 := set_arg_argval_2 h2 nexti in
      if is_precall then
        match after with
        | [] => Raise IndexError
        | call_inst :: _ => Ok (set_arg_argval_2 h3 call_inst, output ++ [r1; r2])
        end
      else Ok (h3, output ++ [r1; r2])
  end.

Fixpoint explicit_super_loop (code : Code) (h : heap) (l : list ref)
    (output : list ref) : result (heap * list ref) :=
  match l with
  | [] => Ok (h, output)
  | r :: l' =>
      let output1 := output ++ [r] in
      let inst := deref h r in
      if String.eqb (opname inst) "LOAD_GLOBAL" &&
         pyval_eqb (argval inst) (PyStr "super")
      then
        match l' with
        | [] => Raise IndexError
        | nexti :: after =>
            if str_in (opname (deref h nexti)) ["CALL_FUNCTION"; "PRECALL"] &&
               opt_Z_eqb (arg (deref h nexti)) 0
            then
              '(h1, output2) <- expand_super code h output1 nexti after ;;
              explicit_super_loop code h1 l' output2
            else explicit_super_loop code h l' output1
        end
      else explicit_super_loop code h l' output1
  end.

Definition explicit_super (code : Code) (h : heap) (l : list ref)
    : result (heap * list ref) :=
  explicit_super_loop code h l [].

(** *** [fix_vars] *)

(** [{name: idx for idx, name in enumerate(names)}] *)
Definition name_table (names : list string) : list (string * Z) :=
  combine names (map Z.of_nat (seq 0 (List.length names))).

Definition table_lookup (t : list (string * Z)) (k : pyval) : result Z :=
  match k with
  | PyStr s =>
      match dict_last String.eqb t s with
      | Some i => Ok i
      | None => Raise KeyError
      end
  | _ => Raise KeyError
  end.

Definition fix_var (varnames names : list (string * Z)) (h : heap) (r : ref)
    : result heap :=
  '(shift, push_null) <-
    (if version_ge ver (3, 11) && String.eqb (opname (deref h r)) "LOAD_GLOBAL"
     then match arg (deref h r) with
          | Some a => Ok (1, a mod 2)
          | None => Raise AssertionError
          end
     else Ok (0, 0)) ;;
  h1 <- (if Z_in (opcode (deref h r)) (dis_haslocal dis) then
           i <- table_lookup varnames (argval (deref h r)) ;;
           Ok (store h r (set_arg (deref h r) (Some i)))
         else if Z_in (opcode (deref h r)) (dis_hasname dis) then
           i <- table_lookup names (argval (deref h r)) ;;
           Ok (store h r (set_arg (deref h r) (Some i)))
         else Ok h) ;;
  match arg (deref h1 r) with
  | Some a =>
      Ok (store h1 r (set_arg (deref h1 r) (Some (Z.shiftl a shift + push_null))))
  | None => Ok h1
  end.

Fixpoint fix_vars_loop (varnames names : list (string * Z)) (h : heap)
    (l : list ref) : result heap :=
  match l with
  | [] => Ok h
  | r :: l' =>
      h1 <- fix_var varnames names h r ;;
      fix_vars_loop varnames names h1 l'
  end.

Definition fix_vars (h : heap) (l : list ref) (code_options : Code)
    : result heap :=
  fix_vars_loop (name_table (co_varnames code_options))
                (name_table (co_names code_options)) h l.

(** *** [lnotab_writer] (line table before Python 3.10) *)

Record lnotab_state : Type := mkLnotab {
  lnotab : list Z;
  ln_lineno : Z;
  ln_byteno : Z
}.

Definition lnotab_writer (lineno : Z) : result lnotab_state :=
  _ <- assert (version_lt ver (3, 10)) ;;
  Ok (mkLnotab [] lineno 0).

(** The [while] loop of [update].  The counter bounds the number of
    iterations by the loop's variant; [lnotab_update] starts it at
    |byte delta| + |line delta|, which every iteration that passes the
    assertion decreases, so the branch for an exhausted counter is never
    taken ([lnotab_update_loop_unfold] below). *)
Fixpoint lnotab_update_loop (n : nat) (st : lnotab_state)
    (lineno_new byteno_new : Z) : result lnotab_state :=
  if (byteno_new =? ln_byteno st) && (lineno_new =? ln_lineno st) then Ok st
  else
    match n with
    | O => Raise AssertionError
    | S n' =>
        let byte_offset := Z.max 0 (Z.min (byteno_new - ln_byteno st) 255) in
        let line_offset := Z.max (-128) (Z.min (lineno_new - ln_lineno st) 127) in
        _ <- assert (negb (byte_offset =? 0) || negb (line_offset =? 0)) ;;
        lnotab_update_loop n'
          (mkLnotab (lnotab st ++ [byte_offset; Z.land line_offset 0xFF])
                    (ln_lineno st + line_offset)
                    (ln_byteno st + byte_offset))
          lineno_new byteno_new
    end.

Definition lnotab_update (st : lnotab_state) (lineno_new byteno_new : Z)
    : result lnotab_state :=
  lnotab_update_loop
    (Z.to_nat (Z.abs (byteno_new - ln_byteno st) +
               Z.abs (lineno_new - ln_lineno st)))
    st lineno_new byteno_new.

(** *** [linetable_writer] (line table from Python 3.10) *)

Record linetable_state : Type := mkLinetable {
  linetable : list Z;
  lt_lineno : Z;
  lt_lineno_delta : Z;
  lt_byteno : Z
}.

Definition linetable_writer (first_lineno : Z) : result linetable_state :=
  _ <- assert (version_ge ver (3, 10)) ;;
  Ok (mkLinetable [] first_lineno 0 0).

(** The [while] loop of [_update], with the same kind of counter. *)
Fixpoint _update_loop (n : nat) (table : list Z) (byteno_delta lineno_delta : Z)
    : result (list Z) :=
  if (byteno_delta =? 0) && (lineno_delta =? 0) then Ok table
  else
    match n with
    | O => Raise AssertionError
    | S n' =>
        let byte_offset := Z.max 0 (Z.min byteno_delta 254) in
        let line_offset := Z.max (-127) (Z.min lineno_delta 127) in
        _ <- assert (negb (byte_offset =? 0) || negb (line_offset =? 0)) ;;
        _update_loop n' (table ++ [byte_offset; Z.land line_offset 0xFF])
          (byteno_delta - byte_offset) (lineno_delta - line_offset)
    end.

Definition _update (table : list Z) (byteno_delta lineno_delta : Z)
    : result (list Z) :=
  _update_loop (Z.to_nat (Z.abs byteno_delta + Z.abs lineno_delta))
    table byteno_delta lineno_delta.

Definition linetable_update (st : linetable_state) (lineno_new byteno_new : Z)
    : result linetable_state :=
  let byteno_delta := byteno_new - lt_byteno st in
  table <- _update (linetable st) byteno_delta (lt_lineno_delta st) ;;
  Ok (mkLinetable table lineno_new (lineno_new - lt_lineno st) byteno_new).

Definition linetable_end (st : linetable_state) (total_bytes : Z)
    : result linetable_state :=
  table <- _update (linetable st) (total_bytes - lt_byteno st)
             (lt_lineno_delta st) ;;
  Ok (mkLinetable table (lt_lineno st) (lt_lineno_delta st) (lt_byteno st)).

(** *** [assemble] *)

Inductive writer : Type :=
| Lnotab (st : lnotab_state)
| Linetable (st : linetable_state).

Definition update_lineno (w : writer) (lineno_new byteno_new : Z) : result writer :=
  match w with
  | Lnotab st => st' <- lnotab_update st lineno_new byteno_new ;; Ok (Lnotab st')
  | Linetable st =>
      st' <- linetable_update st lineno_new byteno_new ;; Ok (Linetable st')
  end.

Definition writer_table (w : writer) : list Z :=
  match w with
  | Lnotab st => lnotab st
  | Linetable st => linetable st
  end.

(** [(0, 0)] repeated [n] times. *)
Fixpoint cache_padding (n : nat) : list Z :=
  match n with
  | O => []
  | S n' => 0 :: 0 :: cache_padding n'
  end.

Definition encode_instruction (i : Instruction) : list Z :=
  [opcode i; Z.land (arg_or_0 (arg i)) 0xFF] ++
  (if version_ge ver (3, 11)
   then cache_padding (Z.to_nat (instruction_size i / 2 - 1))
   else []).

Fixpoint assemble_loop (h : heap) (l : list ref) (code : list Z) (w : writer)
    : result (list Z * writer) :=
  match l with
  | [] => Ok (code, w)
  | r :: l' =>
      let inst := deref h r in
      w1 <- match starts_line inst with
            | Some line => update_lineno w line (Z.of_nat (List.length code))
            | None => Ok w
            end ;;
      assemble_loop h l' (code ++ encode_instruction inst) w1
  end.

(** [bytes(l)] raises [ValueError] unless every element is in [range(256)]. *)
Definition bytes (l : list Z) : result (list Z) :=
  if forallb (fun b => (0 <=? b) && (b <? 256)) l then Ok l
  else Raise ValueError.

Definition assemble (h : heap) (l : list ref) (firstlineno : Z)
    : result (list Z * list Z) :=
  w0 <- (if version_lt ver (3, 10)
         then st <- lnotab_writer firstlineno ;; Ok (Lnotab st)
         else st <- linetable_writer firstlineno ;; Ok (Linetable st)) ;;
  '(code, w) <- assemble_loop h l [] w0 ;;
  w' <- (if version_ge ver (3, 10) then
           match w with
           | Linetable st =>
               st' <- linetable_end st (Z.of_nat (List.length code)) ;;
               Ok (Linetable st')
           | Lnotab _ => Ok w
           end
         else Ok w) ;;
  bytecode <- bytes code ;;
  table <- bytes (writer_table w') ;;
  Ok (bytecode, table).

(** *** Collaborators from [bytecode_analysis] *)

(** Modelled from the spec: [propagate_line_nums] lives in
    [bytecode_analysis.py], which is not among the sources.  It "fills
    missing sourceLine markers forward from the nearest preceding one". *)
Fixpoint propagate_line_nums_from (cur : option Z) (h : heap) (l : list ref)
    : heap :=
  match l with
  | [] => h
  | r :: l' =>
      match starts_line (deref h r) with
      | Some line => propagate_line_nums_from (Some line) h l'
      | None =>
          propagate_line_nums_from cur
            (store h r (set_starts_line (deref h r) cur)) l'
      end
  end.

Definition propagate_line_nums (h : heap) (l : list ref) : heap :=
  propagate_line_nums_from None h l.

(** Modelled from the spec: [remove_extra_line_nums] lives in
    [bytecode_analysis.py], which is not among the sources.  It "removes a
    sourceLine marker from an instruction if an earlier instruction already
    marks the same line and no breakpoint need exists". *)
Fixpoint remove_extra_line_nums_from (cur : option Z) (h : heap) (l : list ref)
    : heap :=
  match l with
  | [] => h
  | r :: l' =>
      match starts_line (deref h r) with
      | None => remove_extra_line_nums_from cur h l'
      | Some line =>
          if opt_Z_eqb cur line
          then remove_extra_line_nums_from cur
                 (store h r (set_starts_line (deref h r) None)) l'
          else remove_extra_line_nums_from (Some line) h l'
      end
  end.

Definition remove_extra_line_nums (h : heap) (l : list ref) : heap :=
  remove_extra_line_nums_from None h l.

(** [stacksize_analysis], also in [bytecode_analysis.py]: a function from the
    instruction list to an integer. *)
Variable stacksize_analysis : heap -> list ref -> Z.

(** [dis.get_instructions], the interpreter's decoder; [convert_instruction]
    copies its result field by field. *)
Variable get_instructions : Code -> result (list Instruction).

(** *** [cleaned_instructions] *)

(** The passes of the [if not safe:] block. *)
Definition canonicalize (code : Code) (h : heap) (l : list ref)
    : result (heap * list ref) :=
  h2 <- (if version_lt ver (3, 11) then remove_load_call_method h l
         else Ok h) ;;
  explicit_super code h2 l.

(** [convert_instruction] copies seven fields of a [dis.Instruction]. *)
Definition convert_instruction (i : Instruction) : Instruction :=
  mkInstruction (opcode i) (opname i) (arg i) (argval i) (offset i)
    (starts_line i) (is_jump_target i) None None.

(** [list(map(convert_instruction, dis.get_instructions(code)))]: one new
    object per decoded instruction. *)
Fixpoint convert_instructions (h : heap) (decoded : list Instruction)
    : heap * list ref :=
  match decoded with
  | [] => (h, [])
  | i :: decoded' =>
      let '(r, h1) := alloc h (convert_instruction i) in
      let '(h2, l) := convert_instructions h1 decoded' in
      (h2, r :: l)
  end.

Definition cleaned_instructions (h : heap) (code : Code) (safe : bool)
    : result (heap * list ref) :=
  decoded <- get_instructions code ;;
  let '(h0, l0) := convert_instructions h decoded in
  _ <- check_offsets h0 l0 ;;
  h1 <- virtualize_jumps h0 l0 ;;
  let l1 := strip_extended_args h1 l0 in
  if negb safe then canonicalize code h1 l1
  else Ok (h1, l1).

(** *** [transform_code_object] *)

(** The [while dirty:] loop.  It has no bound in the source; [None] is the
    loop still running after [fuel] iterations. *)
Fixpoint normalize (fuel : nat) (h : heap) (l : list ref)
    : option (result (heap * list ref)) :=
  match fuel with
  | O => None
  | S fuel' =>
      let h1 := update_offsets h l in
      match devirtualize_jumps h1 l with
      | Raise e => Some (Raise e)
      | Ok h2 =>
          match fix_extended_args h2 l with
          | Raise e => Some (Raise e)
          | Ok (h3, l3, dirty) =>
              if dirty =? 0 then Some (Ok (h3, l3))
              else normalize fuel' h3 l3
          end
      end
  end.

Definition transformation : Type :=
  heap -> list ref -> Code -> result (heap * list ref * Code).

(** [lambda x, y: None] *)
Definition noop : transformation := fun h l code_options => Ok (h, l, code_options).

Definition set_tables (c : Code) (nlocals stacksize : Z) (bytecode table : list Z)
    : Code :=
  mkCode (co_argcount c) (co_posonlyargcount c) (co_kwonlyargcount c)
    nlocals stacksize (co_flags c) bytecode (co_consts c) (co_names c)
    (co_varnames c) (co_filename c) (co_name c) (co_qualname c)
    (co_firstlineno c) table
    (if version_ge ver (3, 11) then [] else co_exceptiontable c)
    (co_freevars c) (co_cellvars c).

(** The record has exactly the keys of [keys], so the assertion comparing
    the key sets holds by construction. *)
Definition transform_code_object (fuel : nat) (h : heap) (code : Code)
    (transformations : transformation) (safe : bool)
    : option (result Code) :=
  let code_options := code in
  match
    (_ <- assert (Z.of_nat (List.length (co_varnames code_options))
                  =? co_nlocals code_options) ;;
     '(h1, l1) <- cleaned_instructions h code safe ;;
     let h2 := propagate_line_nums h1 l1 in
     '(h3, l3, code_options1) <- transformations h2 l1 code_options ;;
     h4 <- fix_vars h3 l3 code_options1 ;;
     Ok (h4, l3, code_options1))
  with
  | Raise e => Some (Raise e)
  | Ok (h4, l3, code_options1) =>
      match normalize fuel h4 l3 with
      | None => None
      | Some (Raise e) => Some (Raise e)
      | Some (Ok (h5, l5)) =>
          let h6 := remove_extra_line_nums h5 l5 in
          Some ('(bytecode, table) <-
                  assemble h6 l5 (co_firstlineno code_options1) ;;
                Ok (set_tables code_options1
                      (Z.of_nat (List.length (co_varnames code_options1)))
                      (stacksize_analysis h6 l5) bytecode table))
      end
  end.

End Transformation.

Arguments encode_instruction : simpl never.
Arguments instruction_size : simpl never.

(** [debug_checks]: the round trip in safe mode must reproduce the
    instruction bytes and the line table. *)
Definition list_Z_eqb (a b : list Z) : bool :=
  if list_eq_dec Z.eq_dec a b then true else false.

Definition debug_checks (ver : version) (dis : Dis)
    (stacksize_analysis : heap -> list ref -> Z)
    (get_instructions : Code -> result (list Instruction))
    (fuel : nat) (h : heap) (code : Code) : option (result unit) :=
  match transform_code_object ver dis stacksize_analysis get_instructions
          fuel h code noop true with
  | None => None
  | Some (Raise e) => Some (Raise e)
  | Some (Ok dode) =>
      Some (_ <- assert (list_Z_eqb (co_code code) (co_code dode)) ;;
            assert (list_Z_eqb (co_lnotab code) (co_lnotab dode)))
  end.

(** ** Helpers that build instructions *)

(** [create_rot_n] can raise [AttributeError], which none of the functions
    above does; [outcome] adds it to the exceptions of [result]. *)
Inductive builder_exn : Type :=
| Exn (e : exn)
| AttributeError.

Inductive outcome (A : Type) : Type :=
| Returns (a : A)
| Throws (e : builder_exn).
Arguments Returns {A} a.
Arguments Throws {A} e.

Definition lift {A : Type} (m : result A) : outcome A :=
  match m with
  | Ok a => Returns a
  | Raise e => Throws (Exn e)
  end.

Definition obind {A B : Type} (m : outcome A) (f : A -> outcome B) : outcome B :=
  match m with
  | Returns a => f a
  | Throws e => Throws e
  end.

Section Builders.

Variable ver : version.
Variable dis : Dis.

(** [create_jump_absolute] *)
Definition create_jump_absolute (h : heap) (tgt : ref) : result (ref * heap) :=
  create_instruction dis h
    (if version_ge ver (3, 11) then "JUMP_FORWARD" else "JUMP_ABSOLUTE")
    None None (Some tgt).

(** [create_load_global]; [push_null] is a Boolean added to an integer. *)
Definition create_load_global (h : heap) (name : string) (a : Z)
    (push_null : bool) : result (ref * heap) :=
  create_instruction dis h "LOAD_GLOBAL"
    (Some (if version_ge ver (3, 11) then Z.shiftl a 1 + Z.b2z push_null else a))
    (Some (PyStr name)) None.

(** [create_dup_top] *)
Definition create_dup_top (h : heap) : result (ref * heap) :=
  if version_ge ver (3, 11)
  then create_instruction dis h "COPY" (Some 1) None None
  else create_instruction dis h "DUP_TOP" None None None.

(** [[create_instruction(name, i) for i in args]] *)
Fixpoint create_each (h : heap) (name : string) (args : list Z)
    : result (heap * list ref) :=
  match args with
  | [] => Ok (h, [])
  | a :: args' =>
      '(r, h1) <- create_instruction dis h name (Some a) None None ;;
      '(h2, l) <- create_each h1 name args' ;;
      Ok (h2, r :: l)
  end.

(** [range(n, 1, -1)] *)
Definition range_down (n : Z) : list Z :=
  map (fun k => n - Z.of_nat k) (seq 0 (Z.to_nat (n - 1))).

(** [[create_instruction(name, arg)]] *)
Definition create_one (h : heap) (name : string) (a : option Z)
    : result (heap * list ref) :=
  '(r, h1) <- create_instruction dis h name a None None ;;
  Ok (h1, [r]).

(** [create_rot_n] *)
Definition create_rot_n (h : heap) (n : Z) : outcome (heap * list ref) :=
  if n <=? 1 then Returns (h, [])
  else if version_ge ver (3, 11) then lift (create_each h "SWAP" (range_down n))
  else if version_lt ver (3, 8) && (4 <=? n) then Throws AttributeError
  else if version_lt ver (3, 10) && (5 <=? n) then Throws AttributeError
  else if n <=? 4 then
    match nth_error ["TWO"; "THREE"; "FOUR"] (Z.to_nat (n - 2)) with
    | Some s => lift (create_one h (String.append "ROT_" s) None)
    | None => Throws (Exn IndexError)
    end
  else lift (create_one h "ROT_N" (Some n)).

(** [create_call_function] *)
Definition create_call_function (h : heap) (nargs : Z) (push_null : bool)
    : outcome (heap * list ref) :=
  if version_ge ver (3, 11) then
    obind (if push_null then
             obind (lift (create_one h "PUSH_NULL" None)) (fun x1 =>
             obind (create_rot_n (fst x1) (nargs + 2)) (fun x2 =>
             Returns (fst x2, snd x1 ++ snd x2)))
           else Returns (h, [])) (fun x =>
    obind (lift (create_one (fst x) "PRECALL" (Some nargs))) (fun x3 =>
    obind (lift (create_one (fst x3) "CALL" (Some nargs))) (fun x4 =>
    Returns (fst x4, snd x ++ snd x3 ++ snd x4))))
  else lift (create_one h "CALL_FUNCTION" (Some nargs)).

(** [create_call_method] *)
Definition create_call_method (h : heap) (nargs : Z)
    : result (heap * list ref) :=
  if version_ge ver (3, 11) then
    '(h1, l1) <- create_one h "PRECALL" (Some nargs) ;;
    '(h2, l2) <- create_one h1 "CALL" (Some nargs) ;;
    Ok (h2, l1 ++ l2)
  else create_one h "CALL_METHOD" (Some nargs).

End Builders.

(** ** [unique_id] and [is_generator] *)

(** The decimal numeral of a counter value, as an f-string prints it. *)
Definition decimal (n : nat) : string := NilZero.string_of_uint (Nat.to_uint n).

(** [unique_id]: [counter] is the next value of [_unique_id_counter], which
    [itertools.count()] starts at 0; the call returns the string and the
    counter's new state. *)
Definition unique_id (counter : nat) (name : string) : string * nat :=
  (String.append name (String.append "_" (decimal counter)), S counter).

(** [is_generator] *)
Definition is_generator (code : Code) : bool :=
  0 <? Z.land (co_flags code) 0x20.

(** ** The interpreter side: CPython's [dis]

    What the module imports from the interpreter, written down for the
    examples: the opcode tables of two interpreter versions and the decoder
    of Python 3.9 ([Lib/dis.py] and [Lib/opcode.py] of CPython). *)

Definition opname_of (table : list (Z * string)) (op : Z) : string :=
  match find (fun p => fst p =? op) table with
  | Some (_, name) => name
  | None => String.append "<" (String.append (Z_to_string op) ">")
  end.

Definition opmap_of (table : list (Z * string)) (name : string) : option Z :=
  match find (fun p => String.eqb (snd p) name) table with
  | Some (op, _) => Some op
  | None => None
  end.

Module Py39.

Definition ver : version := (3, 9).

Definition HAVE_ARGUMENT : Z := 90.
Definition EXTENDED_ARG : Z := 144.
Definition FORMAT_VALUE : Z := 155.

(** An excerpt of the opcode table of CPython 3.9. *)
Definition optable : list (Z * string) :=
  [ (1, "POP_TOP"); (2, "ROT_TWO"); (3, "ROT_THREE"); (4, "DUP_TOP");
    (5, "DUP_TOP_TWO"); (6, "ROT_FOUR"); (9, "NOP");
    (10, "UNARY_POSITIVE"); (11, "UNARY_NEGATIVE"); (12, "UNARY_NOT");
    (15, "UNARY_INVERT"); (19, "BINARY_POWER"); (20, "BINARY_MULTIPLY");
    (22, "BINARY_MODULO"); (23, "BINARY_ADD"); (24, "BINARY_SUBTRACT");
    (25, "BINARY_SUBSCR"); (60, "STORE_SUBSCR"); (68, "GET_ITER");
    (83, "RETURN_VALUE"); (87, "POP_BLOCK");
    (90, "STORE_NAME"); (91, "DELETE_NAME"); (92, "UNPACK_SEQUENCE");
    (93, "FOR_ITER"); (95, "STORE_ATTR"); (96, "DELETE_ATTR");
    (97, "STORE_GLOBAL"); (98, "DELETE_GLOBAL"); (100, "LOAD_CONST");
    (101, "LOAD_NAME"); (102, "BUILD_TUPLE"); (103, "BUILD_LIST");
    (106, "LOAD_ATTR"); (107, "COMPARE_OP"); (108, "IMPORT_NAME");
    (109, "IMPORT_FROM"); (110, "JUMP_FORWARD");
    (111, "JUMP_IF_FALSE_OR_POP"); (112, "JUMP_IF_TRUE_OR_POP");
    (113, "JUMP_ABSOLUTE"); (114, "POP_JUMP_IF_FALSE");
    (115, "POP_JUMP_IF_TRUE"); (116, "LOAD_GLOBAL");
    (121, "JUMP_IF_NOT_EXC_MATCH"); (122, "SETUP_FINALLY");
    (124, "LOAD_FAST"); (125, "STORE_FAST"); (126, "DELETE_FAST");
    (131, "CALL_FUNCTION"); (132, "MAKE_FUNCTION");
    (135, "LOAD_CLOSURE"); (136, "LOAD_DEREF"); (137, "STORE_DEREF");
    (138, "DELETE_DEREF"); (143, "SETUP_WITH"); (144, "EXTENDED_ARG");
    (148, "LOAD_CLASSDEREF"); (154, "SETUP_ASYNC_WITH");
    (155, "FORMAT_VALUE"); (160, "LOAD_METHOD"); (161, "CALL_METHOD") ].

Definition hasconst : list Z := [100].
Definition hasname : list Z := [90; 91; 95; 96; 97; 98; 101; 106; 108; 109; 116; 160].
Definition hasjrel : list Z := [93; 110; 122; 143; 154].
Definition hasjabs : list Z := [111; 112; 113; 114; 115; 121].
Definition haslocal : list Z := [124; 125; 126].
Definition hascompare : list Z := [107].
Definition hasfree : list Z := [135; 136; 137; 138; 148].
Definition cmp_op : list string := ["<"; "<="; "=="; "!="; ">"; ">="].

Definition tables : Dis :=
  mkDis (opname_of optable) (opmap_of optable) hasjabs hasjrel haslocal hasname
        EXTENDED_ARG.

(** [dis._unpack_opargs] *)
Fixpoint unpack_opargs (code : list Z) (i : Z) (extended_arg : Z)
    : result (list (Z * Z * option Z)) :=
  match code with
  | [] => Ok []
  | op :: rest =>
      if HAVE_ARGUMENT <=? op then
        match rest with
        | [] => Raise IndexError
        | b :: rest' =>
            let a := Z.lor b extended_arg in
            tl <- unpack_opargs rest' (i + 2)
                    (if op =? EXTENDED_ARG then Z.shiftl a 8 else 0) ;;
            Ok ((i, op, Some a) :: tl)
        end
      else
        tl <- match rest with
              | [] => Ok []
              | _ :: rest' => unpack_opargs rest' (i + 2) extended_arg
              end ;;
        Ok ((i, op, None) :: tl)
  end.

(** [dis.findlinestarts], on [co_lnotab]. *)
Fixpoint findlinestarts_loop (lnotab : list Z) (bytecode_len : Z)
    (lastlineno : option Z) (lineno addr : Z) : list (Z * Z) :=
  match lnotab with
  | byte_incr :: line_incr :: lnotab' =>
      let signed := if 0x80 <=? line_incr then line_incr - 0x100 else line_incr in
      if negb (byte_incr =? 0) then
        let emit := negb (opt_Z_eqb lastlineno lineno) in
        let lastlineno' := if emit then Some lineno else lastlineno in
        (if emit then [(addr, lineno)] else []) ++
        (if bytecode_len <=? addr + byte_incr then []
         else findlinestarts_loop lnotab' bytecode_len lastlineno'
                (lineno + signed) (addr + byte_incr))
      else
        findlinestarts_loop lnotab' bytecode_len lastlineno (lineno + signed) addr
  | _ => if negb (opt_Z_eqb lastlineno lineno) then [(addr, lineno)] else []
  end.

Definition findlinestarts (code : Code) : list (Z * Z) :=
  findlinestarts_loop (co_lnotab code) (Z.of_nat (List.length (co_code code)))
    None (co_firstlineno code) 0.

(** [dis.findlabels] *)
Fixpoint findlabels_loop (ops : list (Z * Z * option Z)) (labels : list Z)
    : list Z :=
  match ops with
  | [] => labels
  | (off, op, a) :: ops' =>
      match a with
      | Some n =>
          if Z_in op hasjrel then
            findlabels_loop ops'
              (if Z_in (off + 2 + n) labels then labels
               else labels ++ [off + 2 + n])
          else if Z_in op hasjabs then
            findlabels_loop ops'
              (if Z_in n labels then labels else labels ++ [n])
          else findlabels_loop ops' labels
      | None => findlabels_loop ops' labels
      end
  end.

Definition index_str (l : list string) (i : Z) : result pyval :=
  match nth_error l (Z.to_nat i) with
  | Some s => Ok (PyStr s)
  | None => Raise IndexError
  end.

(** The operand's value, as [dis._get_instructions_bytes] computes it.  The
    pair built for FORMAT_VALUE is kept as an opaque object. *)
Definition decode_argval (code : Code) (off op n : Z) : result pyval :=
  if Z_in op hasconst then
    match nth_error (co_consts code) (Z.to_nat n) with
    | Some v => Ok v
    | None => Raise IndexError
    end
  else if Z_in op hasname then index_str (co_names code) n
  else if Z_in op hasjrel then Ok (PyInt (off + 2 + n))
  else if Z_in op haslocal then index_str (co_varnames code) n
  else if Z_in op hascompare then index_str cmp_op n
  else if Z_in op hasfree then
    index_str (co_cellvars code ++ co_freevars code) n
  else if op =? FORMAT_VALUE then Ok (PyObj (Z.to_nat n))
  else Ok (PyInt n).

Fixpoint get_instructions_bytes (code : Code) (linestarts : list (Z * Z))
    (labels : list Z) (ops : list (Z * Z * option Z))
    : result (list Instruction) :=
  match ops with
  | [] => Ok []
  | (off, op, a) :: ops' =>
      av <- match a with
            | Some n => decode_argval code off op n
            | None => Ok PyNone
            end ;;
      tl <- get_instructions_bytes code linestarts labels ops' ;;
      Ok (mkInstruction op (opname_of optable op) a av (Some off)
            (dict_last Z.eqb linestarts off) (Z_in off labels) None None :: tl)
  end.

(** [dis.get_instructions] *)
Definition get_instructions (code : Code) : result (list Instruction) :=
  ops <- unpack_opargs (co_code code) 0 0 ;;
  get_instructions_bytes code (findlinestarts code) (findlabels_loop ops []) ops.

End Py39.

Module Py311.

Definition ver : version := (3, 11).

Definition EXTENDED_ARG : Z := 144.

(** An excerpt of the opcode table of CPython 3.11. *)
Definition optable : list (Z * string) :=
  [ (0, "CACHE"); (1, "POP_TOP"); (2, "PUSH_NULL"); (9, "NOP");
    (25, "BINARY_SUBSCR"); (60, "STORE_SUBSCR"); (83, "RETURN_VALUE");
    (90, "STORE_NAME"); (92, "UNPACK_SEQUENCE"); (93, "FOR_ITER");
    (95, "STORE_ATTR"); (97, "STORE_GLOBAL"); (99, "SWAP");
    (100, "LOAD_CONST"); (101, "LOAD_NAME"); (106, "LOAD_ATTR");
    (107, "COMPARE_OP"); (110, "JUMP_FORWARD");
    (114, "POP_JUMP_FORWARD_IF_FALSE"); (115, "POP_JUMP_FORWARD_IF_TRUE");
    (116, "LOAD_GLOBAL"); (120, "COPY"); (122, "BINARY_OP");
    (124, "LOAD_FAST"); (125, "STORE_FAST"); (137, "LOAD_DEREF");
    (140, "JUMP_BACKWARD"); (144, "EXTENDED_ARG"); (151, "RESUME");
    (160, "LOAD_METHOD"); (166, "PRECALL"); (171, "CALL");
    (175, "POP_JUMP_BACKWARD_IF_FALSE"); (176, "POP_JUMP_BACKWARD_IF_TRUE") ].

Definition hasname : list Z := [90; 95; 97; 101; 106; 116; 160].
Definition hasjrel : list Z := [93; 110; 114; 115; 140; 175; 176].
Definition hasjabs : list Z := [].
Definition haslocal : list Z := [124; 125].

Definition tables : Dis :=
  mkDis (opname_of optable) (opmap_of optable) hasjabs hasjrel haslocal hasname
        EXTENDED_ARG.

End Py311.

(** ** Small stores for the examples *)

Definition blank : Instruction :=
  mkInstruction 9 "NOP" None PyNone None None false None None.

(** The store whose objects are the elements of [l], at references
    [0 .. length l - 1]. *)
Definition heap_of (l : list Instruction) : heap :=
  mkHeap (fun r => nth r l blank) (List.length l).

Definition instr (op : Z) (name : string) (a : option Z) (av : pyval)
    : Instruction :=
  mkInstruction op name a av None None false None None.

(** A loop in Python 3.11: a backward jump to the first instruction and a
    forward jump over the next one, with offsets set. *)
Definition loop311 : heap :=
  heap_of
    [ mkInstruction 9 "NOP" None PyNone (Some 0) None true None None;
      mkInstruction 100 "LOAD_CONST" (Some 0) (PyInt 7) (Some 2) None false
        None None;
      mkInstruction 140 "JUMP_BACKWARD" None PyNone (Some 4) None false
        (Some 0%nat) None;
      mkInstruction 110 "JUMP_FORWARD" None PyNone (Some 6) None false
        (Some 5%nat) None;
      mkInstruction 9 "NOP" None PyNone (Some 8) None false None None;
      mkInstruction 83 "RETURN_VALUE" None PyNone (Some 10) None true None
        None ].

(** A code object with the given tables and nothing else. *)
Definition code_with (bytecode : list Z) (consts : list pyval)
    (names varnames : list string) (firstlineno : Z) (table : list Z) : Code :=
  mkCode 0 0 0 (Z.of_nat (List.length varnames)) 0 0 bytecode consts names
    varnames "f.py" "f" "f" firstlineno table [] [] [].

(** A method that calls [super().f()], as Python 3.9 compiles it, and its
    code object. *)
Definition super39 : heap :=
  heap_of
    [ instr 116 "LOAD_GLOBAL" (Some 0) (PyStr "super");
      instr 131 "CALL_FUNCTION" (Some 0) (PyInt 0);
      instr 160 "LOAD_METHOD" (Some 1) (PyStr "f");
      instr 161 "CALL_METHOD" (Some 0) (PyInt 0);
      instr 83 "RETURN_VALUE" None PyNone ].

Definition super_code : Code :=
  mkCode 1 0 0 1 2 0 [] [PyNone] ["super"; "f"] ["self"] "f.py" "f" "C.f" 1 []
    [] ["__class__"] [].

(** Python 3.9 code objects for the round trip.  [prefixed_code] is
    [EXTENDED_ARG 0; LOAD_CONST 0; RETURN_VALUE]: a prefix that adds nothing
    to the operand after it. *)
Definition prefixed_code : Code :=
  code_with [144; 0; 100; 0; 83; 0] [PyNone] [] [] 1 [].

(** [def f(x):] with the body [while x: x = g(x)] and [return x], on the
    lines 2 to 4. *)
Definition loop39_code : Code :=
  code_with
    [124; 0; 114; 14; 116; 0; 124; 0; 131; 1; 125; 0; 113; 0; 124; 0; 83; 0]
    [PyNone] ["g"] ["x"] 1 [0; 1; 4; 1; 10; 1].

(** [LOAD_GLOBAL 0; RETURN_VALUE] with the same name twice in [co_names]. *)
Definition twice_named_code : Code :=
  code_with [116; 0; 83; 0] [PyNone] ["g"; "g"] [] 1 [].

(** [LOAD_CONST 0; RETURN_VALUE] on line 2, with a second entry in the line
    table that starts no line. *)
Definition padded_table_code : Code :=
  code_with [100; 0; 83; 0] [PyNone] [] [] 1 [0; 1; 2; 0].

(** A Python 3.9 jump to a prefixed instruction: the jump holds the offset
    of the prefix. *)
Definition prefixed_jump39 : heap :=
  heap_of
    [ mkInstruction 113 "JUMP_ABSOLUTE" (Some 2) (PyInt 2) (Some 0) None false
        None None;
      mkInstruction 144 "EXTENDED_ARG" (Some 1) (PyInt 1) (Some 2) None false
        None None;
      mkInstruction 100 "LOAD_CONST" (Some 256) PyNone (Some 4) None false
        None None;
      mkInstruction 83 "RETURN_VALUE" None PyNone (Some 6) None false None
        None ].

(** A jump to the offset 8, which no instruction has. *)
Definition dangling_jump39 : heap :=
  heap_of
    [ mkInstruction 113 "JUMP_ABSOLUTE" (Some 8) (PyInt 8) (Some 0) None false
        None None;
      mkInstruction 83 "RETURN_VALUE" None PyNone (Some 2) None false None
        None ].

(** A jump whose target was taken out of the list. *)
Definition orphaned_jump39 : heap :=
  heap_of
    [ mkInstruction 113 "JUMP_ABSOLUTE" (Some 4) (PyInt 4) (Some 0) None false
        (Some 2%nat) None;
      mkInstruction 83 "RETURN_VALUE" None PyNone (Some 2) None false None
        None;
      mkInstruction 9 "NOP" None PyNone (Some 4) None false None None ].

(** Instructions of Python 3.9 whose operands are still to be resolved, and
    the tables of their code object. *)
Definition vars39 : heap :=
  heap_of
    [ instr 124 "LOAD_FAST" (Some 7) (PyStr "y");
      instr 116 "LOAD_GLOBAL" None (PyStr "g");
      instr 100 "LOAD_CONST" (Some 3) PyNone;
      instr 125 "STORE_FAST" None (PyStr "z") ].

Definition vars_code : Code :=
  code_with [] [PyNone] ["f"; "g"] ["x"; "y"] 1 [].

(** An instruction of Python 3.9 with an operand of two bytes. *)
Definition wide39 : heap :=
  heap_of
    [ instr 100 "LOAD_CONST" (Some 511) PyNone;
      instr 83 "RETURN_VALUE" None PyNone ].
(** An instruction whose opcode is not a byte. *)
Definition oversized39 : heap :=
  heap_of [ instr 300 "<300>" None PyNone ].

(** The code object of a method that calls [super()] and has no
    [__class__] cell. *)
Definition classless_code : Code :=
  mkCode 1 0 0 1 2 0 [] [PyNone] ["super"; "f"] ["self"] "f.py" "f" "C.f" 1 []
    [] [] [].

(** ** Properties stated by the specification *)

(** Invariant I1: the first offset is 0 and each instruction ends where the
    next one starts. *)
Definition contiguous (ver : version) (dis : Dis) (h : heap) (l : list ref)
    : Prop :=
  (forall r, nth_error l 0 = Some r -> offset (deref h r) = Some 0) /\
  (forall i r r', nth_error l i = Some r -> nth_error l (S i) = Some r' ->
     exists o, offset (deref h r) = Some o /\
               offset (deref h r') =
                 Some (o + instruction_size ver dis (deref h r))).

(** The same layout, read along the list from a starting offset. *)
Fixpoint laid_out_from (ver : version) (dis : Dis) (h : heap) (off : Z)
    (l : list ref) : Prop :=
  match l with
  | [] => True
  | r :: l' =>
      offset (deref h r) = Some off /\
      laid_out_from ver dis h (off + instruction_size ver dis (deref h r)) l'
  end.

(** *** The shape of a [fix_extended_args] pass *)

(** The number of prefixes that the branch taken for an operand builds. *)
Definition prefixes_needed (a : option Z) : nat :=
  if arg_gt a 0xFFFFFF then 3
  else if arg_gt a 0xFFFF then 2
  else if arg_gt a 0xFF then 1
  else 0.

Definition chunk_shifts (n : nat) : list Z :=
  match n with
  | 3%nat => [24; 16; 8]
  | 2%nat => [16; 8]
  | 1%nat => [8]
  | _ => []
  end.

(** The list is empty or its last element is not an EXTENDED_ARG. *)
Definition ends_plain (dis : Dis) (h : heap) (l : list ref) : Prop :=
  match unsnoc l with
  | None => True
  | Some (_, r) => is_extended_arg dis (deref h r) = false
  end.

(** [c] is an EXTENDED_ARG that carries [a >> s]. *)
Definition is_chunk (dis : Dis) (h : heap) (a : Z) (c : ref) (s : Z) : Prop :=
  is_extended_arg dis (deref h c) = true /\
  arg (deref h c) = Some (Z.shiftr a s).

(** [expands dis h n0 l out]: [out] is [l] in which every instruction that
    needs prefixes has got a chain of new ones (objects at references from
    [n0] on), put in the place of as many of the EXTENDED_ARG right before
    it as there were, up to the length of the chain; everything else of [l]
    is kept. *)
Inductive expands (dis : Dis) (h : heap) (n0 : ref)
    : list ref -> list ref -> Prop :=
| expands_nil : expands dis h n0 [] []
| expands_ext l out r :
    expands dis h n0 l out ->
    (r < n0)%nat ->
    is_extended_arg dis (deref h r) = true ->
    expands dis h n0 (l ++ [r]) (out ++ [r])
| expands_plain l out r :
    expands dis h n0 l out ->
    (r < n0)%nat ->
    is_extended_arg dis (deref h r) = false ->
    prefixes_needed (arg (deref h r)) = 0%nat ->
    expands dis h n0 (l ++ [r]) (out ++ [r])
| expands_chain l out popped chain r :
    expands dis h n0 l out ->
    (r < n0)%nat ->
    is_extended_arg dis (deref h r) = false ->
    List.length chain = prefixes_needed (arg (deref h r)) ->
    (1 <= List.length chain)%nat ->
    Forall (fun c => (c < n0)%nat /\ is_extended_arg dis (deref h c) = true)
      popped ->
    (List.length popped <= List.length chain)%nat ->
    ((List.length popped < List.length chain)%nat -> ends_plain dis h l) ->
    Forall (fun c => (n0 <= c < next_ref h)%nat) chain ->
    Forall2 (is_chunk dis h (arg_or_0 (arg (deref h r)))) chain
      (chunk_shifts (List.length chain)) ->
    expands dis h n0 (l ++ popped ++ [r]) (out ++ chain ++ [r]).

(** What a pass leaves of the store: objects are added, and the only objects
    written are EXTENDED_ARG instructions that existed before [n0], whose
    [arg] becomes 0. *)
Definition frame (dis : Dis) (n0 : ref) (h h' : heap) : Prop :=
  (next_ref h <= next_ref h')%nat /\
  forall r, (r < next_ref h)%nat ->
    deref h' r = deref h r \/
    ((r < n0)%nat /\ is_extended_arg dis (deref h r) = true /\
     deref h' r = set_arg (deref h r) (Some 0)).

(** The EXTENDED_ARG pattern of a list, and the room left for prefixes: 3
    minus the number of EXTENDED_ARG right before each other instruction,
    summed.  The normalizer's loop is measured by it. *)
Definition shape (dis : Dis) (h : heap) (l : list ref) : list bool :=
  map (fun r => is_extended_arg dis (deref h r)) l.

Definition pot_step (st : nat * nat) (b : bool) : nat * nat :=
  if b then (S (fst st), snd st) else (O, (snd st + (3 - fst st))%nat).

Definition trailing (s : list bool) : nat := fst (fold_left pot_step s (O, O)).
Definition potential (s : list bool) : nat := snd (fold_left pot_step s (O, O)).

(** *** Operands split over prefixes *)

(** [int.bit_length] of a non-negative integer. *)
Definition bit_length (a : Z) : Z := if a <=? 0 then 0 else Z.log2 a + 1.

(** [ceil(bit_length(a) / 8) - 1], and 0 when that is negative. *)
Definition prefix_count (a : Z) : nat :=
  Z.to_nat ((bit_length a + 7) / 8 - 1).

(** The operand that the interpreter reads from an instruction and the
    prefixes before it: each byte is the low byte of an [arg], and the value
    read so far is shifted left by 8 before the next byte is or-ed in. *)
Definition operand_step (acc v : Z) : Z :=
  Z.lor (Z.shiftl acc 8) (Z.land v 0xFF).

Definition effective_arg (h : heap) (prefixes : list ref) (r : ref) : Z :=
  fold_left operand_step
    (map (fun c => arg_or_0 (arg (deref h c))) (prefixes ++ [r])) 0.

(** Every instruction other than EXTENDED_ARG has an operand in
    [0, 2^32). *)
Definition args_bounded (dis : Dis) (h : heap) (l : list ref) : Prop :=
  Forall (fun r => is_extended_arg dis (deref h r) = false ->
                   exists a, arg (deref h r) = Some a /\ 0 <= a < 2 ^ 32) l.

Definition no_extended_arg (dis : Dis) (h : heap) (l : list ref) : Prop :=
  Forall (fun r => is_extended_arg dis (deref h r) = false) l.

(** Claim C3 as it is stated: every instruction of [out] whose operand
    exceeds one byte has exactly [prefix_count] EXTENDED_ARG right before
    it, carrying the operand most significant chunk first. *)
Definition exactly_prefixed (dis : Dis) (h : heap) (out : list ref) : Prop :=
  forall pre r post a,
    out = pre ++ r :: post ->
    is_extended_arg dis (deref h r) = false ->
    arg (deref h r) = Some a -> 0xFF < a ->
    exists pre0 chain,
      pre = pre0 ++ chain /\
      ends_plain dis h pre0 /\
      List.length chain = prefix_count a /\
      Forall2 (is_chunk dis h a) chain (chunk_shifts (List.length chain)) /\
      effective_arg h chain r = a.

(** Two consequences of [expands], in the form the proofs use.  The
    EXTENDED_ARG at the end of the input are still at the end of the
    output: *)
Definition tail_exts (dis : Dis) (h : heap) (n0 : ref) (l out : list ref)
    : Prop :=
  exists p0 o0 exts,
    l = p0 ++ exts /\ out = o0 ++ exts /\
    ends_plain dis h p0 /\ ends_plain dis h o0 /\
    Forall (fun c => (c < n0)%nat /\ is_extended_arg dis (deref h c) = true) exts.

(** and every other instruction of the output comes right after the
    EXTENDED_ARG kept from the input and its own chain: *)
Definition well_prefixed (dis : Dis) (h : heap) (n0 : ref) (l out : list ref)
    : Prop :=
  forall pre r post,
    out = pre ++ r :: post ->
    is_extended_arg dis (deref h r) = false ->
    In r l /\
    exists pre0 kept chain,
      pre = pre0 ++ kept ++ chain /\
      ends_plain dis h pre0 /\
      Forall (fun c => In c l /\ (c < n0)%nat /\
                       is_extended_arg dis (deref h c) = true) kept /\
      List.length chain = prefixes_needed (arg (deref h r)) /\
      Forall2 (is_chunk dis h (arg_or_0 (arg (deref h r)))) chain
        (chunk_shifts (List.length chain)).

(** *** Jumps *)

(** Two states of an object that differ at most in [arg], [argval] and
    [argrepr], the fields [devirtualize_jumps] assigns. *)
Definition same_layout (i j : Instruction) : Prop :=
  opcode i = opcode j /\ opname i = opname j /\ offset i = offset j /\
  starts_line i = starts_line j /\ is_jump_target i = is_jump_target j /\
  target i = target j.

(** Every jump of the list refers to an instruction of the list. *)
Definition targets_present (dis : Dis) (h : heap) (l : list ref) : Prop :=
  forall r, In r l -> is_jump dis (deref h r) = true ->
    exists t, target (deref h r) = Some t /\ In t l.

(** Every instruction of the list has an offset. *)
Definition offsets_set (h : heap) (l : list ref) : Prop :=
  forall r, In r l -> exists o, offset (deref h r) = Some o.

(** Every jump of the list refers to an instruction of the list that is
    not an EXTENDED_ARG. *)
Definition targets_plain (dis : Dis) (h : heap) (l : list ref) : Prop :=
  forall r, In r l -> is_jump dis (deref h r) = true ->
    exists t, target (deref h r) = Some t /\ In t l /\
              is_extended_arg dis (deref h t) = false.

(** EXTENDED_ARG is not a jump. *)
Definition extended_arg_no_jump (dis : Dis) : Prop :=
  Z_in (dis_EXTENDED_ARG dis) (dis_hasjabs dis) = false /\
  Z_in (dis_EXTENDED_ARG dis) (dis_hasjrel dis) = false.

(** *** Names *)

(** A LOAD_GLOBAL instruction: the name and the opcode that [dis.opmap]
    gives it. *)
Definition is_load_global (dis : Dis) (i : Instruction) : Prop :=
  opname i = "LOAD_GLOBAL" /\ dis_opmap dis "LOAD_GLOBAL" = Some (opcode i).

(** LOAD_GLOBAL is in [dis.hasname] and not in [dis.haslocal]. *)
Definition load_global_is_name (dis : Dis) : Prop :=
  forall op, dis_opmap dis "LOAD_GLOBAL" = Some op ->
    Z_in op (dis_hasname dis) = true /\ Z_in op (dis_haslocal dis) = false.

(** [idx] is the position of the last [s] in [names], which is the index the
    dictionary built from [names] holds for [s]. *)
Definition last_index (names : list string) (s : string) (idx : nat) : Prop :=
  nth_error names idx = Some s /\
  forall j, (idx < j)%nat -> nth_error names j <> Some s.

(** Every instruction [fix_vars] resolves has its name in the table, and
    every LOAD_GLOBAL has an operand. *)
Definition vars_resolvable (ver : version) (dis : Dis) (code_options : Code)
    (h : heap) (l : list ref) : Prop :=
  forall r, In r l ->
    (version_ge ver (3, 11) = true -> opname (deref h r) = "LOAD_GLOBAL" ->
     arg (deref h r) <> None) /\
    (Z_in (opcode (deref h r)) (dis_haslocal dis) = true ->
     exists s, argval (deref h r) = PyStr s /\ In s (co_varnames code_options)) /\
    (Z_in (opcode (deref h r)) (dis_haslocal dis) = false ->
     Z_in (opcode (deref h r)) (dis_hasname dis) = true ->
     exists s, argval (deref h r) = PyStr s /\ In s (co_names code_options)).

(** What the loop of [fix_vars] keeps of the store [h] it started from:
    only [arg] changes, an operand that was there is still there, and the
    low bit of a LOAD_GLOBAL's operand stays. *)
Definition fix_vars_inv (dis : Dis) (h hc : heap) : Prop :=
  forall x,
    opcode (deref hc x) = opcode (deref h x) /\
    opname (deref hc x) = opname (deref h x) /\
    argval (deref hc x) = argval (deref h x) /\
    (arg (deref h x) <> None -> arg (deref hc x) <> None) /\
    (is_load_global dis (deref h x) ->
     forall a, arg (deref h x) = Some a ->
     exists a', arg (deref hc x) = Some a' /\ a' mod 2 = a mod 2).

(** *** Line tables *)

(** A line table is a sequence of entries (byte delta, line delta), each
    written as two bytes, the line delta in two's complement. *)
Definition encode_entries (es : list (Z * Z)) : list Z :=
  flat_map (fun e => [fst e; Z.land (snd e) 0xFF]) es.

Definition signed_byte (b : Z) : Z := if 0x80 <=? b then b - 0x100 else b.

Fixpoint decode_entries (table : list Z) : list (Z * Z) :=
  match table with
  | b :: l :: table' => (b, signed_byte l) :: decode_entries table'
  | _ => []
  end.

Definition sum_bytes (es : list (Z * Z)) : Z := fold_right Z.add 0 (map fst es).
Definition sum_lines (es : list (Z * Z)) : Z := fold_right Z.add 0 (map snd es).

(** The ranges of one entry, and the rule that an entry is not (0, 0). *)
Definition legacy_entry (e : Z * Z) : Prop :=
  0 <= fst e <= 255 /\ -128 <= snd e <= 127 /\ (fst e <> 0 \/ snd e <> 0).

Definition modern_entry (e : Z * Z) : Prop :=
  0 <= fst e <= 254 /\ -127 <= snd e <= 127 /\ (fst e <> 0 \/ snd e <> 0).

(** Claim C6 as it is stated: [end] adds at least one entry to the table
    that [assemble] has built for the list. *)
Definition emits_terminating_entry (ver : version) (dis : Dis) (h : heap)
    (l : list ref) (firstlineno : Z) : Prop :=
  exists code st st' e es,
    assemble_loop ver dis h l []
      (Linetable (mkLinetable [] firstlineno 0 0)) = Ok (code, Linetable st) /\
    linetable_end st (Z.of_nat (List.length code)) = Ok st' /\
    linetable st' = linetable st ++ encode_entries (e :: es).

(** *** Canonicalization *)

(** The two tests of [explicit_super]. *)
Definition is_super_load (i : Instruction) : bool :=
  String.eqb (opname i) "LOAD_GLOBAL" && pyval_eqb (argval i) (PyStr "super").

Definition is_call0 (i : Instruction) : bool :=
  str_in (opname i) ["CALL_FUNCTION"; "PRECALL"] && opt_Z_eqb (arg i) 0.

(** No load of [super] in the list is followed by a call without
    arguments, and none is last: [explicit_super] finds nothing to do. *)
Fixpoint settled (h : heap) (l : list ref) : Prop :=
  match l with
  | [] => True
  | r :: l' =>
      (is_super_load (deref h r) = true ->
       exists n after, l' = n :: after /\ is_call0 (deref h n) = false) /\
      settled h l'
  end.

(** How [explicit_super] changes the store: objects are added; of an
    object that was there the name stays, and [arg] and [argval] stay or
    become 2. *)
Definition evolves (h h' : heap) : Prop :=
  (next_ref h <= next_ref h')%nat /\
  forall x, (x < next_ref h)%nat ->
    opname (deref h' x) = opname (deref h x) /\
    (argval (deref h' x) = argval (deref h x) \/
     argval (deref h' x) = PyInt 2) /\
    (arg (deref h' x) = arg (deref h x) \/ arg (deref h' x) = Some 2).

(** An object that [explicit_super] has added. *)
Definition added_load (h h' : heap) (x : ref) : Prop :=
  (next_ref h <= x < next_ref h')%nat /\
  (opname (deref h' x) = "LOAD_DEREF" \/ opname (deref h' x) = "LOAD_FAST").

(** Both passes, whatever the version. *)
Definition both_passes (ver : version) (dis : Dis) (code : Code) (h : heap)
    (l : list ref) : result (heap * list ref) :=
  h2 <- remove_load_call_method dis h l ;;
  explicit_super ver dis code h2 l.

(** *** The round trip *)

Definition empty_heap : heap := mkHeap (fun _ => blank) 0.

(** The decoder's self-check passes on the code object. *)
Definition decoder_accepts (ver : version) (dis : Dis)
    (get_instructions : Code -> result (list Instruction)) (h : heap)
    (code : Code) : Prop :=
  exists decoded,
    get_instructions code = Ok decoded /\
    check_offsets ver dis (fst (convert_instructions h decoded))
      (snd (convert_instructions h decoded)) = Ok tt.

(** [transform_code_object(code, noop, safe=True)] returns a code object
    with the instruction bytes and the line table of [code]. *)
Definition round_trip (ver : version) (dis : Dis)
    (stacksize_analysis : heap -> list ref -> Z)
    (get_instructions : Code -> result (list Instruction)) (h : heap)
    (code : Code) : Prop :=
  exists fuel dode,
    transform_code_object ver dis stacksize_analysis get_instructions fuel h
      code noop true = Some (Ok dode) /\
    co_code dode = co_code code /\ co_lnotab dode = co_lnotab code.

(** The operand [devirtualize_jumps] gives a jump at offset [ioff] whose
    target is at offset [toff]. *)
Definition jump_arg (ver : version) (dis : Dis) (i : Instruction)
    (toff ioff : Z) : Z :=
  let unit := fun x => if version_lt ver (3, 10) then x else int_div2 x in
  let d := toff - ioff - instruction_size ver dis i in
  if Z_in (opcode i) (dis_hasjabs dis) then unit toff
  else if version_ge ver (3, 11) && str_contains "BACKWARD" (opname i)
       then - unit d else unit d.

(** The operand [fix_vars] gives an instruction. *)
Definition resolved_arg (ver : version) (dis : Dis) (code_options : Code)
    (i : Instruction) : result (option Z) :=
  '(shift, push_null) <-
    (if version_ge ver (3, 11) && String.eqb (opname i) "LOAD_GLOBAL"
     then match arg i with
          | Some a => Ok (1, a mod 2)
          | None => Raise AssertionError
          end
     else Ok (0, 0)) ;;
  a1 <- (if Z_in (opcode i) (dis_haslocal dis) then
           idx <- table_lookup (name_table (co_varnames code_options))
                    (argval i) ;;
           Ok (Some idx)
         else if Z_in (opcode i) (dis_hasname dis) then
           idx <- table_lookup (name_table (co_names code_options))
                    (argval i) ;;
           Ok (Some idx)
         else Ok (arg i)) ;;
  Ok (option_map (fun a => Z.shiftl a shift + push_null) a1).

(** A decoded instruction that the passes between decoding and assembling
    leave as it is: it is not an EXTENDED_ARG and needs none; if it is a
    jump, its [argval] is the offset of a decoded instruction and its
    operand is the one [devirtualize_jumps] computes for that offset; and
    [fix_vars] resolves its operand to the value it has. *)
Definition canonical_instruction (ver : version) (dis : Dis)
    (code : Code) (decoded : list Instruction) (i : Instruction) : bool :=
  negb (is_extended_arg dis i) &&
  Nat.eqb (prefixes_needed (arg i)) 0 &&
  (if is_jump dis i then
     match argval i, offset i with
     | PyInt av, Some ioff =>
         existsb (fun j => opt_Z_eqb (offset j) av) decoded &&
         opt_eqb (arg i) (Some (jump_arg ver dis i av ioff))
     | _, _ => false
     end
   else true) &&
  match resolved_arg ver dis code i with
  | Ok a => opt_eqb a (arg i)
  | Raise _ => false
  end.

(** Two states of an object that [assemble] cannot tell apart, and two
    that differ at most in [starts_line], [is_jump_target], [target] and
    [argrepr]. *)
Definition same_assembly (i j : Instruction) : Prop :=
  opcode i = opcode j /\ arg i = arg j /\ starts_line i = starts_line j.

Definition same_code (i j : Instruction) : Prop :=
  opcode i = opcode j /\ opname i = opname j /\ arg i = arg j /\
  argval i = argval j /\ offset i = offset j.

(** *** Properties of the other functions *)

(** Successive calls of [unique_id], one for each name of [names]. *)
Fixpoint unique_ids (counter : nat) (names : list string) : list string :=
  match names with
  | [] => []
  | name :: names' =>
      fst (unique_id counter name) ::
      unique_ids (snd (unique_id counter name)) names'
  end.

(** The instructions of a list, by name and operand. *)
Definition listing (h : heap) (l : list ref) : list (string * option Z) :=
  map (fun r => (opname (deref h r), arg (deref h r))) l.

(** Whether a string holds an underscore. *)
Definition underscore : ascii := "_"%char.

Fixpoint has_underscore (s : string) : bool :=
  match s with
  | EmptyString => false
  | String c s' => Ascii.eqb c underscore || has_underscore s'
  end.

(** The instruction that the dictionary of [virtualize_jumps] holds for an
    offset: the last one of the list with this offset. *)
Definition at_offset (h : heap) (l : list ref) (o : Z) : option nat :=
  dict_last opt_eqb (map (fun r => (offset (deref h r), r)) l) (Some o).

(** The instructions at the offsets [av], [av + 2], ... are EXTENDED_ARG,
    [k] of them. *)
Definition prefixes_at (dis : Dis) (h : heap) (l : list ref) (av : Z)
    (k : nat) : Prop :=
  forall j, (j < k)%nat ->
    exists t, at_offset h l (av + 2 * Z.of_nat j) = Some t /\
              is_extended_arg dis (deref h t) = true.

(** The test of [fix_vars] for the operand that carries a flag bit. *)
Definition flagged (ver : version) (i : Instruction) : bool :=
  version_ge ver (3, 11) && String.eqb (opname i) "LOAD_GLOBAL".

(** An instruction that refers to a local or a name that the tables of the
    code object do not hold. *)
Definition unknown_name (dis : Dis) (code_options : Code) (i : Instruction)
    : Prop :=
  (Z_in (opcode i) (dis_haslocal dis) = true /\
   forall s, argval i = PyStr s -> ~ In s (co_varnames code_options)) \/
  (Z_in (opcode i) (dis_haslocal dis) = false /\
   Z_in (opcode i) (dis_hasname dis) = true /\
   forall s, argval i = PyStr s -> ~ In s (co_names code_options)).

(** What [remove_load_call_method] makes of an instruction, [op1] and
    [op2] being the opcodes of LOAD_ATTR and CALL_FUNCTION. *)
Definition renamed (op1 op2 : Z) (i : Instruction) : Instruction :=
  if String.eqb (opname i) "LOAD_METHOD"
  then set_opcode (set_opname i "LOAD_ATTR") op1
  else if String.eqb (opname i) "CALL_METHOD"
       then set_opcode (set_opname i "CALL_FUNCTION") op2
       else i.

(** * Proofs *)

(** ** The store *)

Lemma deref_store_eq h r i : deref (store h r i) r = i.
Proof. unfold deref, store; simpl. now rewrite Nat.eqb_refl. Qed.

Lemma deref_store_ne h r r' i : r' <> r -> deref (store h r i) r' = deref h r'.
Proof.
  intros Hne. unfold deref, store; simpl.
  destruct (Nat.eqb_spec r' r); [contradiction | reflexivity].
Qed.

Lemma next_ref_store h r i : next_ref (store h r i) = next_ref h.
Proof. reflexivity. Qed.

Lemma bind_ok {A B} (m : result A) (f : A -> result B) b :
  bind m f = Ok b <-> exists a, m = Ok a /\ f a = Ok b.
Proof.
  destruct m; simpl; split.
  - eauto.
  - intros (a' & [= ->] & H). exact H.
  - discriminate.
  - intros (a' & H & _). discriminate.
Qed.

Section Offsets.

Variable ver : version.
Variable dis : Dis.

Lemma instruction_size_set_offset i o :
  instruction_size ver dis (set_offset i o) = instruction_size ver dis i.
Proof. reflexivity. Qed.

Lemma contiguous_laid_out h l :
  contiguous ver dis h l <-> laid_out_from ver dis h 0 l.
Proof.
  unfold contiguous.
  assert (G : forall l off,
    laid_out_from ver dis h off l <->
    (forall r, nth_error l 0 = Some r -> offset (deref h r) = Some off) /\
    (forall i r r', nth_error l i = Some r -> nth_error l (S i) = Some r' ->
       exists o, offset (deref h r) = Some o /\
                 offset (deref h r') =
                   Some (o + instruction_size ver dis (deref h r)))).
  { clear l. induction l as [|a l IH]; intros off; simpl.
    - split; [intros _|trivial]. split.
      + discriminate.
      + intros [|i] r r'; discriminate.
    - rewrite IH. split.
      + intros (Ha & Hh & Ht). split.
        * now intros r [= <-].
        * intros [|i] r r'; simpl.
          -- intros [= <-] Hr'. exists off. split; [exact Ha|]. now apply Hh.
          -- apply Ht.
      + intros (Hh & Ht). assert (Ha : offset (deref h a) = Some off) by now apply Hh.
        split; [exact Ha|]. split.
        * intros r Hr. destruct (Ht 0%nat a r eq_refl Hr) as (o & Ho & Hr').
          rewrite Ha in Ho. injection Ho as <-. exact Hr'.
        * intros i r r' Hr Hr'. exact (Ht (S i) r r' Hr Hr'). }
  symmetry. apply G.
Qed.

Lemma check_offsets_from_laid_out h l off :
  check_offsets_from ver dis off h l = Ok tt <-> laid_out_from ver dis h off l.
Proof.
  revert off. induction l as [|r l IH]; intros off; simpl.
  - tauto.
  - unfold opt_Z_eqb. destruct (offset (deref h r)) as [o|]; simpl.
    + destruct (Z.eqb_spec o off) as [->|Hne]; simpl.
      * rewrite IH. tauto.
      * split; [discriminate|]. intros [[= E] _]. contradiction.
    + split; [discriminate|]. intros [E _]. discriminate.
Qed.

Lemma check_offsets_from_raises h l off :
  check_offsets_from ver dis off h l = Ok tt \/
  check_offsets_from ver dis off h l = Raise AssertionError.
Proof.
  revert off. induction l as [|r l IH]; intros off; simpl; [now left|].
  destruct (opt_Z_eqb (offset (deref h r)) off); simpl; [apply IH | now right].
Qed.

Lemma update_offsets_from_frame l : forall h off r,
  ~ In r l -> deref (update_offsets_from ver dis off h l) r = deref h r.
Proof.
  induction l as [|a l IH]; intros h off r Hnin; simpl; [reflexivity|].
  rewrite IH by (intros Hin; apply Hnin; now right).
  apply deref_store_ne. intros ->. apply Hnin. now left.
Qed.

Lemma update_offsets_from_opcode l : forall h off r,
  opcode (deref (update_offsets_from ver dis off h l) r) = opcode (deref h r).
Proof.
  induction l as [|a l IH]; intros h off r; simpl; [reflexivity|].
  rewrite IH. destruct (Nat.eq_dec r a) as [->|Hne].
  - now rewrite deref_store_eq.
  - now rewrite deref_store_ne.
Qed.

Lemma instruction_size_opcode i j :
  opcode i = opcode j -> instruction_size ver dis i = instruction_size ver dis j.
Proof. unfold instruction_size. now intros ->. Qed.

Lemma laid_out_from_ext h h' l : forall off,
  (forall r, In r l -> deref h' r = deref h r) ->
  laid_out_from ver dis h off l -> laid_out_from ver dis h' off l.
Proof.
  induction l as [|a l IH]; intros off Heq; simpl; [trivial|].
  intros [Ha Hl]. rewrite (Heq a) by now left. split; [exact Ha|].
  apply IH; [|exact Hl]. intros r Hr. apply Heq. now right.
Qed.

Lemma update_offsets_from_laid_out l : forall h off,
  NoDup l -> laid_out_from ver dis (update_offsets_from ver dis off h l) off l.
Proof.
  induction l as [|a l IH]; intros h off Hnd; simpl; [trivial|].
  inversion Hnd as [|? ? Hnin Hnd']; subst.
  rewrite update_offsets_from_frame by exact Hnin.
  rewrite !deref_store_eq. split; [reflexivity|].
  now apply IH.
Qed.

End Offsets.




(** ** [fix_extended_args] *)

Lemma unsnoc_snoc {A} (l : list A) (x : A) : unsnoc (l ++ [x]) = Some (l, x).
Proof.
  induction l as [|a l IH]; simpl; [reflexivity|]. now rewrite IH.
Qed.

Lemma unsnoc_None {A} (l : list A) : unsnoc l = None -> l = [].
Proof.
  destruct l as [|a l]; [reflexivity|]. simpl.
  destruct (unsnoc l) as [[? ?]|]; discriminate.
Qed.

Lemma unsnoc_Some {A} (l init : list A) (x : A) :
  unsnoc l = Some (init, x) -> l = init ++ [x].
Proof.
  revert init. induction l as [|a l IH]; intros init; simpl; [discriminate|].
  destruct (unsnoc l) as [[i y]|] eqn:E.
  - intros [= <- <-]. simpl. f_equal. now apply IH.
  - intros [= <- <-]. apply unsnoc_None in E. now subst.
Qed.

Lemma snoc_cases {A} (l : list A) : l = [] \/ exists l' x, l = l' ++ [x].
Proof.
  destruct (unsnoc l) as [[init x]|] eqn:E.
  - right. exists init, x. now apply unsnoc_Some.
  - left. now apply unsnoc_None.
Qed.

Section FixExtendedArgs.

Variable dis : Dis.
Hypothesis Hext : dis_opmap dis "EXTENDED_ARG" = Some (dis_EXTENDED_ARG dis).

Lemma ends_plain_nil h : ends_plain dis h [].
Proof. exact I. Qed.

Lemma ends_plain_snoc h l r :
  ends_plain dis h (l ++ [r]) <-> is_extended_arg dis (deref h r) = false.
Proof. unfold ends_plain. now rewrite unsnoc_snoc. Qed.

Lemma maybe_pop_n_plain h n l :
  ends_plain dis h l -> maybe_pop_n dis h n l = l.
Proof.
  intros Hp. induction n as [|n IH]; simpl; [reflexivity|].
  unfold ends_plain in Hp. destruct (unsnoc l) as [[init r]|]; [|exact IH].
  now rewrite Hp.
Qed.

Lemma maybe_pop_n_exts h n : forall o0 exts,
  ends_plain dis h o0 ->
  Forall (fun c => is_extended_arg dis (deref h c) = true) exts ->
  maybe_pop_n dis h n (o0 ++ exts) =
  o0 ++ firstn (List.length exts - n) exts.
Proof.
  induction n as [|n IH]; intros o0 exts Hp Hx.
  - simpl. now rewrite Nat.sub_0_r, firstn_all.
  - destruct (snoc_cases exts) as [->|(e' & x & ->)].
    + simpl firstn. rewrite app_nil_r. now apply maybe_pop_n_plain.
    + apply Forall_app in Hx. destruct Hx as [Hx' Hx1].
      inversion Hx1 as [|? ? Hxx _]; subst.
      simpl maybe_pop_n. rewrite app_assoc, unsnoc_snoc, Hxx.
      rewrite IH by assumption. f_equal.
      rewrite length_app. simpl.
      replace (List.length e' + 1 - S n)%nat with (List.length e' - n)%nat by lia.
      rewrite firstn_app.
      replace (List.length e' - n - List.length e')%nat with 0%nat by lia.
      simpl. now rewrite app_nil_r.
Qed.

Lemma alloc_spec h i :
  next_ref (snd (alloc h i)) = S (next_ref h) /\
  fst (alloc h i) = next_ref h /\
  deref (snd (alloc h i)) (next_ref h) = i /\
  forall r, r <> next_ref h -> deref (snd (alloc h i)) r = deref h r.
Proof.
  unfold alloc, deref; simpl. rewrite Nat.eqb_refl. repeat split.
  intros r Hne. destruct (Nat.eqb_spec r (next_ref h)); [contradiction|reflexivity].
Qed.

Lemma prefixes_needed_le a : (prefixes_needed a <= 3)%nat.
Proof.
  unfold prefixes_needed.
  destruct (arg_gt a 16777215); [lia|].
  destruct (arg_gt a 65535); [lia|].
  destruct (arg_gt a 255); lia.
Qed.

Lemma chunk_shifts_length n : (n <= 3)%nat -> List.length (chunk_shifts n) = n.
Proof.
  intros Hn. destruct n as [|[|[|[|n]]]]; simpl; try reflexivity. lia.
Qed.

Lemma append_extended_spec shifts : forall h out a,
  exists h',
    append_extended dis h out a shifts =
      Ok (h', out ++ seq (next_ref h) (List.length shifts)) /\
    next_ref h' = (next_ref h + List.length shifts)%nat /\
    (forall r, (r < next_ref h)%nat -> deref h' r = deref h r) /\
    Forall2 (is_chunk dis h' a) (seq (next_ref h) (List.length shifts)) shifts.
Proof.
  induction shifts as [|s shifts IH]; intros h out a.
  - exists h. simpl. rewrite app_nil_r. repeat split; [lia|constructor].
  - simpl append_extended. unfold create_instruction. rewrite Hext.
    set (i := mkInstruction _ _ _ _ _ _ _ _ _).
    destruct (alloc_spec h i) as (Hn & Hr & Hd & Hf).
    destruct (alloc h i) as [r h1] eqn:E. simpl in Hn, Hr, Hd, Hf. subst r.
    simpl bind.
    destruct (IH h1 (out ++ [next_ref h]) a) as (h' & Hrun & Hn' & Hf' & Hc).
    exists h'. rewrite Hrun, Hn in *. split; [|split; [|split]].
    + simpl. now rewrite <- app_assoc.
    + simpl. lia.
    + intros r Hlt. rewrite Hf' by lia. apply Hf. lia.
    + simpl. constructor; [|exact Hc].
      unfold is_chunk. rewrite Hf' by lia. rewrite Hd. subst i.
      unfold is_extended_arg; simpl. split; [apply Z.eqb_refl|reflexivity].
Qed.

Lemma fix_branch_eq h output a :
  (if arg_gt a 0xFFFFFF then
     append_extended dis h (maybe_pop_n dis h 3 output) (arg_or_0 a) [24; 16; 8]
   else if arg_gt a 0xFFFF then
     append_extended dis h (maybe_pop_n dis h 2 output) (arg_or_0 a) [16; 8]
   else if arg_gt a 0xFF then
     append_extended dis h (maybe_pop_n dis h 1 output) (arg_or_0 a) [8]
   else Ok (h, output)) =
  append_extended dis h (maybe_pop_n dis h (prefixes_needed a) output)
    (arg_or_0 a) (chunk_shifts (prefixes_needed a)).
Proof.
  unfold prefixes_needed.
  destruct (arg_gt a 16777215); [reflexivity|].
  destruct (arg_gt a 65535); [reflexivity|].
  destruct (arg_gt a 255); reflexivity.
Qed.

(** *** The frame of a pass *)

Lemma frame_refl n0 h : frame dis n0 h h.
Proof. split; [lia|]. intros r _. now left. Qed.

Lemma set_arg_set_arg i a b : set_arg (set_arg i a) b = set_arg i b.
Proof. reflexivity. Qed.

Lemma frame_trans n0 h1 h2 h3 :
  frame dis n0 h1 h2 -> frame dis n0 h2 h3 -> frame dis n0 h1 h3.
Proof.
  intros [Hn12 H12] [Hn23 H23]. split; [lia|].
  intros r Hr. destruct (H12 r Hr) as [E|(Hlt & Hx & E)];
    destruct (H23 r ltac:(lia)) as [E'|(Hlt' & Hx' & E')].
  - left. congruence.
  - right. rewrite E in *. auto.
  - right. rewrite E', E. auto.
  - right. rewrite E', E. auto.
Qed.

Lemma frame_opcode n0 h h' r :
  frame dis n0 h h' -> (r < next_ref h)%nat ->
  opcode (deref h' r) = opcode (deref h r).
Proof.
  intros [_ H] Hr. destruct (H r Hr) as [->|(_ & _ & ->)]; reflexivity.
Qed.

Lemma frame_is_ext n0 h h' r :
  frame dis n0 h h' -> (r < next_ref h)%nat ->
  is_extended_arg dis (deref h' r) = is_extended_arg dis (deref h r).
Proof.
  intros F Hr. unfold is_extended_arg. now rewrite (frame_opcode _ _ _ _ F Hr).
Qed.

Lemma frame_plain n0 h h' r :
  frame dis n0 h h' -> (r < next_ref h)%nat ->
  is_extended_arg dis (deref h r) = false -> deref h' r = deref h r.
Proof.
  intros [_ H] Hr Hx. destruct (H r Hr) as [->|(_ & Hx' & _)]; [reflexivity|].
  congruence.
Qed.

Lemma frame_new n0 h h' r :
  frame dis n0 h h' -> (n0 <= r < next_ref h)%nat -> deref h' r = deref h r.
Proof.
  intros [_ H] Hr. destruct (H r ltac:(lia)) as [->|(Hlt & _)]; [reflexivity|lia].
Qed.

Lemma frame_store_ext n0 h r :
  (r < n0)%nat -> is_extended_arg dis (deref h r) = true ->
  frame dis n0 h (store h r (set_arg (deref h r) (Some 0))).
Proof.
  intros Hr Hx. split; [rewrite next_ref_store; lia|].
  intros r' _. destruct (Nat.eq_dec r' r) as [->|Hne].
  - right. now rewrite deref_store_eq.
  - left. now apply deref_store_ne.
Qed.

Lemma ends_plain_frame n0 h h' l :
  frame dis n0 h h' -> Forall (fun r => (r < next_ref h)%nat) l ->
  ends_plain dis h l -> ends_plain dis h' l.
Proof.
  intros F Hb. destruct (snoc_cases l) as [->|(init & r & ->)]; [trivial|].
  rewrite !ends_plain_snoc. apply Forall_app in Hb. destruct Hb as [_ Hb].
  apply Forall_inv in Hb. intros Hp.
  rewrite (frame_is_ext n0 h h' r F Hb). exact Hp.
Qed.

Lemma expands_bounded h n0 l out :
  expands dis h n0 l out -> Forall (fun r => (r < n0)%nat) l.
Proof.
  induction 1 as [|l out r _ IH Hr _|l out r _ IH Hr _ _
                  |l out popped chain r _ IH Hr _ _ _ Hp _ _ _ _].
  - constructor.
  - apply Forall_app. split; [exact IH|]. now constructor.
  - apply Forall_app. split; [exact IH|]. now constructor.
  - apply Forall_app. split; [exact IH|]. apply Forall_app. split.
    + eapply Forall_impl; [|exact Hp]. now intros c [Hc _].
    + now constructor.
Qed.

Lemma expands_out_bounded h n0 l out :
  (n0 <= next_ref h)%nat ->
  expands dis h n0 l out -> Forall (fun r => (r < next_ref h)%nat) out.
Proof.
  intros Hn0.
  induction 1 as [|l out r _ IH Hr _|l out r _ IH Hr _ _
                  |l out popped chain r _ IH Hr _ _ _ _ _ _ Hc _].
  - constructor.
  - apply Forall_app. split; [exact IH|]. constructor; [lia|constructor].
  - apply Forall_app. split; [exact IH|]. constructor; [lia|constructor].
  - apply Forall_app. split; [exact IH|]. apply Forall_app. split.
    + eapply Forall_impl; [|exact Hc]. simpl. intros c Hcc. lia.
    + constructor; [lia|constructor].
Qed.

Lemma expands_frame h h' n0 l out :
  (n0 <= next_ref h)%nat -> frame dis n0 h h' ->
  expands dis h n0 l out -> expands dis h' n0 l out.
Proof.
  intros Hn0 F.
  induction 1 as [|l out r H IH Hr Hx|l out r H IH Hr Hx Hz
                  |l out popped chain r H IH Hr Hx Hlen H1 Hp Hle Hends Hc Hch].
  - constructor.
  - apply expands_ext; [exact IH|exact Hr|].
    rewrite (frame_is_ext _ _ _ _ F); [exact Hx|lia].
  - assert (E : deref h' r = deref h r) by (apply (frame_plain n0); [exact F|lia|exact Hx]).
    apply expands_plain; [exact IH|exact Hr| |]; now rewrite E.
  - assert (E : deref h' r = deref h r) by (apply (frame_plain n0); [exact F|lia|exact Hx]).
    apply expands_chain; try assumption; try now rewrite E.
    + eapply Forall_impl; [|exact Hp]. simpl. intros c [Hc1 Hc2]. split; [exact Hc1|].
      rewrite (frame_is_ext _ _ _ _ F); [exact Hc2|lia].
    + intros Hlt. apply (ends_plain_frame n0 h); [exact F| |now apply Hends].
      eapply Forall_impl; [|exact (expands_bounded _ _ _ _ H)]. simpl. intros; lia.
    + eapply Forall_impl; [|exact Hc]. simpl. destruct F. intros; lia.
    + rewrite E. clear - Hch Hc F.
      revert Hc. induction Hch as [|c s cs ss Hcs _ IHf]; intros Hc; constructor.
      * inversion Hc; subst. unfold is_chunk in *.
        now rewrite (frame_new n0 h h') by assumption.
      * apply IHf. now inversion Hc.
Qed.

Lemma expands_exts h n0 exts : forall l out,
  expands dis h n0 l out ->
  Forall (fun c => (c < n0)%nat /\ is_extended_arg dis (deref h c) = true) exts ->
  expands dis h n0 (l ++ exts) (out ++ exts).
Proof.
  induction exts as [|e exts IH]; intros l out H Hx.
  - now rewrite !app_nil_r.
  - inversion Hx as [|? ? [He1 He2] Hx']; subst.
    change (e :: exts) with ([e] ++ exts). rewrite !app_assoc.
    apply IH; [|exact Hx']. now apply expands_ext.
Qed.

Lemma fix_loop_cons h r l output :
  fix_extended_args_loop dis h (r :: l) output =
  bind (if is_extended_arg dis (deref h r)
        then Ok (store h r (set_arg (deref h r) (Some 0)), output)
        else append_extended dis h
               (maybe_pop_n dis h (prefixes_needed (arg (deref h r))) output)
               (arg_or_0 (arg (deref h r)))
               (chunk_shifts (prefixes_needed (arg (deref h r)))))
       (fun x => let '(h1, output1) := x in
                 fix_extended_args_loop dis h1 l (output1 ++ [r])).
Proof.
  rewrite <- fix_branch_eq. reflexivity.
Qed.

Lemma Forall_seq_range a n :
  Forall (fun c => (a <= c < a + n)%nat) (seq a n).
Proof.
  apply Forall_forall. intros c Hc. apply in_seq in Hc. lia.
Qed.

(** The loop of [fix_extended_args], started after the instructions
    [p0 ++ exts] have been handled: [p0] has been expanded into [o0], and
    [exts] are the EXTENDED_ARG instructions at the end of the output. *)
Lemma fix_loop_spec n0 l : forall h p0 exts o0,
  (n0 <= next_ref h)%nat ->
  Forall (fun r => (r < n0)%nat) l ->
  expands dis h n0 p0 o0 ->
  ends_plain dis h p0 -> ends_plain dis h o0 ->
  Forall (fun c => (c < n0)%nat /\ is_extended_arg dis (deref h c) = true) exts ->
  exists h' out,
    fix_extended_args_loop dis h l (o0 ++ exts) = Ok (h', out) /\
    expands dis h' n0 (p0 ++ exts ++ l) out /\
    frame dis n0 h h' /\
    (forall r, In r l -> is_extended_arg dis (deref h r) = true ->
               arg (deref h' r) = Some 0).
Proof.
  induction l as [|r l IH]; intros h p0 exts o0 Hn0 Hl Hexp Hp0 Ho0 Hx.
  - exists h, (o0 ++ exts). simpl. rewrite app_nil_r. repeat split.
    + now apply expands_exts.
    + lia.
    + intros r _. now left.
    + intros r [].
  - inversion Hl as [|? ? Hr Hl']; subst.
    rewrite fix_loop_cons.
    destruct (is_extended_arg dis (deref h r)) eqn:Hxr.
    + (* an EXTENDED_ARG: its arg is reset and it is kept *)
      simpl bind.
      set (h1 := store h r (set_arg (deref h r) (Some 0))).
      assert (F1 : frame dis n0 h h1) by now apply frame_store_ext.
      assert (Hb : forall ll, Forall (fun c => (c < n0)%nat) ll ->
                   Forall (fun c => (c < next_ref h)%nat) ll).
      { intros ll Hll. eapply Forall_impl; [|exact Hll]. simpl. intros; lia. }
      destruct (IH h1 p0 (exts ++ [r]) o0) as (h' & out & Hrun & Hexp' & F' & Hz).
      * unfold h1. rewrite next_ref_store. exact Hn0.
      * exact Hl'.
      * now apply (expands_frame h).
      * apply (ends_plain_frame n0 h); [exact F1| |exact Hp0].
        apply Hb. exact (expands_bounded _ _ _ _ Hexp).
      * apply (ends_plain_frame n0 h); [exact F1| |exact Ho0].
        exact (expands_out_bounded _ _ _ _ Hn0 Hexp).
      * apply Forall_app. split.
        -- eapply Forall_impl; [|exact Hx]. simpl. intros c [Hc1 Hc2].
           split; [exact Hc1|].
           rewrite (frame_is_ext n0 h h1 c F1); [exact Hc2|lia].
        -- constructor; [|constructor]. split; [exact Hr|].
           rewrite (frame_is_ext n0 h h1 r F1); [exact Hxr|lia].
      * exists h', out. rewrite <- app_assoc. split; [exact Hrun|].
        split; [now rewrite <- app_assoc in Hexp'|].
        split; [exact (frame_trans _ _ _ _ F1 F')|].
        intros r' [<-|Hin] Hx'.
        -- destruct F' as [_ F']. unfold h1 in F'.
           destruct (F' r ltac:(rewrite next_ref_store; lia)) as [E|(_ & _ & E)];
             rewrite E, ?deref_store_eq; reflexivity.
        -- apply Hz; [exact Hin|].
           rewrite (frame_is_ext n0 h h1 r' F1); [exact Hx'|].
           assert (Hr' : (r' < n0)%nat) by (rewrite Forall_forall in Hl'; now apply Hl').
           lia.
    + (* another instruction: prefixes are popped and a chain is built *)
      set (N := prefixes_needed (arg (deref h r))).
      assert (HN : (N <= 3)%nat) by apply prefixes_needed_le.
      rewrite maybe_pop_n_exts;
        [|exact Ho0|eapply Forall_impl; [|exact Hx]; now intros c [_ Hc]].
      set (k := List.length exts).
      set (kept := firstn (k - N) exts).
      set (popped := skipn (k - N) exts).
      assert (Hsplit : exts = kept ++ popped) by (symmetry; apply firstn_skipn).
      destruct (append_extended_spec (chunk_shifts N) h (o0 ++ kept)
                  (arg_or_0 (arg (deref h r))))
        as (h1 & Hrun1 & Hn1 & Hf1 & Hch).
      rewrite Hrun1. simpl bind.
      rewrite chunk_shifts_length in * by exact HN.
      set (chain := seq (next_ref h) N) in *.
      assert (F1 : frame dis n0 h h1).
      { split; [lia|]. intros r' Hr'. left. now apply Hf1. }
      assert (Er : deref h1 r = deref h r) by (apply Hf1; lia).
      assert (Hx1 : forall ll,
                Forall (fun c => (c < n0)%nat /\
                                 is_extended_arg dis (deref h c) = true) ll ->
                Forall (fun c => (c < n0)%nat /\
                                 is_extended_arg dis (deref h1 c) = true) ll).
      { intros ll Hll. eapply Forall_impl; [|exact Hll]. simpl.
        intros c [Hc1 Hc2]. split; [exact Hc1|]. rewrite Hf1; [exact Hc2|lia]. }
      assert (Hkept : Forall (fun c => (c < n0)%nat /\
                        is_extended_arg dis (deref h c) = true) kept).
      { rewrite Hsplit in Hx. now apply Forall_app in Hx. }
      assert (Hpopped : Forall (fun c => (c < n0)%nat /\
                          is_extended_arg dis (deref h c) = true) popped).
      { rewrite Hsplit in Hx. now apply Forall_app in Hx. }
      assert (Hp0' : ends_plain dis h1 p0).
      { apply (ends_plain_frame n0 h); [exact F1| |exact Hp0].
        eapply Forall_impl; [|exact (expands_bounded _ _ _ _ Hexp)].
        simpl; intros; lia. }
      assert (Hexp1 : expands dis h1 n0 (p0 ++ exts ++ [r])
                        (((o0 ++ kept) ++ chain) ++ [r])).
      { destruct N as [|N'] eqn:EN.
        - (* no prefix needed *)
          unfold chain, kept. simpl seq. rewrite app_nil_r.
          rewrite Nat.sub_0_r. unfold k. rewrite firstn_all.
          rewrite (app_assoc p0). apply expands_plain.
          + apply expands_exts; [now apply (expands_frame h)|now apply Hx1].
          + exact Hr.
          + now rewrite Er.
          + rewrite Er. exact EN.
        - rewrite Hsplit. rewrite <- !app_assoc.
          rewrite (app_assoc p0 kept). rewrite (app_assoc o0 kept).
          apply expands_chain.
          + apply expands_exts; [now apply (expands_frame h)|now apply Hx1].
          + exact Hr.
          + now rewrite Er.
          + rewrite Er. unfold chain. rewrite length_seq. fold N. now rewrite EN.
          + unfold chain. rewrite length_seq. lia.
          + now apply Hx1.
          + unfold chain, popped. rewrite length_seq, length_skipn. lia.
          + unfold chain, popped, kept. rewrite length_seq, length_skipn.
            intros Hlt. replace (k - S N')%nat with 0%nat by (unfold k; lia).
            simpl. now rewrite app_nil_r.
          + unfold chain. eapply Forall_impl; [|apply Forall_seq_range].
            simpl. intros c Hc. lia.
          + unfold chain. rewrite length_seq. rewrite Er. exact Hch. }
      destruct (IH h1 (p0 ++ exts ++ [r]) [] (((o0 ++ kept) ++ chain) ++ [r]))
        as (h' & out & Hrun & Hexp' & F' & Hz).
      * lia.
      * exact Hl'.
      * exact Hexp1.
      * rewrite (app_assoc p0). apply ends_plain_snoc. now rewrite Er.
      * apply ends_plain_snoc. now rewrite Er.
      * constructor.
      * rewrite app_nil_r in Hrun. exists h', out. split; [exact Hrun|].
        split.
        { simpl in Hexp'. now rewrite <- !app_assoc in Hexp'. }
        split; [exact (frame_trans _ _ _ _ F1 F')|].
        intros r' [<-|Hin] Hx'; [congruence|].
        apply Hz; [exact Hin|]. rewrite Hf1; [exact Hx'|].
        assert (Hr' : (r' < n0)%nat) by (rewrite Forall_forall in Hl'; now apply Hl').
        lia.
Qed.

Lemma expands_length h n0 l out :
  expands dis h n0 l out -> (List.length l <= List.length out)%nat.
Proof.
  induction 1; rewrite ?length_app; simpl; rewrite ?length_app; simpl; lia.
Qed.

(** A whole pass, on a list of allocated objects. *)
Lemma fix_extended_args_spec h l :
  allocated h l ->
  exists h' out,
    fix_extended_args dis h l =
      Ok (h', out, Z.of_nat (List.length out) - Z.of_nat (List.length l)) /\
    expands dis h' (next_ref h) l out /\
    frame dis (next_ref h) h h' /\
    (forall r, In r l -> is_extended_arg dis (deref h r) = true ->
               arg (deref h' r) = Some 0).
Proof.
  intros Hl.
  destruct (fix_loop_spec (next_ref h) l h [] [] []) as (h' & out & Hrun & Hexp & F & Hz).
  - lia.
  - exact Hl.
  - constructor.
  - exact I.
  - exact I.
  - constructor.
  - simpl in Hrun, Hexp. exists h', out. unfold fix_extended_args. rewrite Hrun.
    simpl bind. pose proof (expands_length _ _ _ _ Hexp) as Hlen.
    replace (0 <=? Z.of_nat (List.length out) - Z.of_nat (List.length l)) with true
      by (symmetry; apply Z.leb_le; lia).
    simpl. auto.
Qed.

Lemma expands_tail h n0 l out :
  expands dis h n0 l out -> tail_exts dis h n0 l out.
Proof.
  induction 1 as [|l out r H IH Hr Hx|l out r H IH Hr Hx Hz
                  |l out popped chain r H IH Hr Hx Hlen H1 Hp Hle Hends Hc Hch].
  - exists [], [], []. repeat split; constructor.
  - destruct IH as (p0 & o0 & exts & -> & -> & Hp0 & Ho0 & Hexts).
    exists p0, o0, (exts ++ [r]). rewrite <- !app_assoc.
    repeat split; try assumption. apply Forall_app. split; [exact Hexts|].
    constructor; [now split|constructor].
  - exists (l ++ [r]), (out ++ [r]), []. rewrite !app_nil_r.
    repeat split; try (now apply ends_plain_snoc). constructor.
  - exists (l ++ popped ++ [r]), (out ++ chain ++ [r]), []. rewrite !app_nil_r.
    repeat split; try (rewrite !app_assoc; now apply ends_plain_snoc).
    constructor.
Qed.

Lemma split_left {A} (P : A -> Prop) (pre : list A) : forall out1 out2 r post,
  out1 ++ out2 = pre ++ r :: post -> Forall P out2 -> ~ P r ->
  exists post1, out1 = pre ++ r :: post1.
Proof.
  induction pre as [|p pre IH]; intros out1 out2 r post E H2 Hr.
  - destruct out1 as [|a o]; simpl in E.
    + subst out2. exfalso. apply Hr. now inversion H2.
    + injection E as -> _. now exists o.
  - destruct out1 as [|a o]; simpl in E.
    + subst out2. exfalso. apply Hr. rewrite Forall_forall in H2. apply H2.
      right. apply in_or_app. right. now left.
    + injection E as -> E. destruct (IH o out2 r post E H2 Hr) as (post1 & ->).
      now exists post1.
Qed.

Lemma split_snoc {A} (out pre post : list A) (x r : A) :
  out ++ [x] = pre ++ r :: post ->
  (post = [] /\ pre = out /\ r = x) \/
  (exists post1, out = pre ++ r :: post1).
Proof.
  intros E. destruct (snoc_cases post) as [->|(post1 & y & ->)].
  - left. apply app_inj_tail in E. destruct E as [-> ->]. auto.
  - right. exists post1. rewrite app_comm_cons, app_assoc in E.
    apply app_inj_tail in E. now destruct E as [-> _].
Qed.

Lemma well_prefixed_mono h n0 l l' out :
  (forall r, In r l -> In r l') ->
  well_prefixed dis h n0 l out -> well_prefixed dis h n0 l' out.
Proof.
  intros Hsub W pre r post E Hx.
  destruct (W pre r post E Hx) as (Hin & pre0 & kept & chain & E1 & Hp & Hk & Hlen & Hch).
  split; [auto|]. exists pre0, kept, chain. repeat split; try assumption.
  eapply Forall_impl; [|exact Hk]. simpl. intros c (Hc & Hc'). split; auto.
Qed.

Lemma well_prefixed_last h n0 l out popped chain r :
  tail_exts dis h n0 l out ->
  is_extended_arg dis (deref h r) = false ->
  List.length chain = prefixes_needed (arg (deref h r)) ->
  Forall2 (is_chunk dis h (arg_or_0 (arg (deref h r)))) chain
    (chunk_shifts (List.length chain)) ->
  well_prefixed dis h n0 (l ++ popped ++ [r]) out ->
  well_prefixed dis h n0 (l ++ popped ++ [r]) ((out ++ chain) ++ [r]).
Proof.
  intros (p0 & o0 & exts & El & Eo & Hp0 & Ho0 & Hexts) Hx Hlen Hch W pre r' post E Hx'.
  destruct (split_snoc _ _ _ _ _ E) as [(-> & -> & ->)|(post1 & E1)].
  - split; [apply in_or_app; right; apply in_or_app; right; now left|].
    exists o0, exts, chain. subst out. rewrite <- app_assoc.
    repeat split; try assumption.
    rewrite Forall_forall in *. intros c Hc.
    destruct (Hexts c Hc) as [Hc1 Hc2].
    repeat split; try assumption. subst l. apply in_or_app. left.
    apply in_or_app. now right.
  - assert (Hchain : Forall (fun c => is_extended_arg dis (deref h c) = true) chain).
    { clear - Hch. induction Hch as [|c s cs ss [Hc _] _ IH]; constructor; auto. }
    destruct (split_left (fun c => is_extended_arg dis (deref h c) = true)
                pre out chain r' post1 E1 Hchain) as (post2 & E2); [congruence|].
    exact (W pre r' post2 E2 Hx').
Qed.

Lemma expands_well_prefixed h n0 l out :
  expands dis h n0 l out -> well_prefixed dis h n0 l out.
Proof.
  induction 1 as [|l out r H IH Hr Hx|l out r H IH Hr Hx Hz
                  |l out popped chain r H IH Hr Hx Hlen H1 Hp Hle Hends Hc Hch].
  - intros pre r post E. destruct pre; discriminate.
  - intros pre r' post E Hx'.
    destruct (split_left (fun c => is_extended_arg dis (deref h c) = true)
                pre out [r] r' post E) as (post1 & E1).
    + constructor; [exact Hx|constructor].
    + congruence.
    + refine (well_prefixed_mono h n0 l _ out _ IH pre r' post1 E1 Hx').
      intros c0 Hc0. apply in_or_app. now left.
  - pose proof (well_prefixed_last h n0 l out [] [] r (expands_tail _ _ _ _ H) Hx) as W.
    simpl in W. rewrite app_nil_r in W. apply W.
    + now rewrite Hz.
    + constructor.
    + apply (well_prefixed_mono h n0 l); [|exact IH].
      intros c0 Hc0. apply in_or_app. now left.
  - rewrite (app_assoc out). apply well_prefixed_last; try assumption.
    + exact (expands_tail _ _ _ _ H).
    + apply (well_prefixed_mono h n0 l); [|exact IH].
      intros c0 Hc0. apply in_or_app. now left.
Qed.

End FixExtendedArgs.

(** ** Operands and their prefixes *)

Lemma operand_step_arith acc v :
  0 <= acc -> operand_step acc v = acc * 256 + v mod 256.
Proof.
  intros Hacc. unfold operand_step.
  change 255 with (Z.ones 8). rewrite Z.land_ones by lia.
  rewrite Z.shiftl_mul_pow2 by lia. change (2 ^ 8) with 256.
  rewrite <- Z.lxor_lor, <- Z.add_nocarry_lxor; try reflexivity.
  all: apply Z.bits_inj'; intros n Hn; rewrite Z.land_spec, Z.bits_0;
    destruct (Z.lt_ge_cases n 8) as [Hlt|Hge].
  all: try (replace (acc * 256) with (Z.shiftl acc 8)
              by (rewrite Z.shiftl_mul_pow2 by lia; reflexivity);
            rewrite Z.shiftl_spec_low by lia; reflexivity).
  all: change 256 with (2 ^ 8); rewrite Z.mod_pow2_bits_high by lia;
    apply Bool.andb_false_r.
Qed.

Lemma prefixes_needed_cases a :
  0 <= a ->
  (prefixes_needed (Some a) = 0%nat /\ a <= 0xFF) \/
  (prefixes_needed (Some a) = 1%nat /\ 0xFF < a <= 0xFFFF) \/
  (prefixes_needed (Some a) = 2%nat /\ 0xFFFF < a <= 0xFFFFFF) \/
  (prefixes_needed (Some a) = 3%nat /\ 0xFFFFFF < a).
Proof.
  intros Ha. unfold prefixes_needed, arg_gt.
  destruct (Z.eqb_spec a 0) as [->|Hne]; simpl; [left; lia|].
  destruct (Z.ltb_spec 16777215 a); [right; right; right; lia|].
  destruct (Z.ltb_spec 65535 a); [right; right; left; lia|].
  destruct (Z.ltb_spec 255 a); [right; left; lia|left; lia].
Qed.

Lemma recombine a :
  0 <= a < 2 ^ 32 ->
  fold_left operand_step
    (map (Z.shiftr a) (chunk_shifts (prefixes_needed (Some a))) ++ [a]) 0 = a.
Proof.
  intros Ha. change (2 ^ 32) with 4294967296 in Ha.
  destruct (prefixes_needed_cases a (proj1 Ha))
    as [[-> Hr]|[[-> Hr]|[[-> Hr]|[-> Hr]]]]; simpl.
  - rewrite operand_step_arith by lia. Z.to_euclidean_division_equations. lia.
  - rewrite !Z.shiftr_div_pow2 by lia. change (2 ^ 8) with 256.
    assert (H0 : 0 <= operand_step 0 (a / 256))
      by (rewrite operand_step_arith by lia; Z.to_euclidean_division_equations; lia).
    rewrite !operand_step_arith by lia. Z.to_euclidean_division_equations. lia.
  - rewrite !Z.shiftr_div_pow2 by lia.
    change (2 ^ 8) with 256. change (2 ^ 16) with 65536.
    assert (H0 : 0 <= operand_step 0 (a / 65536))
      by (rewrite operand_step_arith by lia; Z.to_euclidean_division_equations; lia).
    assert (H1 : 0 <= operand_step (operand_step 0 (a / 65536)) (a / 256))
      by (rewrite operand_step_arith by lia; Z.to_euclidean_division_equations; lia).
    rewrite !operand_step_arith by lia. Z.to_euclidean_division_equations. lia.
  - rewrite !Z.shiftr_div_pow2 by lia.
    change (2 ^ 8) with 256. change (2 ^ 16) with 65536.
    change (2 ^ 24) with 16777216.
    assert (H0 : 0 <= operand_step 0 (a / 16777216))
      by (rewrite operand_step_arith by lia; Z.to_euclidean_division_equations; lia).
    assert (H1 : 0 <= operand_step (operand_step 0 (a / 16777216)) (a / 65536))
      by (rewrite operand_step_arith by lia; Z.to_euclidean_division_equations; lia).
    assert (H2 : 0 <= operand_step
                        (operand_step (operand_step 0 (a / 16777216)) (a / 65536))
                        (a / 256))
      by (rewrite operand_step_arith by lia; Z.to_euclidean_division_equations; lia).
    rewrite !operand_step_arith by lia. Z.to_euclidean_division_equations. lia.
Qed.

Lemma fold_operand_zeros k vs :
  fold_left operand_step (repeat 0 k ++ vs) 0 = fold_left operand_step vs 0.
Proof.
  induction k as [|k IH]; simpl; [reflexivity|]. exact IH.
Qed.

Lemma prefix_count_range a k :
  0 <= k -> 2 ^ (8 * k) <= a < 2 ^ (8 * (k + 1)) -> prefix_count a = Z.to_nat k.
Proof.
  intros Hk [Hlo Hhi]. unfold prefix_count, bit_length.
  assert (0 < 2 ^ (8 * k)) by (apply Z.pow_pos_nonneg; lia).
  destruct (Z.leb_spec a 0); [lia|].
  assert (8 * k <= Z.log2 a) by (apply Z.log2_le_pow2; lia).
  assert (Z.log2 a < 8 * (k + 1)) by (apply Z.log2_lt_pow2; lia).
  f_equal. Z.to_euclidean_division_equations. lia.
Qed.

Lemma prefix_count_needed a :
  0 <= a < 2 ^ 32 -> prefix_count a = prefixes_needed (Some a).
Proof.
  intros Ha. change (2 ^ 32) with 4294967296 in Ha.
  destruct (prefixes_needed_cases a (proj1 Ha))
    as [[-> Hr]|[[-> Hr]|[[-> Hr]|[-> Hr]]]].
  - destruct (Z.eq_dec a 0) as [->|Hne]; [reflexivity|].
    apply (prefix_count_range a 0); [lia|]. simpl. lia.
  - apply (prefix_count_range a 1); [lia|]. simpl. lia.
  - apply (prefix_count_range a 2); [lia|]. simpl. lia.
  - apply (prefix_count_range a 3); [lia|]. simpl. lia.
Qed.

Lemma map_args_zero h (kept : list ref) :
  Forall (fun c => arg (deref h c) = Some 0) kept ->
  map (fun c => arg_or_0 (arg (deref h c))) kept = repeat 0 (List.length kept).
Proof.
  induction 1 as [|c cs Hc _ IH]; simpl; [reflexivity|]. now rewrite Hc, IH.
Qed.

Lemma map_args_chunks dis h a chain shifts :
  Forall2 (is_chunk dis h a) chain shifts ->
  map (fun c => arg_or_0 (arg (deref h c))) chain = map (Z.shiftr a) shifts.
Proof.
  induction 1 as [|c s cs ss [_ Hc] _ IH]; simpl; [reflexivity|].
  now rewrite Hc, IH.
Qed.




(** Claim C10: a pass of [fix_extended_args] never shortens the list.  An
    EXTENDED_ARG of the input has its [arg] reset to 0 and stays, unless it
    is one of those popped in front of an instruction that gets a new chain
    at least as long ([expands]); the value returned is the difference of
    the lengths, which is not negative. *)
Theorem fix_extended_args_never_shrinks (dis : Dis) (h : heap) (l : list ref) :
  dis_opmap dis "EXTENDED_ARG" = Some (dis_EXTENDED_ARG dis) ->
  allocated h l ->
  exists h' out added,
    fix_extended_args dis h l = Ok (h', out, added) /\
    (List.length l <= List.length out)%nat /\
    added = Z.of_nat (List.length out) - Z.of_nat (List.length l) /\
    0 <= added /\
    expands dis h' (next_ref h) l out /\
    (forall r, In r l -> is_extended_arg dis (deref h r) = true ->
               arg (deref h' r) = Some 0).
Proof.
  intros Hext Hl.
  destruct (fix_extended_args_spec dis Hext h l Hl) as (h' & out & Hrun & Hexp & _ & Hz).
  pose proof (expands_length _ _ _ _ _ Hexp) as Hlen.
  exists h', out, (Z.of_nat (List.length out) - Z.of_nat (List.length l)).
  repeat split; try assumption; lia.
Qed.

Lemma fix_extended_args_never_shrinks_witness :
  let h := heap_of [ instr 144 "EXTENDED_ARG" (Some 7) (PyInt 7);
                     instr 100 "LOAD_CONST" (Some 0x12345) (PyInt 0);
                     instr 83 "RETURN_VALUE" None PyNone ] in
  let l := [0; 1; 2]%nat in
  dis_opmap Py39.tables "EXTENDED_ARG" = Some (dis_EXTENDED_ARG Py39.tables) /\
  allocated h l /\
  exists h' out added,
    fix_extended_args Py39.tables h l = Ok (h', out, added) /\
    (List.length l <= List.length out)%nat /\
    added = Z.of_nat (List.length out) - Z.of_nat (List.length l) /\
    0 <= added /\
    expands Py39.tables h' (next_ref h) l out /\
    (forall r, In r l -> is_extended_arg Py39.tables (deref h r) = true ->
               arg (deref h' r) = Some 0).
Proof.
  intros h l.
  assert (H1 : dis_opmap Py39.tables "EXTENDED_ARG" =
               Some (dis_EXTENDED_ARG Py39.tables)) by reflexivity.
  assert (H2 : allocated h l) by (unfold allocated, l; simpl; repeat constructor).
  split; [exact H1|]. split; [exact H2|].
  exact (fix_extended_args_never_shrinks Py39.tables h l H1 H2).
Defined.

(** ** [devirtualize_jumps] *)

Lemma same_layout_refl i : same_layout i i.
Proof. repeat split. Qed.

Lemma same_layout_trans i j k :
  same_layout i j -> same_layout j k -> same_layout i k.
Proof.
  unfold same_layout. intros (?&?&?&?&?&?) (?&?&?&?&?&?).
  repeat split; congruence.
Qed.

Lemma same_layout_assigned i a av rep :
  same_layout (set_argrepr (set_argval (set_arg i a) av) rep) i.
Proof. repeat split. Qed.

Lemma assigned_eq i j a av rep :
  same_layout i j ->
  set_argrepr (set_argval (set_arg i a) av) rep =
  set_argrepr (set_argval (set_arg j a) av) rep.
Proof.
  destruct i, j. unfold same_layout; simpl.
  intros (-> & -> & -> & -> & -> & ->). reflexivity.
Qed.

Section Devirtualize.

Variable ver : version.
Variable dis : Dis.

Lemma prefix_start_ext h1 h l idx offsets : forall t,
  (forall x, same_layout (deref h1 x) (deref h x)) ->
  prefix_start dis h1 l idx t offsets = prefix_start dis h l idx t offsets.
Proof.
  induction offsets as [|o offsets IH]; intros t Hs; simpl; [reflexivity|].
  unfold is_extended_arg.
  destruct (Hs (nth (idx - o) l t)) as (-> & _).
  destruct (_ && _); [now apply IH|reflexivity].
Qed.

Lemma devirtualized_jump_ext h1 h l r :
  (forall x, same_layout (deref h1 x) (deref h x)) ->
  devirtualized_jump ver dis h1 l r = devirtualized_jump ver dis h l r.
Proof.
  intros Hs. unfold devirtualized_jump.
  pose proof (Hs r) as Hr. destruct Hr as (Hop & Hname & Hoff & _ & _ & Htgt).
  rewrite Htgt. destruct (target (deref h r)) as [t0|]; [|reflexivity].
  destruct (dict_last Nat.eqb (indexof l) t0) as [idx|]; [|reflexivity].
  rewrite (prefix_start_ext h1 h) by exact Hs.
  set (t := prefix_start dis h l idx t0 [1%nat; 2%nat; 3%nat]).
  destruct (Hs t) as (_ & _ & -> & _).
  rewrite Hop, Hname, Hoff.
  rewrite (instruction_size_opcode ver dis _ _ Hop).
  match goal with |- bind ?m _ = bind ?m _ => destruct m as [a|e] end; simpl;
    [|reflexivity].
  f_equal. apply assigned_eq. apply Hs.
Qed.

Lemma is_jump_layout i j :
  same_layout i j -> is_jump dis i = is_jump dis j.
Proof. intros (Hop & _). unfold is_jump. now rewrite Hop. Qed.

Lemma devirtualized_jump_layout h l r i :
  devirtualized_jump ver dis h l r = Ok i -> same_layout i (deref h r).
Proof.
  unfold devirtualized_jump.
  destruct (target (deref h r)); [|discriminate].
  destruct (dict_last Nat.eqb (indexof l) n); [|discriminate].
  intros E. apply bind_ok in E. destruct E as (a & _ & E).
  injection E as <-. apply same_layout_assigned.
Qed.

Lemma devirtualize_jumps_loop_spec all h rest : forall hc,
  (forall x, same_layout (deref hc x) (deref h x)) ->
  (forall r, In r rest -> is_jump dis (deref h r) = true ->
             is_ok (devirtualized_jump ver dis h all r)) ->
  exists h',
    devirtualize_jumps_loop ver dis all hc rest = Ok h' /\
    next_ref h' = next_ref hc /\
    (forall x, same_layout (deref h' x) (deref h x)) /\
    (forall x, In x rest -> is_jump dis (deref h x) = true ->
               devirtualized_jump ver dis h all x = Ok (deref h' x)) /\
    (forall x, ~ In x rest \/ is_jump dis (deref h x) = false ->
               deref h' x = deref hc x).
Proof.
  induction rest as [|r rest IH]; intros hc Hs Hok.
  - exists hc. simpl. split; [reflexivity|]. split; [reflexivity|].
    split; [exact Hs|]. split; [intros x []|reflexivity].
  - simpl. rewrite (is_jump_layout _ _ (Hs r)).
    destruct (is_jump dis (deref h r)) eqn:Hj.
    + unfold devirtualize_jump. rewrite (devirtualized_jump_ext hc h) by exact Hs.
      pose proof (Hok r (or_introl eq_refl) Hj) as Hr.
      destruct (devirtualized_jump ver dis h all r) as [i|e] eqn:Ei; [|contradiction].
      simpl.
      pose proof (devirtualized_jump_layout _ _ _ _ Ei) as Hi.
      destruct (IH (store hc r i)) as (h' & Hrun & Hn & Hs' & Hj' & Hf').
      * intros x. destruct (Nat.eq_dec x r) as [->|Hne].
        -- now rewrite deref_store_eq.
        -- rewrite deref_store_ne by exact Hne. apply Hs.
      * intros x Hx. apply Hok. now right.
      * exists h'. split; [exact Hrun|]. split; [now rewrite Hn|].
        split; [exact Hs'|]. split.
        -- intros x [<-|Hx] Hjx.
           ++ destruct (in_dec Nat.eq_dec r rest) as [Hin|Hnin].
              ** now apply Hj'.
              ** rewrite Hf' by now left. now rewrite deref_store_eq.
           ++ now apply Hj'.
        -- intros x Hx. rewrite Hf'.
           ++ apply deref_store_ne. intros ->. destruct Hx as [Hx|Hx].
              ** apply Hx. now left.
              ** congruence.
           ++ destruct Hx as [Hx|Hx]; [left|now right].
              intros Hin. apply Hx. now right.
    + simpl. destruct (IH hc Hs) as (h' & Hrun & Hn & Hs' & Hj' & Hf').
      * intros x Hx. apply Hok. now right.
      * exists h'. split; [exact Hrun|]. split; [exact Hn|].
        split; [exact Hs'|]. split.
        -- intros x [<-|Hx] Hjx; [congruence|now apply Hj'].
        -- intros x Hx. apply Hf'. destruct Hx as [Hx|Hx]; [left|now right].
           intros Hin. apply Hx. now right.
Qed.

Lemma dict_last_combine_seq (l : list ref) t : forall s,
  In t l ->
  exists idx, dict_last Nat.eqb (combine l (seq s (List.length l))) t = Some idx /\
              (s <= idx < s + List.length l)%nat /\
              nth_error l (idx - s) = Some t.
Proof.
  induction l as [|a l IH]; intros s Hin; [destruct Hin|].
  simpl. destruct (in_dec Nat.eq_dec t l) as [Hl|Hl].
  - destruct (IH (S s) Hl) as (idx & -> & Hr & Hn). exists idx.
    split; [reflexivity|]. split; [lia|].
    replace (idx - s)%nat with (S (idx - S s)) by lia. exact Hn.
  - destruct Hin as [->|Hin]; [|contradiction].
    assert (E : dict_last Nat.eqb (combine l (seq (S s) (List.length l))) t = None).
    { clear - Hl. generalize (S s). induction l as [|b l IH]; intros k; [reflexivity|].
      simpl. rewrite IH by (intros H; apply Hl; now right).
      destruct (Nat.eqb_spec b t) as [->|_]; [|reflexivity].
      exfalso. apply Hl. now left. }
    rewrite E, Nat.eqb_refl. exists s. split; [reflexivity|]. split; [lia|].
    now rewrite Nat.sub_diag.
Qed.

Lemma indexof_In (l : list ref) t :
  In t l ->
  exists idx, dict_last Nat.eqb (indexof l) t = Some idx /\
              nth_error l idx = Some t.
Proof.
  intros Hin. destruct (dict_last_combine_seq l t 0 Hin) as (idx & E & _ & Hn).
  exists idx. split; [exact E|]. now rewrite Nat.sub_0_r in Hn.
Qed.

Lemma prefix_start_In h l idx offsets : forall t,
  (idx < List.length l)%nat -> In t l ->
  In (prefix_start dis h l idx t offsets) l.
Proof.
  induction offsets as [|o offsets IH]; intros t Hidx Ht; simpl; [exact Ht|].
  destruct (_ && _); [|exact Ht]. apply IH; [exact Hidx|].
  apply nth_In. lia.
Qed.

Lemma devirtualized_jump_ok h l r :
  targets_present dis h l -> offsets_set h l ->
  In r l -> is_jump dis (deref h r) = true ->
  exists t0 idx toff ioff a,
    target (deref h r) = Some t0 /\
    dict_last Nat.eqb (indexof l) t0 = Some idx /\
    nth_error l idx = Some t0 /\
    offset (deref h (prefix_start dis h l idx t0 [1; 2; 3]%nat)) = Some toff /\
    offset (deref h r) = Some ioff /\
    a = (let unit := fun x => if version_lt ver (3, 10) then x else int_div2 x in
         let d := toff - ioff - instruction_size ver dis (deref h r) in
         if Z_in (opcode (deref h r)) (dis_hasjabs dis) then unit toff
         else if version_ge ver (3, 11) &&
                 str_contains "BACKWARD" (opname (deref h r))
              then - unit d else unit d) /\
    devirtualized_jump ver dis h l r =
      Ok (set_argrepr
            (set_argval (set_arg (deref h r) (Some a)) (PyInt toff))
            (Some (String.append "to " (Z_to_string toff)))).
Proof.
  intros Ht Ho Hr Hj.
  destruct (Ht r Hr Hj) as (t0 & Etgt & Hin0).
  destruct (indexof_In l t0 Hin0) as (idx & Eidx & Hnth).
  assert (Hidx : (idx < List.length l)%nat) by (apply nth_error_Some; congruence).
  destruct (Ho _ (prefix_start_In h l idx [1; 2; 3]%nat t0 Hidx Hin0)) as (toff & Etoff).
  destruct (Ho r Hr) as (ioff & Eioff).
  exists t0, idx, toff, ioff. eexists. repeat split; try eassumption.
  unfold devirtualized_jump. rewrite Etgt, Eidx, Etoff, Eioff. simpl.
  destruct (Z_in (opcode (deref h r)) (dis_hasjabs dis)).
  - destruct (version_lt ver (3, 10)); reflexivity.
  - simpl. destruct (version_ge ver (3, 11) && _); reflexivity.
Qed.

End Devirtualize.



(** ** The normalizer's loop *)

Section Normalize.

Variable ver : version.
Variable dis : Dis.
Hypothesis Hext : dis_opmap dis "EXTENDED_ARG" = Some (dis_EXTENDED_ARG dis).

Lemma pot_snoc s b :
  fold_left pot_step (s ++ [b]) (O, O) = pot_step (fold_left pot_step s (O, O)) b.
Proof. now rewrite fold_left_app. Qed.

Lemma pot_exts s m st :
  fold_left pot_step (repeat true m ++ s) st =
  fold_left pot_step s ((fst st + m)%nat, snd st).
Proof.
  revert st. induction m as [|m IH]; intros [k p]; simpl.
  - now rewrite Nat.add_0_r.
  - rewrite IH. simpl. f_equal. f_equal. lia.
Qed.

Lemma pot_repeat m st :
  fold_left pot_step (repeat true m) st = ((fst st + m)%nat, snd st).
Proof.
  pose proof (pot_exts [] m st) as H. now rewrite app_nil_r in H.
Qed.

Lemma shape_app h l1 l2 : shape dis h (l1 ++ l2) = shape dis h l1 ++ shape dis h l2.
Proof. apply map_app. Qed.

Lemma shape_snoc h l x :
  shape dis h (l ++ [x]) = shape dis h l ++ [is_extended_arg dis (deref h x)].
Proof. apply map_app. Qed.

Lemma shape_exts h (cs : list ref) :
  Forall (fun c => is_extended_arg dis (deref h c) = true) cs ->
  shape dis h cs = repeat true (List.length cs).
Proof.
  induction 1 as [|c cs Hc _ IH]; simpl; [reflexivity|]. now rewrite Hc, IH.
Qed.

Lemma ends_plain_trailing h l :
  ends_plain dis h l -> trailing (shape dis h l) = O.
Proof.
  destruct (snoc_cases l) as [->|(l' & x & ->)]; [reflexivity|].
  rewrite ends_plain_snoc. intros Hx. unfold trailing.
  rewrite shape_snoc, pot_snoc. now rewrite Hx.
Qed.

Lemma expands_potential h n0 l out :
  expands dis h n0 l out ->
  trailing (shape dis h out) = trailing (shape dis h l) /\
  (potential (shape dis h out) + List.length out =
   potential (shape dis h l) + List.length l)%nat.
Proof.
  unfold trailing, potential.
  induction 1 as [|l out r H IH Hr Hx|l out r H IH Hr Hx Hz
                  |l out popped chain r H IH Hr Hx Hlen H1 Hp Hle Hends Hc Hch].
  - split; reflexivity.
  - destruct IH as [IH1 IH2].
    rewrite !shape_snoc, !pot_snoc, !length_app. rewrite Hx. simpl.
    split; lia.
  - destruct IH as [IH1 IH2].
    rewrite !shape_snoc, !pot_snoc, !length_app. rewrite Hx. simpl.
    split; [reflexivity|]. rewrite IH1. lia.
  - destruct IH as [IH1 IH2].
    assert (Hchain : Forall (fun c => is_extended_arg dis (deref h c) = true) chain).
    { clear - Hch. induction Hch as [|c s cs ss [Hc _] _ IH]; constructor; auto. }
    assert (Hpop : Forall (fun c => is_extended_arg dis (deref h c) = true) popped).
    { eapply Forall_impl; [|exact Hp]. now intros c [_ Hc0]. }
    pose proof (prefixes_needed_le (arg (deref h r))) as HN.
    rewrite !shape_app, (shape_exts h chain Hchain), (shape_exts h popped Hpop).
    change (shape dis h [r]) with [is_extended_arg dis (deref h r)].
    rewrite Hx, !fold_left_app, !pot_repeat.
    rewrite !length_app. cbn [List.length fold_left].
    assert (Hk : (List.length popped < List.length chain)%nat ->
                 fst (fold_left pot_step (shape dis h l) (O, O)) = O).
    { intros Hlt. apply ends_plain_trailing. now apply Hends. }
    destruct (fold_left pot_step (shape dis h out) (O, O)) as [ko po].
    destruct (fold_left pot_step (shape dis h l) (O, O)) as [kl pl].
    unfold pot_step. cbn [fst snd] in *. subst ko.
    split; [reflexivity|].
    destruct (Nat.eq_dec (List.length popped) (List.length chain)) as [E|E].
    + lia.
    + rewrite Hk in * by lia. lia.
Qed.

Lemma expands_plain_kept h n0 l out :
  expands dis h n0 l out ->
  forall r, In r l -> is_extended_arg dis (deref h r) = false -> In r out.
Proof.
  induction 1 as [|l out r H IH Hr Hx|l out r H IH Hr Hx Hz
                  |l out popped chain r H IH Hr Hx Hlen H1 Hp Hle Hends Hc Hch];
    intros x Hin Hxx.
  - destruct Hin.
  - apply in_app_or in Hin. apply in_or_app. destruct Hin as [Hin|[<-|[]]].
    + left. now apply IH.
    + right. now left.
  - apply in_app_or in Hin. apply in_or_app. destruct Hin as [Hin|[<-|[]]].
    + left. now apply IH.
    + right. now left.
  - apply in_app_or in Hin. apply in_or_app. destruct Hin as [Hin|Hin].
    + left. now apply IH.
    + right. apply in_or_app. right. apply in_app_or in Hin.
      destruct Hin as [Hin|[<-|[]]]; [|now left].
      rewrite Forall_forall in Hp. destruct (Hp x Hin) as [_ Hp']. congruence.
Qed.

Lemma expands_plain_from h n0 l out :
  expands dis h n0 l out ->
  forall r, In r out -> is_extended_arg dis (deref h r) = false -> In r l.
Proof.
  induction 1 as [|l out r H IH Hr Hx|l out r H IH Hr Hx Hz
                  |l out popped chain r H IH Hr Hx Hlen H1 Hp Hle Hends Hc Hch];
    intros x Hin Hxx.
  - destruct Hin.
  - apply in_app_or in Hin. apply in_or_app. destruct Hin as [Hin|[<-|[]]].
    + left. now apply IH.
    + right. now left.
  - apply in_app_or in Hin. apply in_or_app. destruct Hin as [Hin|[<-|[]]].
    + left. now apply IH.
    + right. now left.
  - apply in_app_or in Hin. apply in_or_app. destruct Hin as [Hin|Hin].
    + left. now apply IH.
    + right. apply in_or_app. right. apply in_app_or in Hin.
      destruct Hin as [Hin|[<-|[]]]; [|now left].
      exfalso. clear - Hch Hin Hxx.
      induction Hch as [|c s cs ss [Hc0 _] _ IHc]; [destruct Hin|].
      destruct Hin as [<-|Hin]; [congruence|auto].
Qed.

Lemma shape_ext h h' (l : list ref) :
  (forall r, In r l -> opcode (deref h' r) = opcode (deref h r)) ->
  shape dis h' l = shape dis h l.
Proof.
  intros H. apply map_ext_in. intros r Hr. unfold is_extended_arg.
  now rewrite H.
Qed.

Lemma update_offsets_next_ref l : forall h off,
  next_ref (update_offsets_from ver dis off h l) = next_ref h.
Proof.
  induction l as [|a l IH]; intros h off; simpl; [reflexivity|].
  now rewrite IH.
Qed.

Lemma update_offsets_layout l : forall h off x,
  let i := deref (update_offsets_from ver dis off h l) x in
  opcode i = opcode (deref h x) /\ opname i = opname (deref h x) /\
  target i = target (deref h x) /\ arg i = arg (deref h x) /\
  argval i = argval (deref h x) /\ starts_line i = starts_line (deref h x) /\
  is_jump_target i = is_jump_target (deref h x) /\
  argrepr i = argrepr (deref h x).
Proof.
  induction l as [|a l IH]; intros h off x; simpl; [repeat split|].
  destruct (IH (store h a (set_offset (deref h a) (Some off)))
               (off + instruction_size ver dis
                        (deref (store h a (set_offset (deref h a) (Some off))) a))
               x) as (H1 & H2 & H3 & H4 & H5 & H6 & H7 & H8).
  rewrite H1, H2, H3, H4, H5, H6, H7, H8.
  destruct (Nat.eq_dec x a) as [->|Hne].
  - rewrite deref_store_eq. repeat split.
  - rewrite deref_store_ne by exact Hne. repeat split.
Qed.

Lemma update_offsets_set l : forall h off r,
  In r l \/ offset (deref h r) <> None ->
  offset (deref (update_offsets_from ver dis off h l) r) <> None.
Proof.
  induction l as [|a l IH]; intros h off r Hr; simpl.
  - destruct Hr as [[]|Hr]; exact Hr.
  - apply IH. destruct (Nat.eq_dec r a) as [->|Hne].
    + right. rewrite deref_store_eq. discriminate.
    + destruct Hr as [[Hr|Hr]|Hr]; [congruence|now left|].
      right. now rewrite deref_store_ne.
Qed.

Lemma devirtualize_jumps_loop_layout all rest : forall hc h',
  devirtualize_jumps_loop ver dis all hc rest = Ok h' ->
  next_ref h' = next_ref hc /\
  forall x, same_layout (deref h' x) (deref hc x).
Proof.
  induction rest as [|r rest IH]; intros hc h'; simpl.
  - intros [= <-]. split; [reflexivity|]. intros x. apply same_layout_refl.
  - intros E. apply bind_ok in E. destruct E as (h1 & E1 & E2).
    destruct (IH _ _ E2) as [Hn Hs].
    destruct (is_jump dis (deref hc r)).
    + unfold devirtualize_jump in E1. apply bind_ok in E1.
      destruct E1 as (i & Ei & [= <-]).
      split; [now rewrite Hn|]. intros x.
      apply (same_layout_trans _ _ _ (Hs x)).
      destruct (Nat.eq_dec x r) as [->|Hne].
      * rewrite deref_store_eq. exact (devirtualized_jump_layout _ _ _ _ _ _ Ei).
      * rewrite deref_store_ne by exact Hne. apply same_layout_refl.
    + injection E1 as <-. split; [exact Hn|exact Hs].
Qed.

(** One turn of the loop. *)
Lemma normalize_iteration h l :
  allocated h l ->
  (exists e,
     devirtualize_jumps ver dis (update_offsets ver dis h l) l = Raise e /\
     forall f, normalize ver dis (S f) h l = Some (Raise e)) \/
  (exists hm h3 out,
     devirtualize_jumps ver dis (update_offsets ver dis h l) l = Ok hm /\
     fix_extended_args dis hm l =
       Ok (h3, out, Z.of_nat (List.length out) - Z.of_nat (List.length l)) /\
     (forall f, normalize ver dis (S f) h l =
                if Z.of_nat (List.length out) - Z.of_nat (List.length l) =? 0
                then Some (Ok (h3, out))
                else normalize ver dis f h3 out) /\
     allocated h3 out /\
     (List.length l <= List.length out)%nat /\
     (potential (shape dis h3 out) + List.length out =
      potential (shape dis h l) + List.length l)%nat /\
     expands dis h3 (next_ref h) l out /\
     (forall r, (r < next_ref h)%nat ->
        opcode (deref h3 r) = opcode (deref h r) /\
        target (deref h3 r) = target (deref h r))).
Proof.
  intros Hl. set (h1 := update_offsets ver dis h l).
  assert (Hn1 : next_ref h1 = next_ref h) by apply update_offsets_next_ref.
  destruct (devirtualize_jumps ver dis h1 l) as [hm|e] eqn:Ed.
  - right.
    destruct (devirtualize_jumps_loop_layout _ _ _ _ Ed) as [Hnm Hsm].
    assert (Hlm : allocated hm l).
    { unfold allocated in *. now rewrite Hnm, Hn1. }
    destruct (fix_extended_args_spec dis Hext hm l Hlm)
      as (h3 & out & Hrun & Hexp & F & Hz).
    rewrite Hnm, Hn1 in Hexp, F.
    assert (Hcode : forall r, (r < next_ref h)%nat ->
              opcode (deref h3 r) = opcode (deref h r) /\
              target (deref h3 r) = target (deref h r)).
    { intros r Hr.
      destruct (Hsm r) as (Hop & _ & _ & _ & _ & Htg).
      destruct (update_offsets_layout l h 0 r) as (Hop1 & _ & Htg1 & _).
      fold (update_offsets ver dis h l) in Hop1, Htg1. fold h1 in Hop1, Htg1.
      destruct F as [_ F].
      destruct (F r ltac:(lia)) as [E|(_ & _ & E)]; rewrite E; simpl;
        split; congruence. }
    exists hm, h3, out. split; [reflexivity|]. split; [exact Hrun|].
    split; [|split; [|split; [|split; [|split]]]].
    + intros f. simpl. fold h1. rewrite Ed, Hrun. reflexivity.
    + destruct F as [Hnf _].
      apply (expands_out_bounded dis h3 (next_ref h) l); [lia|exact Hexp].
    + exact (expands_length _ _ _ _ _ Hexp).
    + destruct (expands_potential _ _ _ _ Hexp) as [_ Hp].
      rewrite Hp. f_equal. f_equal. apply shape_ext.
      intros r Hr. apply Hcode. unfold allocated in Hl.
      rewrite Forall_forall in Hl. now apply Hl.
    + exact Hexp.
    + exact Hcode.
  - left. exists e. split; [reflexivity|]. intros f. simpl. fold h1.
    now rewrite Ed.
Qed.

Lemma normalize_bound : forall m h l,
  allocated h l ->
  (potential (shape dis h l) <= m)%nat ->
  exists res, forall fuel, (m + 1 <= fuel)%nat ->
    normalize ver dis fuel h l = Some res.
Proof.
  induction m as [|m IH]; intros h l Hl Hm;
    destruct (normalize_iteration h l Hl)
      as [(e & _ & Hr)|(hm & h3 & out & _ & _ & Hr & Hl3 & Hlen & Hp & _)].
  - exists (Raise e). intros [|f] Hf; [lia|apply Hr].
  - exists (Ok (h3, out)). intros [|f] Hf; [lia|]. rewrite Hr.
    replace (Z.of_nat (List.length out) - Z.of_nat (List.length l) =? 0) with true;
      [reflexivity|]. symmetry. apply Z.eqb_eq. lia.
  - exists (Raise e). intros [|f] Hf; [lia|apply Hr].
  - destruct (Z.eqb_spec (Z.of_nat (List.length out) - Z.of_nat (List.length l)) 0)
      as [E|E].
    + exists (Ok (h3, out)). intros [|f] Hf; [lia|]. now rewrite Hr.
    + destruct (IH h3 out Hl3 ltac:(lia)) as (res & Hres).
      exists res. intros [|f] Hf; [lia|]. rewrite Hr. apply Hres. lia.
Qed.

Lemma is_jump_extended_arg i :
  extended_arg_no_jump dis -> is_extended_arg dis i = true ->
  is_jump dis i = false.
Proof.
  intros [H1 H2]. unfold is_extended_arg, is_jump. intros E.
  apply Z.eqb_eq in E. rewrite E, H1, H2. reflexivity.
Qed.

Lemma devirtualize_jumps_ok h l :
  targets_present dis h l -> offsets_set h l ->
  is_ok (devirtualize_jumps ver dis h l).
Proof.
  intros Ht Ho.
  destruct (devirtualize_jumps_loop_spec ver dis l h l h) as (h' & Hrun & _).
  - intros x. apply same_layout_refl.
  - intros r Hr Hjr.
    destruct (devirtualized_jump_ok ver dis h l r Ht Ho Hr Hjr)
      as (t0 & idx & toff & ioff & a & _ & _ & _ & _ & _ & _ & ->).
    exact I.
  - unfold devirtualize_jumps. now rewrite Hrun.
Qed.

Lemma normalize_ok : forall m h l,
  extended_arg_no_jump dis ->
  allocated h l ->
  targets_plain dis h l ->
  (potential (shape dis h l) <= m)%nat ->
  exists h' l', forall fuel, (m + 1 <= fuel)%nat ->
    normalize ver dis fuel h l = Some (Ok (h', l')).
Proof.
  induction m as [|m IH]; intros h l Hnj Hl Ht Hm.
  all: assert (Hdev : is_ok (devirtualize_jumps ver dis (update_offsets ver dis h l) l)).
  1,3: apply devirtualize_jumps_ok.
  1,3: intros r Hr Hj;
       destruct (update_offsets_layout l h 0 r) as (Hop & _ & Htg & _);
       fold (update_offsets ver dis h l) in Hop, Htg;
       destruct (Ht r Hr) as (t & Et & Hin & _);
       [unfold is_jump in *; now rewrite <- Hop|];
       exists t; split; [congruence|exact Hin].
  1,2: intros r Hr;
       pose proof (update_offsets_set l h 0 r (or_introl Hr)) as Hs;
       fold (update_offsets ver dis h l) in Hs;
       destruct (offset (deref (update_offsets ver dis h l) r)) as [o|];
       [now exists o|congruence].
  all: destruct (normalize_iteration h l Hl)
      as [(e & Ee & _)|(hm & h3 & out & _ & _ & Hr & Hl3 & Hlen & Hp & Hexp & Hcode)];
    [rewrite Ee in Hdev; contradiction|].
  - exists h3, out. intros [|f] Hf; [lia|]. rewrite Hr.
    replace (Z.of_nat (List.length out) - Z.of_nat (List.length l) =? 0) with true;
      [reflexivity|]. symmetry. apply Z.eqb_eq. lia.
  - destruct (Z.eqb_spec (Z.of_nat (List.length out) - Z.of_nat (List.length l)) 0)
      as [E|E].
    + exists h3, out. intros [|f] Hf; [lia|]. now rewrite Hr.
    + destruct (IH h3 out Hnj Hl3) as (h' & l' & Hres).
      * (* the targets are still in the list *)
        unfold allocated in Hl. rewrite Forall_forall in Hl.
        intros r Hr3 Hj3.
        destruct (is_extended_arg dis (deref h3 r)) eqn:Hx3.
        { rewrite (is_jump_extended_arg (deref h3 r) Hnj Hx3) in Hj3.
          discriminate. }
        pose proof (expands_plain_from _ _ _ _ Hexp r Hr3 Hx3) as Hin.
        destruct (Hcode r (Hl r Hin)) as [Hop Htg].
        destruct (Ht r Hin) as (t & Et & Hint & Hxt).
        { unfold is_jump in *. now rewrite <- Hop. }
        destruct (Hcode t (Hl t Hint)) as [Hopt _].
        assert (Hxt3 : is_extended_arg dis (deref h3 t) = false).
        { unfold is_extended_arg in *. now rewrite Hopt. }
        exists t. split; [congruence|]. split; [|exact Hxt3].
        exact (expands_plain_kept _ _ _ _ Hexp t Hint Hxt3).
      * lia.
      * exists h', l'. intros [|f] Hf; [lia|]. rewrite Hr. apply Hres. lia.
Qed.

Lemma normalize_last fuel : forall h l h' l',
  normalize ver dis fuel h l = Some (Ok (h', l')) ->
  exists hm lm, fix_extended_args dis hm lm = Ok (h', l', 0).
Proof.
  induction fuel as [|fuel IH]; intros h l h' l'; simpl; [discriminate|].
  destruct (devirtualize_jumps ver dis (update_offsets ver dis h l) l)
    as [hm|e]; [|discriminate].
  destruct (fix_extended_args dis hm l) as [[[h3 l3] d]|e] eqn:E; [|discriminate].
  destruct (Z.eqb_spec d 0) as [->|Hd].
  - intros [= <- <-]. now exists hm, l.
  - apply IH.
Qed.

End Normalize.

(** Claim C9: the loop of [transform_code_object] that recomputes offsets,
    devirtualizes jumps and runs [fix_extended_args] ends.  On every list of
    allocated objects, [potential + 1] turns are enough for it to return or
    raise; when the jumps refer to instructions of the list it returns; and
    what it returns comes from a pass of [fix_extended_args] that reported 0
    added instructions, the only test the loop makes. *)
Theorem normalize_terminates (ver : version) (dis : Dis) (h : heap)
    (l : list ref) :
  dis_opmap dis "EXTENDED_ARG" = Some (dis_EXTENDED_ARG dis) ->
  allocated h l ->
  exists res,
    (forall fuel, (potential (shape dis h l) + 1 <= fuel)%nat ->
       normalize ver dis fuel h l = Some res) /\
    (extended_arg_no_jump dis -> targets_plain dis h l ->
     exists h' l', res = Ok (h', l')) /\
    (forall h' l', res = Ok (h', l') ->
     exists hm lm, fix_extended_args dis hm lm = Ok (h', l', 0)).
Proof.
  intros Hext Hl.
  destruct (normalize_bound ver dis Hext (potential (shape dis h l)) h l Hl (le_n _))
    as (res & Hres).
  exists res. split; [exact Hres|]. split.
  - intros Hnj Ht.
    destruct (normalize_ok ver dis Hext (potential (shape dis h l)) h l Hnj Hl Ht (le_n _))
      as (h' & l' & Hok).
    exists h', l'.
    specialize (Hres _ (le_n _)). specialize (Hok _ (le_n _)). congruence.
  - intros h' l' ->.
    exact (normalize_last ver dis _ h l h' l' (Hres _ (le_n _))).
Qed.

Lemma normalize_terminates_witness :
  let l := [0; 1; 2; 3; 4; 5]%nat in
  dis_opmap Py311.tables "EXTENDED_ARG" = Some (dis_EXTENDED_ARG Py311.tables) /\
  allocated loop311 l /\
  exists res,
    (forall fuel, (potential (shape Py311.tables loop311 l) + 1 <= fuel)%nat ->
       normalize Py311.ver Py311.tables fuel loop311 l = Some res) /\
    (extended_arg_no_jump Py311.tables -> targets_plain Py311.tables loop311 l ->
     exists h' l', res = Ok (h', l')) /\
    (forall h' l', res = Ok (h', l') ->
     exists hm lm, fix_extended_args Py311.tables hm lm = Ok (h', l', 0)).
Proof.
  intros l.
  assert (H1 : dis_opmap Py311.tables "EXTENDED_ARG" =
               Some (dis_EXTENDED_ARG Py311.tables)) by reflexivity.
  assert (H2 : allocated loop311 l) by (unfold allocated, l; simpl; repeat constructor).
  split; [exact H1|]. split; [exact H2|].
  exact (normalize_terminates Py311.ver Py311.tables loop311 l H1 H2).
Defined.

(** ** [fix_vars] *)

Lemma dict_last_names_None (names : list string) s : forall k,
  ~ In s names ->
  dict_last String.eqb
    (combine names (map Z.of_nat (seq k (List.length names)))) s = None.
Proof.
  induction names as [|n names IH]; intros k Hnin; [reflexivity|].
  simpl. rewrite IH by (intros H; apply Hnin; now right).
  destruct (String.eqb_spec n s) as [->|_]; [|reflexivity].
  exfalso. apply Hnin. now left.
Qed.

Lemma dict_last_names (names : list string) s : forall k,
  In s names ->
  exists idx,
    dict_last String.eqb
      (combine names (map Z.of_nat (seq k (List.length names)))) s =
      Some (Z.of_nat (k + idx)) /\
    last_index names s idx.
Proof.
  induction names as [|n names IH]; intros k Hin; [destruct Hin|].
  simpl. destruct (in_dec string_dec s names) as [Hl|Hl].
  - destruct (IH (S k) Hl) as (idx & -> & Hn & Hlast). exists (S idx).
    split; [f_equal; f_equal; lia|]. split; [exact Hn|].
    intros [|j] Hj; [lia|]. simpl. apply Hlast. lia.
  - destruct Hin as [->|Hin]; [|contradiction].
    rewrite dict_last_names_None by exact Hl. rewrite String.eqb_refl.
    exists 0%nat. split; [f_equal; f_equal; lia|]. split; [reflexivity|].
    intros [|j] Hj; [lia|]. simpl. intros Hn. apply Hl.
    eapply nth_error_In. exact Hn.
Qed.

Lemma table_lookup_names names s :
  In s names ->
  exists idx, table_lookup (name_table names) (PyStr s) = Ok (Z.of_nat idx) /\
              last_index names s idx.
Proof.
  intros Hin. destruct (dict_last_names names s 0 Hin) as (idx & E & Hl).
  exists idx. unfold table_lookup, name_table. rewrite E. auto.
Qed.

Lemma last_index_unique names s i j :
  last_index names s i -> last_index names s j -> i = j.
Proof.
  intros [Hi Hil] [Hj Hjl].
  destruct (Nat.lt_trichotomy i j) as [H|[H|H]]; [|exact H|].
  - exfalso. exact (Hil j H Hj).
  - exfalso. exact (Hjl i H Hi).
Qed.

Section FixVars.

Variable ver : version.
Variable dis : Dis.
Variable code_options : Code.
Hypothesis Hver : version_ge ver (3, 11) = true.
Hypothesis Hlg : load_global_is_name dis.

Lemma fix_vars_inv_refl h : fix_vars_inv dis h h.
Proof.
  intros x. repeat split; auto. intros _ a Ha. now exists a.
Qed.

Lemma shiftl_1_mod2 i b : 0 <= b < 2 -> (Z.shiftl i 1 + b) mod 2 = b.
Proof.
  intros Hb. rewrite Z.shiftl_mul_pow2 by lia. change (2 ^ 1) with 2.
  Z.to_euclidean_division_equations. lia.
Qed.

(** One turn of the loop of [fix_vars]. *)
Lemma fix_var_step h hc r h1 :
  fix_vars_inv dis h hc ->
  fix_var ver dis (name_table (co_varnames code_options))
    (name_table (co_names code_options)) hc r = Ok h1 ->
  fix_vars_inv dis h h1 /\
  (forall x, x <> r -> deref h1 x = deref hc x) /\
  (is_load_global dis (deref h r) ->
   forall a s, arg (deref h r) = Some a -> argval (deref h r) = PyStr s ->
   In s (co_names code_options) ->
   exists idx, last_index (co_names code_options) s idx /\
               arg (deref h1 r) = Some (Z.shiftl (Z.of_nat idx) 1 + a mod 2)).
Proof.
  intros Hinv. destruct (Hinv r) as (Hop & Hname & Hav & Hsome & Hbit).
  unfold fix_var. rewrite Hver, Hop, Hname, Hav. simpl andb.
  intros E. apply bind_ok in E. destruct E as ([shift push_null] & E1 & E).
  apply bind_ok in E. destruct E as (h2 & E2 & E3).
  (* the store after the table lookup *)
  assert (H2 : (forall x, x <> r -> deref h2 x = deref hc x) /\
               opcode (deref h2 r) = opcode (deref h r) /\
               opname (deref h2 r) = opname (deref h r) /\
               argval (deref h2 r) = argval (deref h r) /\
               (arg (deref hc r) <> None -> arg (deref h2 r) <> None) /\
               (Z_in (opcode (deref h r)) (dis_haslocal dis) = false ->
                Z_in (opcode (deref h r)) (dis_hasname dis) = true ->
                exists i, table_lookup (name_table (co_names code_options))
                            (argval (deref h r)) = Ok i /\
                          arg (deref h2 r) = Some i)).
  { destruct (Z_in (opcode (deref h r)) (dis_haslocal dis)).
    - apply bind_ok in E2. destruct E2 as (i & _ & [= <-]).
      rewrite deref_store_eq. simpl. repeat split; try assumption; try discriminate.
      intros x Hx. now apply deref_store_ne.
    - destruct (Z_in (opcode (deref h r)) (dis_hasname dis)).
      + apply bind_ok in E2. destruct E2 as (i & Ei & [= <-]).
        rewrite deref_store_eq. simpl.
        repeat split; try assumption; try discriminate.
        * intros x Hx. now apply deref_store_ne.
        * intros _ _. now exists i.
      + injection E2 as <-. repeat split; try assumption; try discriminate. auto. }
  destruct H2 as (Hf2 & Hop2 & Hname2 & Hav2 & Hsome2 & Hres2).
  (* the store after the flag is packed *)
  assert (H3 : (forall x, x <> r -> deref h1 x = deref hc x) /\
               opcode (deref h1 r) = opcode (deref h r) /\
               opname (deref h1 r) = opname (deref h r) /\
               argval (deref h1 r) = argval (deref h r) /\
               arg (deref h1 r) =
                 option_map (fun a => Z.shiftl a shift + push_null)
                   (arg (deref h2 r))).
  { destruct (arg (deref h2 r)) as [a2|] eqn:Ea2.
    - injection E3 as <-. rewrite deref_store_eq. simpl.
      repeat split; try assumption.
      intros x Hx. rewrite deref_store_ne by exact Hx. now apply Hf2.
    - injection E3 as <-. rewrite Ea2. repeat split; assumption. }
  destruct H3 as (Hf3 & Hop3 & Hname3 & Hav3 & Harg3).
  (* the flag that was read *)
  assert (Hflag : is_load_global dis (deref h r) ->
                  forall a, arg (deref h r) = Some a ->
                  shift = 1 /\ push_null = a mod 2).
  { intros Hg a Ha. destruct (Hbit Hg a Ha) as (a' & Ea' & Hm).
    destruct Hg as [Hn _]. rewrite Hn, Ea' in E1. simpl in E1.
    injection E1 as <- <-. auto. }
  assert (Hnew : is_load_global dis (deref h r) ->
                 forall a, arg (deref h r) = Some a ->
                 exists i, table_lookup (name_table (co_names code_options))
                             (argval (deref h r)) = Ok i /\
                           arg (deref h1 r) = Some (Z.shiftl i 1 + a mod 2)).
  { intros Hg a Ha. destruct (Hflag Hg a Ha) as [-> ->].
    destruct (Hlg _ (proj2 Hg)) as [Hn Hl].
    destruct (Hres2 Hl Hn) as (i & Ei & Ea2).
    exists i. split; [exact Ei|]. rewrite Harg3, Ea2. reflexivity. }
  split; [|split].
  - intros x. destruct (Nat.eq_dec x r) as [->|Hne].
    + repeat split; try assumption.
      * intros Hs. rewrite Harg3.
        destruct (arg (deref h2 r)) eqn:Ea2; [discriminate|].
        exfalso. exact (Hsome2 (Hsome Hs) eq_refl).
      * intros Hg a Ha. destruct (Hnew Hg a Ha) as (i & _ & Ea1).
        eexists. split; [exact Ea1|]. apply shiftl_1_mod2.
        apply Z.mod_pos_bound. lia.
    + rewrite (Hf3 x Hne). apply Hinv.
  - exact Hf3.
  - intros Hg a s Ha Hs Hin. destruct (Hnew Hg a Ha) as (i & Ei & Ea1).
    destruct (table_lookup_names _ s Hin) as (idx & Eidx & Hlast).
    exists idx. split; [exact Hlast|]. rewrite Hs in Ei. congruence.
Qed.

Lemma fix_vars_loop_spec h rest : forall hc h' done,
  fix_vars_inv dis h hc ->
  (forall r, In r done -> is_load_global dis (deref h r) ->
     forall a s, arg (deref h r) = Some a -> argval (deref h r) = PyStr s ->
     In s (co_names code_options) ->
     exists idx, last_index (co_names code_options) s idx /\
                 arg (deref hc r) = Some (Z.shiftl (Z.of_nat idx) 1 + a mod 2)) ->
  fix_vars_loop ver dis (name_table (co_varnames code_options))
    (name_table (co_names code_options)) hc rest = Ok h' ->
  forall r, In r done \/ In r rest -> is_load_global dis (deref h r) ->
    forall a s, arg (deref h r) = Some a -> argval (deref h r) = PyStr s ->
    In s (co_names code_options) ->
    exists idx, last_index (co_names code_options) s idx /\
                arg (deref h' r) = Some (Z.shiftl (Z.of_nat idx) 1 + a mod 2).
Proof.
  induction rest as [|x rest IH]; intros hc h' done Hinv Hdone; simpl.
  - intros [= <-] r [Hr|[]]. now apply Hdone.
  - intros E. apply bind_ok in E. destruct E as (h1 & E1 & E2).
    destruct (fix_var_step h hc x h1 Hinv E1) as (Hinv1 & Hf & Hx).
    intros r Hr. apply (IH h1 h' (x :: done) Hinv1); [|exact E2|].
    + intros r' [<-|Hr'] Hg a s Ha Hs Hin.
      * now apply Hx.
      * destruct (Nat.eq_dec r' x) as [->|Hne]; [now apply Hx|].
        rewrite (Hf r' Hne). now apply Hdone.
    + destruct Hr as [Hr|[<-|Hr]]; [left; now right|left; now left|now right].
Qed.

Lemma fix_vars_loop_total h rest : forall hc,
  fix_vars_inv dis h hc ->
  vars_resolvable ver dis code_options h rest ->
  exists h', fix_vars_loop ver dis (name_table (co_varnames code_options))
               (name_table (co_names code_options)) hc rest = Ok h'.
Proof.
  induction rest as [|x rest IH]; intros hc Hinv Hres; simpl.
  - now exists hc.
  - assert (Ex : exists h1,
              fix_var ver dis (name_table (co_varnames code_options))
                (name_table (co_names code_options)) hc x = Ok h1).
    { destruct (Hinv x) as (Hop & Hname & Hav & Hsome & _).
      destruct (Hres x (or_introl eq_refl)) as (Hlga & Hloc & Hnam).
      unfold fix_var. rewrite Hver, Hop, Hname, Hav. simpl andb.
      assert (E1 : exists sp,
                (if String.eqb (opname (deref h x)) "LOAD_GLOBAL"
                 then match arg (deref hc x) with
                      | Some a => Ok (1, a mod 2)
                      | None => Raise AssertionError
                      end
                 else Ok (0, 0)) = Ok sp).
      { destruct (String.eqb_spec (opname (deref h x)) "LOAD_GLOBAL") as [En|_];
          [|now eexists].
        specialize (Hsome (Hlga Hver En)).
        destruct (arg (deref hc x)); [now eexists|congruence]. }
      destruct E1 as ([shift push_null] & ->). simpl bind.
      assert (E2 : exists h2,
                (if Z_in (opcode (deref h x)) (dis_haslocal dis)
                 then i <- table_lookup (name_table (co_varnames code_options))
                             (argval (deref h x)) ;;
                      Ok (store hc x (set_arg (deref hc x) (Some i)))
                 else if Z_in (opcode (deref h x)) (dis_hasname dis)
                      then i <- table_lookup (name_table (co_names code_options))
                                  (argval (deref h x)) ;;
                           Ok (store hc x (set_arg (deref hc x) (Some i)))
                      else Ok hc) = Ok h2).
      { destruct (Z_in (opcode (deref h x)) (dis_haslocal dis)).
        - destruct (Hloc eq_refl) as (s & -> & Hin).
          destruct (table_lookup_names _ s Hin) as (idx & -> & _). now eexists.
        - destruct (Z_in (opcode (deref h x)) (dis_hasname dis)); [|now eexists].
          destruct (Hnam eq_refl eq_refl) as (s & -> & Hin).
          destruct (table_lookup_names _ s Hin) as (idx & -> & _). now eexists. }
      destruct E2 as (h2 & ->). simpl bind.
      destruct (arg (deref h2 x)); now eexists. }
    destruct Ex as (h1 & E1). rewrite E1. simpl bind.
    destruct (fix_var_step h hc x h1 Hinv E1) as (Hinv1 & _).
    apply IH; [exact Hinv1|]. intros r Hr. apply Hres. now right.
Qed.

End FixVars.

(** Claim C5: in Python 3.11 and later, when every LOAD_GLOBAL of the list
    has an operand and a name that is in [co_names], [fix_vars] leaves it
    with the index of the name in [co_names], shifted left by one, plus the
    low bit its operand had before: the bit is read before the index
    overwrites the operand and packed afterwards.  ([fix_vars] returns when
    every name it looks up is in its table.) *)
Theorem fix_vars_load_global (ver : version) (dis : Dis) (code_options : Code)
    (h : heap) (l : list ref) :
  version_ge ver (3, 11) = true ->
  load_global_is_name dis ->
  (forall r, In r l -> is_load_global dis (deref h r) ->
     (exists a, arg (deref h r) = Some a) /\
     (exists s, argval (deref h r) = PyStr s /\ In s (co_names code_options))) ->
  (forall h', fix_vars ver dis h l code_options = Ok h' ->
     forall r, In r l -> is_load_global dis (deref h r) ->
       exists a s idx,
         arg (deref h r) = Some a /\ argval (deref h r) = PyStr s /\
         last_index (co_names code_options) s idx /\
         arg (deref h' r) = Some (Z.shiftl (Z.of_nat idx) 1 + a mod 2)) /\
  (vars_resolvable ver dis code_options h l ->
   exists h', fix_vars ver dis h l code_options = Ok h').
Proof.
  intros Hver Hlg Hyp. split.
  - intros h' E r Hr Hg.
    destruct (Hyp r Hr Hg) as ((a & Ha) & (s & Hs & Hin)).
    destruct (fix_vars_loop_spec ver dis code_options Hver Hlg h l h h' []
                (fix_vars_inv_refl dis h)) with (r := r) (a := a) (s := s)
      as (idx & Hlast & Harg); auto.
    + intros r' [].
    + exists a, s, idx. auto.
  - intros Hres.
    exact (fix_vars_loop_total ver dis code_options Hver Hlg h l h
             (fix_vars_inv_refl dis h) Hres).
Qed.

Lemma fix_vars_load_global_witness :
  let h := heap_of [ instr 116 "LOAD_GLOBAL" (Some 1) (PyStr "len");
                     instr 124 "LOAD_FAST" (Some 0) (PyStr "x");
                     instr 116 "LOAD_GLOBAL" (Some 6) (PyStr "print") ] in
  let l := [0; 1; 2]%nat in
  let code_options := code_with [] [] ["print"; "len"] ["x"] 1 [] in
  version_ge Py311.ver (3, 11) = true /\
  load_global_is_name Py311.tables /\
  (forall r, In r l -> is_load_global Py311.tables (deref h r) ->
     (exists a, arg (deref h r) = Some a) /\
     (exists s, argval (deref h r) = PyStr s /\ In s (co_names code_options))) /\
  (forall h', fix_vars Py311.ver Py311.tables h l code_options = Ok h' ->
     forall r, In r l -> is_load_global Py311.tables (deref h r) ->
       exists a s idx,
         arg (deref h r) = Some a /\ argval (deref h r) = PyStr s /\
         last_index (co_names code_options) s idx /\
         arg (deref h' r) = Some (Z.shiftl (Z.of_nat idx) 1 + a mod 2)) /\
  (vars_resolvable Py311.ver Py311.tables code_options h l ->
   exists h', fix_vars Py311.ver Py311.tables h l code_options = Ok h').
Proof.
  intros h l code_options.
  assert (H1 : version_ge Py311.ver (3, 11) = true) by reflexivity.
  assert (H2 : load_global_is_name Py311.tables).
  { intros op E. vm_compute in E. injection E as <-. split; reflexivity. }
  assert (H3 : forall r, In r l -> is_load_global Py311.tables (deref h r) ->
     (exists a, arg (deref h r) = Some a) /\
     (exists s, argval (deref h r) = PyStr s /\ In s (co_names code_options))).
  { intros r Hr [Hn _]. unfold l in Hr. simpl in Hr.
    destruct Hr as [<-|[<-|[<-|[]]]].
    - split; [now exists 1|]. exists "len". split; [reflexivity|]. simpl. auto.
    - discriminate Hn.
    - split; [now exists 6|]. exists "print". split; [reflexivity|]. simpl. auto. }
  split; [exact H1|]. split; [exact H2|]. split; [exact H3|].
  exact (fix_vars_load_global Py311.ver Py311.tables code_options h l H1 H2 H3).
Defined.

(** ** Line tables *)

Lemma signed_byte_land l :
  -128 <= l <= 127 -> signed_byte (Z.land l 0xFF) = l.
Proof.
  intros Hl. unfold signed_byte. change 255 with (Z.ones 8).
  rewrite Z.land_ones by lia. change (2 ^ 8) with 256.
  destruct (Z.leb_spec 128 (l mod 256)); Z.to_euclidean_division_equations; lia.
Qed.

Lemma decode_encode_entries es :
  Forall (fun e => -128 <= snd e <= 127) es ->
  decode_entries (encode_entries es) = es.
Proof.
  induction 1 as [|[b l] es Hl _ IH]; simpl; [reflexivity|].
  rewrite IH. simpl in Hl. now rewrite signed_byte_land.
Qed.

Lemma encode_entries_app es1 es2 :
  encode_entries (es1 ++ es2) = encode_entries es1 ++ encode_entries es2.
Proof. apply flat_map_app. Qed.

(** The loop of [_update]: with a byte delta that is not negative it never
    runs out of its counter, and it emits entries in range that add up to
    the two deltas. *)
Lemma _update_loop_S n table bd ld :
  _update_loop (S n) table bd ld =
  if (bd =? 0) && (ld =? 0) then Ok table
  else
    _ <- assert (negb (Z.max 0 (Z.min bd 254) =? 0) ||
                 negb (Z.max (-127) (Z.min ld 127) =? 0)) ;;
    _update_loop n
      (table ++ [Z.max 0 (Z.min bd 254);
                 Z.land (Z.max (-127) (Z.min ld 127)) 0xFF])
      (bd - Z.max 0 (Z.min bd 254)) (ld - Z.max (-127) (Z.min ld 127)).
Proof. reflexivity. Qed.

Lemma _update_loop_spec n : forall table bd ld,
  0 <= bd -> Z.abs bd + Z.abs ld <= Z.of_nat n ->
  exists es,
    _update_loop n table bd ld = Ok (table ++ encode_entries es) /\
    Forall modern_entry es /\
    sum_bytes es = bd /\ sum_lines es = ld /\
    (es = [] <-> bd = 0 /\ ld = 0) /\
    (254 < bd \/ 127 < ld \/ ld < -127 -> (2 <= List.length es)%nat).
Proof.
  induction n as [|n IH]; intros table bd ld Hbd Hn.
  - assert (bd = 0 /\ ld = 0) as [-> ->] by lia.
    exists []. simpl. rewrite app_nil_r. repeat split; auto; try lia.
  - rewrite _update_loop_S.
    destruct ((bd =? 0) && (ld =? 0)) eqn:Ez.
    + apply andb_true_iff in Ez. destruct Ez as [Eb El].
      apply Z.eqb_eq in Eb, El. subst.
      exists []. simpl. rewrite app_nil_r. repeat split; auto; try lia.
    + assert (Hnz : bd <> 0 \/ ld <> 0).
      { apply andb_false_iff in Ez. destruct Ez as [E|E];
          apply Z.eqb_neq in E; auto. }
      set (bo := Z.max 0 (Z.min bd 254)).
      set (lo := Z.max (-127) (Z.min ld 127)).
      assert (Hbl : bo <> 0 \/ lo <> 0) by (unfold bo, lo; lia).
      replace (negb (bo =? 0) || negb (lo =? 0)) with true.
      2:{ symmetry. apply orb_true_iff.
          destruct Hbl as [H|H]; [left|right]; apply negb_true_iff;
            now apply Z.eqb_neq. }
      simpl bind.
      destruct (IH (table ++ [bo; Z.land lo 255]) (bd - bo) (ld - lo)
                  ltac:(unfold bo; lia) ltac:(unfold bo, lo; lia))
        as (es & Hrun & Hes & Hb & Hl & Hnil & Hlen).
      exists ((bo, lo) :: es). rewrite Hrun. simpl. rewrite <- app_assoc. simpl.
      split; [reflexivity|]. split.
      { constructor; [|exact Hes]. unfold modern_entry; simpl. unfold bo, lo. lia. }
      unfold sum_bytes, sum_lines in *. simpl. rewrite Hb, Hl.
      split; [lia|]. split; [lia|]. split.
      { split; [discriminate|]. lia. }
      intros Hbig. destruct es as [|e es]; [|simpl; lia].
      exfalso. destruct Hnil as [Hnil _]. specialize (Hnil eq_refl).
      unfold bo, lo in Hnil. lia.
Qed.

Lemma _update_spec table bd ld :
  0 <= bd ->
  exists es,
    _update table bd ld = Ok (table ++ encode_entries es) /\
    Forall modern_entry es /\
    sum_bytes es = bd /\ sum_lines es = ld /\
    (es = [] <-> bd = 0 /\ ld = 0) /\
    (254 < bd \/ 127 < ld \/ ld < -127 -> (2 <= List.length es)%nat).
Proof.
  intros Hbd. apply _update_loop_spec; [exact Hbd|]. lia.
Qed.

Lemma lnotab_update_loop_S n st lineno_new byteno_new :
  lnotab_update_loop (S n) st lineno_new byteno_new =
  if (byteno_new =? ln_byteno st) && (lineno_new =? ln_lineno st) then Ok st
  else
    _ <- assert (negb (Z.max 0 (Z.min (byteno_new - ln_byteno st) 255) =? 0) ||
                 negb (Z.max (-128) (Z.min (lineno_new - ln_lineno st) 127) =? 0)) ;;
    lnotab_update_loop n
      (mkLnotab
         (lnotab st ++
          [Z.max 0 (Z.min (byteno_new - ln_byteno st) 255);
           Z.land (Z.max (-128) (Z.min (lineno_new - ln_lineno st) 127)) 0xFF])
         (ln_lineno st + Z.max (-128) (Z.min (lineno_new - ln_lineno st) 127))
         (ln_byteno st + Z.max 0 (Z.min (byteno_new - ln_byteno st) 255)))
      lineno_new byteno_new.
Proof. reflexivity. Qed.

(** The loop of [lnotab_writer]'s [update], in the same way. *)
Lemma lnotab_update_loop_spec n : forall st ln bn,
  ln_byteno st <= bn ->
  Z.abs (bn - ln_byteno st) + Z.abs (ln - ln_lineno st) <= Z.of_nat n ->
  exists es,
    lnotab_update_loop n st ln bn =
      Ok (mkLnotab (lnotab st ++ encode_entries es) ln bn) /\
    Forall legacy_entry es /\
    sum_bytes es = bn - ln_byteno st /\ sum_lines es = ln - ln_lineno st /\
    (es = [] <-> bn = ln_byteno st /\ ln = ln_lineno st) /\
    (255 < bn - ln_byteno st \/ 127 < ln - ln_lineno st \/
     ln - ln_lineno st < -128 -> (2 <= List.length es)%nat).
Proof.
  induction n as [|n IH]; intros [table lineno byteno] ln bn; simpl ln_byteno;
    simpl ln_lineno; simpl lnotab; intros Hbd Hn.
  - assert (bn = byteno /\ ln = lineno) as [-> ->] by lia.
    exists []. simpl. rewrite !Z.eqb_refl, app_nil_r. simpl.
    unfold sum_bytes, sum_lines. simpl. repeat split; auto; try lia.
  - rewrite lnotab_update_loop_S. simpl ln_byteno; simpl ln_lineno; simpl lnotab.
    destruct ((bn =? byteno) && (ln =? lineno)) eqn:Ez.
    + apply andb_true_iff in Ez. destruct Ez as [Eb El].
      apply Z.eqb_eq in Eb, El. subst.
      exists []. simpl. rewrite app_nil_r.
      unfold sum_bytes, sum_lines. simpl. repeat split; auto; try lia.
    + assert (Hnz : bn <> byteno \/ ln <> lineno).
      { apply andb_false_iff in Ez. destruct Ez as [E|E];
          apply Z.eqb_neq in E; auto. }
      set (bo := Z.max 0 (Z.min (bn - byteno) 255)).
      set (lo := Z.max (-128) (Z.min (ln - lineno) 127)).
      assert (Hbl : bo <> 0 \/ lo <> 0) by (unfold bo, lo; lia).
      replace (negb (bo =? 0) || negb (lo =? 0)) with true.
      2:{ symmetry. apply orb_true_iff.
          destruct Hbl as [H|H]; [left|right]; apply negb_true_iff;
            now apply Z.eqb_neq. }
      simpl bind.
      destruct (IH (mkLnotab (table ++ [bo; Z.land lo 255]) (lineno + lo)
                      (byteno + bo)) ln bn
                  ltac:(simpl; unfold bo; lia) ltac:(simpl; unfold bo, lo; lia))
        as (es & Hrun & Hes & Hb & Hl & Hnil & Hlen).
      simpl in Hrun, Hb, Hl, Hnil, Hlen.
      exists ((bo, lo) :: es). rewrite Hrun. simpl. rewrite <- app_assoc. simpl.
      split; [reflexivity|]. split.
      { constructor; [|exact Hes]. unfold legacy_entry; simpl. unfold bo, lo. lia. }
      unfold sum_bytes, sum_lines in *. simpl. rewrite Hb, Hl.
      split; [lia|]. split; [lia|]. split.
      { split; [discriminate|]. lia. }
      intros Hbig. destruct es as [|e es]; [|simpl; lia].
      exfalso. destruct Hnil as [Hnil _]. specialize (Hnil eq_refl).
      unfold bo, lo in Hnil. lia.
Qed.

Lemma lnotab_update_spec st ln bn :
  ln_byteno st <= bn ->
  exists es,
    lnotab_update st ln bn =
      Ok (mkLnotab (lnotab st ++ encode_entries es) ln bn) /\
    Forall legacy_entry es /\
    sum_bytes es = bn - ln_byteno st /\ sum_lines es = ln - ln_lineno st /\
    (es = [] <-> bn = ln_byteno st /\ ln = ln_lineno st) /\
    (255 < bn - ln_byteno st \/ 127 < ln - ln_lineno st \/
     ln - ln_lineno st < -128 -> (2 <= List.length es)%nat).
Proof.
  intros Hbd. apply lnotab_update_loop_spec; [exact Hbd|]. lia.
Qed.

Lemma legacy_entry_line e : legacy_entry e -> -128 <= snd e <= 127.
Proof. now intros (_ & H & _). Qed.

Lemma modern_entry_line e : modern_entry e -> -128 <= snd e <= 127.
Proof. intros (_ & H & _). lia. Qed.



(** ** [assemble] *)

Section Assemble.

Variable ver : version.
Variable dis : Dis.

Lemma encode_instruction_length i :
  (2 <= List.length (encode_instruction ver dis i))%nat.
Proof. unfold encode_instruction. rewrite length_app. simpl. lia. Qed.

Lemma assemble_loop_cons h r l code w :
  assemble_loop ver dis h (r :: l) code w =
  bind (match starts_line (deref h r) with
        | Some line => update_lineno w line (Z.of_nat (List.length code))
        | None => Ok w
        end)
       (fun w1 => assemble_loop ver dis h l
                    (code ++ encode_instruction ver dis (deref h r)) w1).
Proof. reflexivity. Qed.

(** The loop of [assemble] with the writer of Python 3.10: no update
    fails, because the byte position only grows. *)
Lemma assemble_loop_modern h l : forall code st,
  lt_byteno st <= Z.of_nat (List.length code) ->
  exists st' es,
    assemble_loop ver dis h l code (Linetable st) =
      Ok (code ++ flat_map (fun r => encode_instruction ver dis (deref h r)) l,
          Linetable st') /\
    lt_byteno st' <=
      Z.of_nat (List.length
                  (code ++ flat_map (fun r => encode_instruction ver dis (deref h r)) l)) /\
    (l <> [] ->
     lt_byteno st' <
       Z.of_nat (List.length
                   (code ++ flat_map (fun r => encode_instruction ver dis (deref h r)) l))) /\
    linetable st' = linetable st ++ encode_entries es /\
    Forall modern_entry es /\
    sum_bytes es = lt_byteno st' - lt_byteno st /\
    sum_lines es = (lt_lineno st' - lt_lineno_delta st') -
                   (lt_lineno st - lt_lineno_delta st).
Proof.
  induction l as [|r l IH]; intros code st Hb.
  - exists st, []. simpl. rewrite !app_nil_r.
    unfold sum_bytes, sum_lines. simpl. repeat split; auto; try lia.
    intros H. contradiction.
  - rewrite assemble_loop_cons.
    assert (Hstep : exists st1 es1,
              match starts_line (deref h r) with
              | Some line =>
                  update_lineno (Linetable st) line (Z.of_nat (List.length code))
              | None => Ok (Linetable st)
              end = Ok (Linetable st1) /\
              lt_byteno st1 <= Z.of_nat (List.length code) /\
              linetable st1 = linetable st ++ encode_entries es1 /\
              Forall modern_entry es1 /\
              sum_bytes es1 = lt_byteno st1 - lt_byteno st /\
              sum_lines es1 = (lt_lineno st1 - lt_lineno_delta st1) -
                              (lt_lineno st - lt_lineno_delta st)).
    { destruct (starts_line (deref h r)) as [line|].
      - unfold update_lineno, linetable_update.
        destruct (_update_spec (linetable st)
                    (Z.of_nat (List.length code) - lt_byteno st)
                    (lt_lineno_delta st) ltac:(lia))
          as (es1 & -> & Hes & Hsb & Hsl & _).
        simpl. eexists _, es1. split; [reflexivity|]. simpl.
        repeat split; try assumption; lia.
      - exists st, []. rewrite app_nil_r. unfold sum_bytes, sum_lines. simpl.
        repeat split; auto; lia. }
    destruct Hstep as (st1 & es1 & -> & Hb1 & Ht1 & Hes1 & Hsb1 & Hsl1).
    simpl bind.
    pose proof (encode_instruction_length (deref h r)) as Hlen.
    destruct (IH (code ++ encode_instruction ver dis (deref h r)) st1)
      as (st' & es & Hrun & Hb' & Hne & Ht & Hes & Hsb & Hsl).
    { rewrite length_app. lia. }
    cbn [flat_map]. rewrite app_assoc.
    exists st', (es1 ++ es). split; [exact Hrun|]. split; [exact Hb'|].
    split.
    { intros _. destruct l as [|r' l'].
      - cbn [assemble_loop] in Hrun.
        assert (Est : st' = st1) by congruence. subst st'.
        rewrite !length_app. lia.
      - apply Hne. discriminate. }
    split; [rewrite Ht, Ht1, encode_entries_app, app_assoc; reflexivity|].
    split; [now apply Forall_app|].
    unfold sum_bytes, sum_lines in *. rewrite !map_app, !fold_right_app.
    assert (Hfold : forall (xs ys : list Z),
              fold_right Z.add (fold_right Z.add 0 ys) xs =
              fold_right Z.add 0 xs + fold_right Z.add 0 ys).
    { induction xs as [|x xs IHx]; intros ys; simpl; [reflexivity|].
      rewrite IHx. lia. }
    rewrite !Hfold. lia.
Qed.

Lemma bytes_ok l :
  Forall (fun b => 0 <= b < 256) l -> bytes l = Ok l.
Proof.
  intros H. unfold bytes.
  replace (forallb (fun b => (0 <=? b) && (b <? 256)) l) with true; [reflexivity|].
  symmetry. apply forallb_forall. rewrite Forall_forall in H.
  intros b Hb. specialize (H b Hb). apply andb_true_iff. split.
  - apply Z.leb_le. lia.
  - apply Z.ltb_lt. lia.
Qed.

Lemma land_255_range a : 0 <= Z.land a 0xFF < 256.
Proof.
  change 255 with (Z.ones 8). rewrite Z.land_ones by lia.
  apply Z.mod_pos_bound. reflexivity.
Qed.

Lemma encode_entries_range es :
  Forall (fun e => 0 <= fst e <= 255) es ->
  Forall (fun b => 0 <= b < 256) (encode_entries es).
Proof.
  induction 1 as [|e es He _ IH]; simpl; [constructor|].
  constructor; [lia|]. constructor; [apply land_255_range|exact IH].
Qed.

Lemma cache_padding_range n : Forall (fun b => 0 <= b < 256) (cache_padding n).
Proof.
  induction n as [|n IH]; simpl; [constructor|].
  constructor; [lia|]. constructor; [lia|exact IH].
Qed.

Lemma encode_instruction_range i :
  0 <= opcode i < 256 ->
  Forall (fun b => 0 <= b < 256) (encode_instruction ver dis i).
Proof.
  intros Hop. unfold encode_instruction. apply Forall_app. split.
  - constructor; [exact Hop|]. constructor; [apply land_255_range|constructor].
  - destruct (version_ge ver (3, 11)); [apply cache_padding_range|constructor].
Qed.

Lemma flat_map_range h (l : list ref) :
  (forall r, In r l -> 0 <= opcode (deref h r) < 256) ->
  Forall (fun b => 0 <= b < 256)
    (flat_map (fun r => encode_instruction ver dis (deref h r)) l).
Proof.
  induction l as [|r l IH]; intros H; cbn [flat_map]; [constructor|].
  apply Forall_app. split.
  - apply encode_instruction_range. apply H. now left.
  - apply IH. intros x Hx. apply H. now right.
Qed.

End Assemble.

Lemma fold_right_add_app (xs ys : list Z) :
  fold_right Z.add 0 (xs ++ ys) = fold_right Z.add 0 xs + fold_right Z.add 0 ys.
Proof.
  induction xs as [|x xs IH]; simpl; [reflexivity|]. rewrite IH. lia.
Qed.

Lemma sum_bytes_app es1 es2 :
  sum_bytes (es1 ++ es2) = sum_bytes es1 + sum_bytes es2.
Proof. unfold sum_bytes. now rewrite map_app, fold_right_add_app. Qed.

Lemma sum_lines_app es1 es2 :
  sum_lines (es1 ++ es2) = sum_lines es1 + sum_lines es2.
Proof. unfold sum_lines. now rewrite map_app, fold_right_add_app. Qed.

Lemma bytes_inv l l' : bytes l = Ok l' -> l' = l.
Proof.
  unfold bytes. destruct (forallb _ l); [|discriminate]. now intros [= <-].
Qed.

(** Claim C6, as stated, fails on the empty instruction list: [end] is
    called with a byte delta and a line delta of 0 and writes nothing, so
    the table stays empty. *)
Lemma assemble_empty_no_terminating_entry :
  assemble Py311.ver Py311.tables (heap_of []) [] 1 = Ok ([], []) /\
  ~ emits_terminating_entry Py311.ver Py311.tables (heap_of []) [] 1.
Proof.
  split; [reflexivity|].
  intros (code & st & st' & e & es & H1 & H2 & H3).
  simpl in H1. injection H1 as <- <-.
  vm_compute in H2. injection H2 as <-.
  simpl in H3. discriminate.
Qed.

(** Claim C6 (amended): from Python 3.10 on, for every instruction list,
    after the loop of [assemble] has left the writer in state [st], [end]
    writes the entries [es]: each within the ranges of the format, their
    byte deltas adding up to the distance from the last recorded position to
    the length of the code, their line deltas to the line delta still
    pending.  The whole table then adds up to the length of the code and to
    the last line, nothing is left over.  [es] is empty exactly when the
    list is empty, and it may hold several entries. *)
Theorem assemble_terminating_entries (ver : version) (dis : Dis) (h : heap)
    (l : list ref) (firstlineno : Z) :
  version_ge ver (3, 10) = true ->
  exists code st es0 es,
    assemble_loop ver dis h l [] (Linetable (mkLinetable [] firstlineno 0 0)) =
      Ok (code, Linetable st) /\
    linetable_end st (Z.of_nat (List.length code)) =
      Ok (mkLinetable (linetable st ++ encode_entries es) (lt_lineno st)
            (lt_lineno_delta st) (lt_byteno st)) /\
    linetable st = encode_entries es0 /\
    decode_entries (encode_entries (es0 ++ es)) = es0 ++ es /\
    Forall modern_entry es /\
    sum_bytes es = Z.of_nat (List.length code) - lt_byteno st /\
    sum_lines es = lt_lineno_delta st /\
    sum_bytes (es0 ++ es) = Z.of_nat (List.length code) /\
    sum_lines (es0 ++ es) = lt_lineno st - firstlineno /\
    (es = [] <-> l = []) /\
    (forall bytecode table,
       assemble ver dis h l firstlineno = Ok (bytecode, table) ->
       bytecode = code /\ table = encode_entries (es0 ++ es)) /\
    ((forall r, In r l -> 0 <= opcode (deref h r) < 256) ->
     assemble ver dis h l firstlineno = Ok (code, encode_entries (es0 ++ es))).
Proof.
  intros Hver.
  destruct (assemble_loop_modern ver dis h l [] (mkLinetable [] firstlineno 0 0))
    as (st & es0 & Hrun & Hb & Hne & Ht & Hes0 & Hsb0 & Hsl0); [simpl; lia|].
  simpl in Hrun, Hb, Hne, Ht, Hsb0, Hsl0.
  set (code := flat_map (fun r => encode_instruction ver dis (deref h r)) l) in *.
  destruct (_update_spec (linetable st)
              (Z.of_nat (List.length code) - lt_byteno st) (lt_lineno_delta st)
              ltac:(lia))
    as (es & Hend & Hes & Hsb & Hsl & Hnil & _).
  assert (Hend' : linetable_end st (Z.of_nat (List.length code)) =
                  Ok (mkLinetable (linetable st ++ encode_entries es)
                        (lt_lineno st) (lt_lineno_delta st) (lt_byteno st))).
  { unfold linetable_end. now rewrite Hend. }
  assert (Hasm : assemble ver dis h l firstlineno =
                 bytecode <- bytes code ;;
                 table <- bytes (encode_entries (es0 ++ es)) ;;
                 Ok (bytecode, table)).
  { unfold assemble, version_lt, linetable_writer. rewrite Hver. simpl.
    rewrite Hrun. simpl. rewrite Hend'. simpl.
    now rewrite Ht, encode_entries_app. }
  exists code, st, es0, es.
  split; [exact Hrun|]. split; [exact Hend'|]. split; [exact Ht|].
  split.
  { apply decode_encode_entries. apply Forall_app. split.
    - eapply Forall_impl; [|exact Hes0]. intros e. apply modern_entry_line.
    - eapply Forall_impl; [|exact Hes]. intros e. apply modern_entry_line. }
  split; [exact Hes|]. split; [exact Hsb|]. split; [exact Hsl|].
  split; [rewrite sum_bytes_app; lia|]. split; [rewrite sum_lines_app; lia|].
  split.
  { split.
    - intros E. destruct l as [|r l]; [reflexivity|]. exfalso.
      assert (Hlt : lt_byteno st < Z.of_nat (List.length code))
        by (apply Hne; discriminate).
      apply Hnil in E. lia.
    - intros ->. apply Hnil. simpl in Hrun. injection Hrun as <-.
      unfold code. simpl. lia. }
  split.
  - intros bytecode table E. rewrite Hasm in E.
    apply bind_ok in E. destruct E as (b & Eb & E).
    apply bind_ok in E. destruct E as (t & Et & [= <- <-]).
    split; [now apply bytes_inv in Eb|now apply bytes_inv in Et].
  - intros Hop. rewrite Hasm.
    rewrite bytes_ok by (now apply flat_map_range). simpl.
    rewrite bytes_ok; [reflexivity|].
    apply encode_entries_range. apply Forall_app. split.
    + eapply Forall_impl; [|exact Hes0]. intros e (He & _). lia.
    + eapply Forall_impl; [|exact Hes]. intros e (He & _). lia.
Qed.

Lemma assemble_terminating_entries_witness :
  version_ge Py311.ver (3, 10) = true /\
  exists code st es0 es,
    assemble_loop Py311.ver Py311.tables loop311 [0; 1; 2; 3; 4; 5]%nat []
      (Linetable (mkLinetable [] 1 0 0)) = Ok (code, Linetable st) /\
    linetable_end st (Z.of_nat (List.length code)) =
      Ok (mkLinetable (linetable st ++ encode_entries es) (lt_lineno st)
            (lt_lineno_delta st) (lt_byteno st)) /\
    linetable st = encode_entries es0 /\
    decode_entries (encode_entries (es0 ++ es)) = es0 ++ es /\
    Forall modern_entry es /\
    sum_bytes es = Z.of_nat (List.length code) - lt_byteno st /\
    sum_lines es = lt_lineno_delta st /\
    sum_bytes (es0 ++ es) = Z.of_nat (List.length code) /\
    sum_lines (es0 ++ es) = lt_lineno st - 1 /\
    (es = [] <-> [0; 1; 2; 3; 4; 5]%nat = []) /\
    (forall bytecode table,
       assemble Py311.ver Py311.tables loop311 [0; 1; 2; 3; 4; 5]%nat 1 =
         Ok (bytecode, table) ->
       bytecode = code /\ table = encode_entries (es0 ++ es)) /\
    ((forall r, In r [0; 1; 2; 3; 4; 5]%nat ->
        0 <= opcode (deref loop311 r) < 256) ->
     assemble Py311.ver Py311.tables loop311 [0; 1; 2; 3; 4; 5]%nat 1 =
       Ok (code, encode_entries (es0 ++ es))).
Proof.
  split; [reflexivity|].
  exact (assemble_terminating_entries Py311.ver Py311.tables loop311
           [0; 1; 2; 3; 4; 5]%nat 1 eq_refl).
Defined.

(** ** Canonicalization *)

Lemma evolves_refl h : evolves h h.
Proof. split; [lia|]. intros x _. auto. Qed.

Lemma evolves_trans h1 h2 h3 : evolves h1 h2 -> evolves h2 h3 -> evolves h1 h3.
Proof.
  intros [Hn12 H12] [Hn23 H23]. split; [lia|]. intros x Hx.
  destruct (H12 x Hx) as (Hn & Hv & Ha).
  destruct (H23 x ltac:(lia)) as (Hn' & Hv' & Ha').
  split; [congruence|]. split.
  - destruct Hv' as [Hv'|Hv']; [|now right].
    destruct Hv as [Hv|Hv]; [left|right]; congruence.
  - destruct Ha' as [Ha'|Ha']; [|now right].
    destruct Ha as [Ha|Ha]; [left|right]; congruence.
Qed.

Lemma evolves_super_load h h' x :
  evolves h h' -> (x < next_ref h)%nat ->
  is_super_load (deref h x) = false -> is_super_load (deref h' x) = false.
Proof.
  intros [_ H] Hx. destruct (H x Hx) as (Hn & Hv & _).
  unfold is_super_load. rewrite Hn. destruct Hv as [->| ->]; [auto|].
  intros _. simpl. apply andb_false_r.
Qed.

Lemma evolves_call0 h h' x :
  evolves h h' -> (x < next_ref h)%nat ->
  is_call0 (deref h x) = false -> is_call0 (deref h' x) = false.
Proof.
  intros [_ H] Hx. destruct (H x Hx) as (Hn & _ & Ha).
  unfold is_call0. rewrite Hn. destruct Ha as [->| ->]; [auto|].
  intros _. simpl. apply andb_false_r.
Qed.

Section Canonicalize.

Variable ver : version.
Variable dis : Dis.
Variable code : Code.

Lemma create_instruction_spec h name a av tgt r h1 :
  create_instruction dis h name a av tgt = Ok (r, h1) ->
  r = next_ref h /\ next_ref h1 = S (next_ref h) /\
  opname (deref h1 r) = name /\
  forall x, x <> r -> deref h1 x = deref h x.
Proof.
  unfold create_instruction. destruct (dis_opmap dis name) as [op|]; [|discriminate].
  set (i := mkInstruction _ _ _ _ _ _ _ _ _).
  destruct (alloc_spec h i) as (Hn & Hr & Hd & Hf).
  destruct (alloc h i) as [r' h'] eqn:Ea. simpl in Hn, Hr, Hd, Hf.
  intros [= <- <-]. subst r'. repeat split; try assumption.
  rewrite Hd. reflexivity.
Qed.

Lemma evolves_set_2 h x :
  (x < next_ref h)%nat -> evolves h (set_arg_argval_2 h x).
Proof.
  intros Hx. unfold set_arg_argval_2. split; [rewrite next_ref_store; lia|].
  intros y Hy. destruct (Nat.eq_dec y x) as [->|Hne].
  - rewrite deref_store_eq. simpl. auto.
  - rewrite deref_store_ne by exact Hne. auto.
Qed.

Lemma next_ref_set_2 h x : next_ref (set_arg_argval_2 h x) = next_ref h.
Proof. reflexivity. Qed.

Lemma opname_set_2 h x y :
  opname (deref (set_arg_argval_2 h x) y) = opname (deref h y).
Proof.
  unfold set_arg_argval_2. destruct (Nat.eq_dec y x) as [->|Hne].
  - now rewrite deref_store_eq.
  - now rewrite deref_store_ne.
Qed.

(** The rewriting of one call site. *)
Lemma expand_super_spec h output nexti after h1 out1 :
  (nexti < next_ref h)%nat ->
  Forall (fun x => (x < next_ref h)%nat) after ->
  expand_super ver dis code h output nexti after = Ok (h1, out1) ->
  out1 = output ++ [next_ref h; S (next_ref h)] /\
  next_ref h1 = S (S (next_ref h)) /\
  opname (deref h1 (next_ref h)) = "LOAD_DEREF" /\
  (opname (deref h1 (S (next_ref h))) = "LOAD_DEREF" \/
   opname (deref h1 (S (next_ref h))) = "LOAD_FAST") /\
  evolves h h1.
Proof.
  intros Hn Hafter. unfold expand_super. intros E.
  apply bind_ok in E. destruct E as (_ & _ & E).
  apply bind_ok in E. destruct E as ([r1 ha] & E1 & E).
  destruct (create_instruction_spec _ _ _ _ _ _ _ E1) as (-> & Hna & Hopa & Hfa).
  destruct (co_varnames code) as [|first_var vars]; [discriminate|].
  apply bind_ok in E. destruct E as ([r2 hb] & E2 & E).
  assert (H2 : r2 = next_ref ha /\ next_ref hb = S (next_ref ha) /\
               (opname (deref hb r2) = "LOAD_DEREF" \/
                opname (deref hb r2) = "LOAD_FAST") /\
               forall x, x <> r2 -> deref hb x = deref ha x).
  { destruct (str_in first_var (co_cellvars code ++ co_freevars code));
      destruct (create_instruction_spec _ _ _ _ _ _ _ E2) as (? & ? & ? & ?); auto. }
  destruct H2 as (-> & Hnb & Hopb & Hfb). rewrite Hna in *.
  assert (Hhb : evolves h hb).
  { split; [lia|]. intros x Hx. rewrite Hfb, Hfa by lia. auto. }
  assert (Hres : evolves hb h1 /\ next_ref h1 = next_ref hb /\
                 out1 = output ++ [next_ref h; S (next_ref h)] /\
                 forall y, opname (deref h1 y) = opname (deref hb y)).
  { destruct (String.eqb _ "PRECALL").
    - destruct after as [|call_inst after']; [discriminate|].
      injection E as <- <-. inversion Hafter; subst.
      split; [|split; [reflexivity|split; [reflexivity|]]].
      + apply (evolves_trans _ (set_arg_argval_2 hb nexti)).
        * apply evolves_set_2. lia.
        * apply evolves_set_2. rewrite next_ref_set_2. lia.
      + intros y. now rewrite !opname_set_2.
    - injection E as <- <-.
      split; [|split; [reflexivity|split; [reflexivity|]]].
      + apply evolves_set_2. lia.
      + intros y. now rewrite opname_set_2. }
  destruct Hres as (Hev & Hn1 & -> & Hop1).
  split; [reflexivity|]. split; [lia|].
  split; [rewrite Hop1, Hfb by lia; exact Hopa|].
  split; [rewrite Hop1; exact Hopb|].
  exact (evolves_trans _ _ _ Hhb Hev).
Qed.

Lemma explicit_super_loop_cons h r l output :
  explicit_super_loop ver dis code h (r :: l) output =
  if is_super_load (deref h r) then
    match l with
    | [] => Raise IndexError
    | nexti :: after =>
        if is_call0 (deref h nexti) then
          bind (expand_super ver dis code h (output ++ [r]) nexti after)
               (fun x => let '(h1, output2) := x in
                         explicit_super_loop ver dis code h1 l output2)
        else explicit_super_loop ver dis code h l (output ++ [r])
    end
  else explicit_super_loop ver dis code h l (output ++ [r]).
Proof. reflexivity. Qed.

Lemma added_load_not_super h h' x :
  added_load h h' x -> is_super_load (deref h' x) = false.
Proof. intros [_ [E|E]]; unfold is_super_load; now rewrite E. Qed.

Lemma added_load_not_call0 h h' x :
  added_load h h' x -> is_call0 (deref h' x) = false.
Proof. intros [_ [E|E]]; unfold is_call0; now rewrite E. Qed.

(** A run of [explicit_super] that returns: what it appends is settled. *)
Lemma explicit_super_loop_first : forall rest h output h' out,
  Forall (fun x => (x < next_ref h)%nat) rest ->
  explicit_super_loop ver dis code h rest output = Ok (h', out) ->
  evolves h h' /\
  exists tail,
    out = output ++ tail /\ settled h' tail /\
    (forall r rest', rest = r :: rest' -> exists tail', tail = r :: tail') /\
    Forall (fun x => In x rest \/ added_load h h' x) tail.
Proof.
  induction rest as [|r rest IH]; intros h output h' out Hb E.
  - simpl in E. injection E as <- <-. split; [apply evolves_refl|].
    exists []. rewrite app_nil_r. repeat split; auto. discriminate.
  - rewrite explicit_super_loop_cons in E.
    inversion Hb as [|? ? Hr Hb']; subst.
    assert (Hkeep : forall hx tail',
              evolves h hx -> evolves hx h' ->
              settled h' tail' ->
              (forall n after, rest = n :: after -> exists t, tail' = n :: t) ->
              (is_super_load (deref h r) = true ->
               exists n after, rest = n :: after /\
                               is_call0 (deref h n) = false) ->
              settled h' (r :: tail')).
    { intros hx tail' Hev1 Hev2 Hs Hhd Hnext. simpl. split; [|exact Hs].
      intros HL. destruct (is_super_load (deref h r)) eqn:HL0.
      - destruct (Hnext eq_refl) as (n & after & -> & HC).
        destruct (Hhd n after eq_refl) as (t & ->).
        exists n, t. split; [reflexivity|].
        inversion Hb'; subst.
        apply (evolves_call0 h); [exact (evolves_trans _ _ _ Hev1 Hev2)| |]; assumption.
      - rewrite (evolves_super_load h h' r (evolves_trans _ _ _ Hev1 Hev2) Hr HL0) in HL.
        discriminate. }
    assert (Hplain : explicit_super_loop ver dis code h rest (output ++ [r]) =
                       Ok (h', out) ->
                     (is_super_load (deref h r) = true ->
                      exists n after, rest = n :: after /\
                                      is_call0 (deref h n) = false) ->
                     evolves h h' /\
                     exists tail,
                       out = output ++ tail /\ settled h' tail /\
                       (forall r0 rest', r :: rest = r0 :: rest' ->
                                         exists tail', tail = r0 :: tail') /\
                       Forall (fun x => In x (r :: rest) \/ added_load h h' x) tail).
    { intros E' Hnext.
      destruct (IH h (output ++ [r]) h' out Hb' E') as (Hev & tail' & -> & Hs & Hhd & Hall).
      split; [exact Hev|]. exists (r :: tail'). rewrite <- app_assoc.
      split; [reflexivity|]. split.
      - apply (Hkeep h); auto. apply evolves_refl.
      - split.
        + intros r0 rest' [= <- <-]. now exists tail'.
        + constructor; [left; now left|].
          eapply Forall_impl; [|exact Hall]. simpl. intros x [Hx|Hx]; auto. }
    destruct (is_super_load (deref h r)) eqn:HL; [|apply Hplain; [exact E|discriminate]].
    destruct rest as [|nexti after]; [discriminate|].
    destruct (is_call0 (deref h nexti)) eqn:HC.
    + apply bind_ok in E. destruct E as ([h1 output2] & Ex & E).
      inversion Hb' as [|? ? Hn Hafter]; subst.
      destruct (expand_super_spec h (output ++ [r]) nexti after h1 output2 Hn Hafter Ex)
        as (-> & Hn1 & Hop1 & Hop2 & Hev1).
      assert (Hb1 : Forall (fun x => (x < next_ref h1)%nat) (nexti :: after)).
      { eapply Forall_impl; [|exact Hb']. simpl. intros; lia. }
      destruct (IH h1 _ h' out Hb1 E) as (Hev & tail' & -> & Hs & Hhd & Hall).
      split; [exact (evolves_trans _ _ _ Hev1 Hev)|].
      assert (Ha1 : added_load h h' (next_ref h)).
      { destruct Hev as [Hnn Hev]. split; [lia|].
        destruct (Hev (next_ref h) ltac:(lia)) as (-> & _). now left. }
      assert (Ha2 : added_load h h' (S (next_ref h))).
      { destruct Hev as [Hnn Hev]. split; [lia|].
        destruct (Hev (S (next_ref h)) ltac:(lia)) as (-> & _). exact Hop2. }
      exists (r :: next_ref h :: S (next_ref h) :: tail').
      rewrite <- !app_assoc. split; [reflexivity|]. split.
      * simpl. split.
        { intros _. exists (next_ref h), (S (next_ref h) :: tail').
          split; [reflexivity|]. now apply (added_load_not_call0 h). }
        split.
        { intros HL1. rewrite (added_load_not_super h h' _ Ha1) in HL1. discriminate. }
        split; [|exact Hs].
        intros HL2. rewrite (added_load_not_super h h' _ Ha2) in HL2. discriminate.
      * split.
        -- intros r0 rest' [= <- <-]. eexists. reflexivity.
        -- constructor; [left; now left|].
           constructor; [now right|]. constructor; [now right|].
           eapply Forall_impl; [|exact Hall]. simpl. intros x [Hx|[Hx1 Hx2]].
           ++ left. now right.
           ++ right. split; [lia|exact Hx2].
    + apply Hplain; [exact E|]. intros _. now exists nexti, after.
Qed.

(** On a settled list [explicit_super] changes nothing. *)
Lemma explicit_super_loop_settled : forall rest h output,
  settled h rest ->
  explicit_super_loop ver dis code h rest output = Ok (h, output ++ rest).
Proof.
  induction rest as [|r rest IH]; intros h output Hs.
  - simpl. now rewrite app_nil_r.
  - rewrite explicit_super_loop_cons. destruct Hs as [Hr Hs].
    replace (output ++ r :: rest) with ((output ++ [r]) ++ rest)
      by (now rewrite <- app_assoc).
    destruct (is_super_load (deref h r)); [|now apply IH].
    destruct (Hr eq_refl) as (n & after & -> & ->). now apply IH.
Qed.

Lemma remove_load_call_method_cons h r l :
  remove_load_call_method dis h (r :: l) =
  bind (match dict_find rewrites (opname (deref h r)) with
        | Some name' =>
            match dis_opmap dis name' with
            | Some op =>
                Ok (store h r (set_opcode (set_opname (deref h r) name') op))
            | None => Raise KeyError
            end
        | None => Ok h
        end)
       (fun h1 => remove_load_call_method dis h1 l).
Proof. reflexivity. Qed.

(** [remove_load_call_method] leaves no name that it rewrites. *)
Lemma remove_load_call_method_spec : forall l h h',
  remove_load_call_method dis h l = Ok h' ->
  next_ref h' = next_ref h /\
  (forall x, dict_find rewrites (opname (deref h x)) = None ->
             deref h' x = deref h x) /\
  (forall x, In x l -> dict_find rewrites (opname (deref h' x)) = None).
Proof.
  induction l as [|r l IH]; intros h h' E.
  - simpl in E. injection E as <-. repeat split; auto. intros x [].
  - rewrite remove_load_call_method_cons in E.
    apply bind_ok in E. destruct E as (h1 & E1 & E).
    destruct (IH _ _ E) as (Hn & Hf & Hk).
    assert (H1 : next_ref h1 = next_ref h /\
                 (forall x, dict_find rewrites (opname (deref h x)) = None ->
                            deref h1 x = deref h x) /\
                 dict_find rewrites (opname (deref h1 r)) = None).
    { destruct (dict_find rewrites (opname (deref h r))) as [name'|] eqn:Ef.
      - destruct (dis_opmap dis name') as [op|]; [|discriminate].
        injection E1 as <-. split; [reflexivity|]. split.
        + intros x Hx. apply deref_store_ne. intros ->. congruence.
        + rewrite deref_store_eq. simpl.
          unfold rewrites in Ef. simpl in Ef.
          destruct (String.eqb (opname (deref h r)) "LOAD_METHOD").
          * injection Ef as <-. reflexivity.
          * destruct (String.eqb (opname (deref h r)) "CALL_METHOD");
              [|discriminate].
            injection Ef as <-. reflexivity.
      - injection E1 as <-. auto. }
    destruct H1 as (Hn1 & Hf1 & Hk1).
    split; [congruence|]. split.
    + intros x Hx. rewrite Hf; [now apply Hf1|]. now rewrite Hf1.
    + intros x [<-|Hx]; [|now apply Hk]. rewrite Hf; assumption.
Qed.

Lemma remove_load_call_method_noop : forall l h,
  (forall x, In x l -> dict_find rewrites (opname (deref h x)) = None) ->
  remove_load_call_method dis h l = Ok h.
Proof.
  induction l as [|r l IH]; intros h H; [reflexivity|].
  rewrite remove_load_call_method_cons.
  rewrite (H r (or_introl eq_refl)). simpl. apply IH.
  intros x Hx. apply H. now right.
Qed.

Lemma passes_idempotent (apply_remove : bool) h l h1 l1 :
  allocated h l ->
  (h2 <- (if apply_remove then remove_load_call_method dis h l else Ok h) ;;
   explicit_super ver dis code h2 l) = Ok (h1, l1) ->
  (h2 <- (if apply_remove then remove_load_call_method dis h1 l1 else Ok h1) ;;
   explicit_super ver dis code h2 l1) = Ok (h1, l1).
Proof.
  intros Hl E. apply bind_ok in E. destruct E as (h2 & E1 & E2).
  assert (H2 : next_ref h2 = next_ref h /\
               (apply_remove = true ->
                forall x, In x l -> dict_find rewrites (opname (deref h2 x)) = None)).
  { destruct apply_remove.
    - destruct (remove_load_call_method_spec _ _ _ E1) as (Hn & _ & Hk). auto.
    - injection E1 as <-. split; [reflexivity|discriminate]. }
  destruct H2 as (Hn2 & Hk2).
  assert (Hl2 : Forall (fun x => (x < next_ref h2)%nat) l).
  { unfold allocated in Hl. now rewrite Hn2. }
  unfold explicit_super in E2.
  destruct (explicit_super_loop_first l h2 [] h1 l1 Hl2 E2)
    as (Hev & tail & Hout & Hs & _ & Hall).
  simpl in Hout. subst tail.
  assert (E1' : (if apply_remove then remove_load_call_method dis h1 l1 else Ok h1)
                = Ok h1).
  { destruct apply_remove; [|reflexivity].
    apply remove_load_call_method_noop. intros x Hx.
    rewrite Forall_forall in Hall, Hl2.
    destruct (Hall x Hx) as [Hin|[_ [Ho|Ho]]].
    - destruct Hev as [_ Hev]. destruct (Hev x (Hl2 x Hin)) as (-> & _).
      now apply Hk2.
    - now rewrite Ho.
    - now rewrite Ho. }
  rewrite E1'. simpl bind. unfold explicit_super.
  now rewrite explicit_super_loop_settled.
Qed.

End Canonicalize.

(** Claim C8: when [remove_load_call_method] and [explicit_super] have run
    on a list without error, running them again changes neither the list
    nor any instruction: with the version test of [cleaned_instructions]
    ([canonicalize]), and also when both are always run ([both_passes]). *)
Theorem canonicalize_idempotent (ver : version) (dis : Dis) (code : Code)
    (h : heap) (l : list ref) :
  allocated h l ->
  (forall h1 l1, canonicalize ver dis code h l = Ok (h1, l1) ->
                 canonicalize ver dis code h1 l1 = Ok (h1, l1)) /\
  (forall h1 l1, both_passes ver dis code h l = Ok (h1, l1) ->
                 both_passes ver dis code h1 l1 = Ok (h1, l1)).
Proof.
  intros Hl. split; intros h1 l1 E.
  - exact (passes_idempotent ver dis code (version_lt ver (3, 11)) h l h1 l1 Hl E).
  - exact (passes_idempotent ver dis code true h l h1 l1 Hl E).
Qed.

Lemma canonicalize_idempotent_witness :
  let l := [0; 1; 2; 3; 4]%nat in
  allocated super39 l /\
  exists h1 l1,
    canonicalize Py39.ver Py39.tables super_code super39 l = Ok (h1, l1) /\
    l1 = [0; 5; 6; 1; 2; 3; 4]%nat /\
    canonicalize Py39.ver Py39.tables super_code h1 l1 = Ok (h1, l1).
Proof.
  intros l.
  assert (Hl : allocated super39 l) by (unfold allocated, l; simpl; repeat constructor).
  split; [exact Hl|].
  destruct (canonicalize Py39.ver Py39.tables super_code super39 l)
    as [[h1 l1]|e] eqn:E; [|vm_compute in E; discriminate].
  exists h1, l1. split; [reflexivity|]. split.
  - vm_compute in E. congruence.
  - exact (proj1 (canonicalize_idempotent Py39.ver Py39.tables super_code
                    super39 l Hl) h1 l1 E).
Defined.

(** ** The round trip in safe mode *)

Lemma set_arg_id i : set_arg i (arg i) = i.
Proof. now destruct i. Qed.

Lemma set_offset_id i : set_offset i (offset i) = i.
Proof. now destruct i. Qed.

Lemma set_starts_line_id i : set_starts_line i (starts_line i) = i.
Proof. now destruct i. Qed.

Lemma set_target_id i : set_target i (target i) = i.
Proof. now destruct i. Qed.

Lemma same_assembly_refl i : same_assembly i i.
Proof. now repeat split. Qed.

Lemma same_assembly_sym i j : same_assembly i j -> same_assembly j i.
Proof. intros (H1 & H2 & H3). now repeat split. Qed.

Lemma same_assembly_trans i j k :
  same_assembly i j -> same_assembly j k -> same_assembly i k.
Proof.
  intros (H1 & H2 & H3) (G1 & G2 & G3). repeat split; congruence.
Qed.

Lemma same_code_refl i : same_code i i.
Proof. now repeat split. Qed.

Lemma same_code_trans i j k : same_code i j -> same_code j k -> same_code i k.
Proof.
  intros (H1 & H2 & H3 & H4 & H5) (G1 & G2 & G3 & G4 & G5).
  repeat split; congruence.
Qed.

Lemma convert_instructions_spec decoded : forall h h0 l0,
  convert_instructions h decoded = (h0, l0) ->
  l0 = seq (next_ref h) (List.length decoded) /\
  (forall x, (x < next_ref h)%nat -> deref h0 x = deref h x) /\
  Forall2 (fun r i => deref h0 r = convert_instruction i) l0 decoded.
Proof.
  induction decoded as [|i decoded IH]; intros h h0 l0;
    cbn [convert_instructions List.length seq].
  - intros [= <- <-]. repeat split. constructor.
  - destruct (alloc_spec h (convert_instruction i)) as (Hn & Hr & Hd & Hf).
    destruct (alloc h (convert_instruction i)) as [r h1].
    destruct (convert_instructions h1 decoded) as [h2 l] eqn:Ec.
    simpl in Hn, Hr, Hd, Hf. subst r.
    intros [= <- <-].
    destruct (IH _ _ _ Ec) as (-> & Hfr & HF). rewrite Hn.
    split; [reflexivity|]. split.
    + intros x Hx. rewrite Hfr by lia. apply Hf. lia.
    + constructor; [|now rewrite <- Hn]. rewrite Hfr by lia. exact Hd.
Qed.

Lemma Forall2_In_l {A B} (R : A -> B -> Prop) l1 l2 x :
  Forall2 R l1 l2 -> In x l1 -> exists y, In y l2 /\ R x y.
Proof.
  induction 1 as [|a b l1 l2 Hab _ IH]; intros Hin; [destruct Hin|].
  destruct Hin as [<-|Hin].
  - exists b. split; [now left|exact Hab].
  - destruct (IH Hin) as (y & Hy & Hr). exists y. split; [now right|exact Hr].
Qed.

Lemma Forall2_In_r {A B} (R : A -> B -> Prop) l1 l2 y :
  Forall2 R l1 l2 -> In y l2 -> exists x, In x l1 /\ R x y.
Proof.
  induction 1 as [|a b l1 l2 Hab _ IH]; intros Hin; [destruct Hin|].
  destruct Hin as [<-|Hin].
  - exists a. split; [now left|exact Hab].
  - destruct (IH Hin) as (x & Hx & Hr). exists x. split; [now right|exact Hr].
Qed.

Lemma opt_eqb_Some o k : opt_eqb o (Some k) = true <-> o = Some k.
Proof.
  destruct o as [x|]; simpl.
  - rewrite Z.eqb_eq. split; congruence.
  - split; discriminate.
Qed.

Lemma dict_last_map_Some (f : ref -> option Z) (l : list ref) k t :
  dict_last opt_eqb (map (fun r => (f r, r)) l) k = Some t ->
  In t l /\ opt_eqb (f t) k = true.
Proof.
  induction l as [|a l IH]; simpl; [discriminate|].
  destruct (dict_last opt_eqb (map (fun r => (f r, r)) l) k) as [t'|].
  - intros [= <-]. destruct (IH eq_refl) as (Hin & He). split; [now right|exact He].
  - destruct (opt_eqb (f a) k) eqn:Ea; [|discriminate].
    intros [= <-]. split; [now left|exact Ea].
Qed.

Lemma dict_last_map_In (f : ref -> option Z) (l : list ref) k r :
  In r l -> opt_eqb (f r) k = true ->
  exists t, dict_last opt_eqb (map (fun r => (f r, r)) l) k = Some t.
Proof.
  induction l as [|a l IH]; intros Hin He; [destruct Hin|]. simpl.
  destruct (dict_last opt_eqb (map (fun r => (f r, r)) l) k) as [t'|] eqn:Ed.
  - now exists t'.
  - destruct Hin as [->|Hin].
    + rewrite He. now exists r.
    + destruct (IH Hin He) as (t & Et). discriminate.
Qed.

Section RoundTrip.

Variable ver : version.
Variable dis : Dis.

Lemma virtualize_jumps_loop_cons jt h r l :
  virtualize_jumps_loop dis jt h (r :: l) =
  bind (if is_jump dis (deref h r) then
          match argval (deref h r) with
          | PyInt av =>
              bind (probe_target dis h jt av [0; 2; 4; 6])
                (fun t => match t with
                          | Some t' =>
                              Ok (store h r (set_target (deref h r) (Some t')))
                          | None => Ok h
                          end)
          | _ => Raise TypeError
          end
        else Ok h)
       (fun h1 => virtualize_jumps_loop dis jt h1 l).
Proof. reflexivity. Qed.

Lemma only_target_opcode h hc x :
  (forall x, exists tg, deref hc x = set_target (deref h x) tg) ->
  same_code (deref hc x) (deref h x) /\
  starts_line (deref hc x) = starts_line (deref h x).
Proof.
  intros H. destruct (H x) as (tg & ->). repeat split.
Qed.

(** The loop of [virtualize_jumps] on a list in which the offset in each
    jump's [argval] is the offset of an instruction that is not an
    EXTENDED_ARG: only [target] is assigned, and every jump gets the
    object that the dictionary holds for its [argval]. *)
Lemma virtualize_jumps_loop_spec jt h rest : forall hc,
  (forall x, exists tg, deref hc x = set_target (deref h x) tg) ->
  (forall r, In r rest -> is_jump dis (deref h r) = true ->
     exists av t, argval (deref h r) = PyInt av /\
       dict_last opt_eqb jt (Some (av + 0)) = Some t /\
       is_extended_arg dis (deref h t) = false) ->
  exists h',
    virtualize_jumps_loop dis jt hc rest = Ok h' /\
    (forall x, exists tg, deref h' x = set_target (deref h x) tg) /\
    (forall x av t, argval (deref h x) = PyInt av ->
       dict_last opt_eqb jt (Some (av + 0)) = Some t ->
       target (deref hc x) = Some t -> target (deref h' x) = Some t) /\
    (forall x av t, In x rest -> is_jump dis (deref h x) = true ->
       argval (deref h x) = PyInt av ->
       dict_last opt_eqb jt (Some (av + 0)) = Some t ->
       target (deref h' x) = Some t).
Proof.
  induction rest as [|r rest IH]; intros hc Hc Hok.
  - exists hc. split; [reflexivity|]. split; [exact Hc|]. split; [auto|].
    intros x av t [].
  - rewrite virtualize_jumps_loop_cons.
    destruct (only_target_opcode h hc r Hc) as ((Hop & _ & _ & Hav & _) & _).
    assert (Hj : is_jump dis (deref hc r) = is_jump dis (deref h r))
      by (unfold is_jump; now rewrite Hop).
    rewrite Hj, Hav.
    destruct (is_jump dis (deref h r)) eqn:Ej.
    + destruct (Hok r (or_introl eq_refl) Ej) as (av & t & Eav & Ed & Ext).
      rewrite Eav. cbn [probe_target]. rewrite Ed.
      destruct (only_target_opcode h hc t Hc) as ((Hopt & _) & _).
      unfold is_extended_arg in *. rewrite Hopt, Ext. simpl.
      destruct (IH (store hc r (set_target (deref hc r) (Some t))))
        as (h' & Hrun & Hc' & Hst & Hin).
      * intros x. destruct (Nat.eq_dec x r) as [->|Hne].
        -- rewrite deref_store_eq. destruct (Hc r) as (tg & ->).
           now exists (Some t).
        -- rewrite deref_store_ne by exact Hne. apply Hc.
      * intros x Hx. apply Hok. now right.
      * exists h'. split; [exact Hrun|]. split; [exact Hc'|]. split.
        -- intros x av' t' Eav' Ed' Et'. apply (Hst x av' t' Eav' Ed').
           destruct (Nat.eq_dec x r) as [->|Hne].
           ++ rewrite deref_store_eq. simpl. congruence.
           ++ now rewrite deref_store_ne.
        -- intros x av' t' [<-|Hx] Ejx Eav' Ed'.
           ++ apply (Hst r av' t' Eav' Ed'). rewrite deref_store_eq. simpl.
              congruence.
           ++ now apply (Hin x av' t').
    + simpl. destruct (IH hc Hc) as (h' & Hrun & Hc' & Hst & Hin).
      * intros x Hx. apply Hok. now right.
      * exists h'. split; [exact Hrun|]. split; [exact Hc'|]. split; [exact Hst|].
        intros x av' t' [<-|Hx] Ejx Eav' Ed'; [congruence|].
        now apply (Hin x av' t').
Qed.

Lemma strip_extended_args_plain h l :
  (forall r, In r l -> is_extended_arg dis (deref h r) = false) ->
  strip_extended_args dis h l = l.
Proof.
  unfold strip_extended_args. induction l as [|r l IH]; intros H; simpl;
    [reflexivity|].
  rewrite (H r) by now left. simpl. f_equal. apply IH.
  intros x Hx. apply H. now right.
Qed.


(** The line-number passes read and write [starts_line] only. *)
Lemma propagate_line_nums_assembly l : forall cur h h',
  (forall x, same_assembly (deref h x) (deref h' x)) ->
  forall x, same_assembly (deref (propagate_line_nums_from cur h l) x)
                          (deref (propagate_line_nums_from cur h' l) x).
Proof.
  induction l as [|r l IH]; intros cur h h' H; cbn [propagate_line_nums_from];
    [exact H|].
  destruct (H r) as (Hop & Ha & Hsl). rewrite Hsl.
  destruct (starts_line (deref h' r)) as [line|]; apply IH; [exact H|].
  intros y. destruct (Nat.eq_dec y r) as [->|Hne].
  - rewrite !deref_store_eq. repeat split; assumption.
  - rewrite !deref_store_ne by exact Hne. apply H.
Qed.

Lemma remove_extra_line_nums_assembly l : forall cur h h',
  (forall x, same_assembly (deref h x) (deref h' x)) ->
  forall x, same_assembly (deref (remove_extra_line_nums_from cur h l) x)
                          (deref (remove_extra_line_nums_from cur h' l) x).
Proof.
  induction l as [|r l IH]; intros cur h h' H;
    cbn [remove_extra_line_nums_from]; [exact H|].
  destruct (H r) as (Hop & Ha & Hsl). rewrite Hsl.
  destruct (starts_line (deref h' r)) as [line|]; [|now apply IH].
  destruct (opt_Z_eqb cur line); apply IH; [|exact H].
  intros y. destruct (Nat.eq_dec y r) as [->|Hne].
  - rewrite !deref_store_eq. repeat split; assumption.
  - rewrite !deref_store_ne by exact Hne. apply H.
Qed.

Lemma propagate_line_nums_fields l : forall cur h x,
  exists sl, deref (propagate_line_nums_from cur h l) x =
             set_starts_line (deref h x) sl.
Proof.
  induction l as [|r l IH]; intros cur h x; cbn [propagate_line_nums_from].
  - exists (starts_line (deref h x)). now rewrite set_starts_line_id.
  - destruct (starts_line (deref h r)) as [line|]; [apply IH|].
    destruct (IH cur (store h r (set_starts_line (deref h r) cur)) x)
      as (sl & ->).
    exists sl. destruct (Nat.eq_dec x r) as [->|Hne].
    + now rewrite deref_store_eq.
    + now rewrite deref_store_ne.
Qed.

(** [fix_vars] on operands that are resolved already *)

Lemma resolved_arg_ext code i j :
  same_code i j -> resolved_arg ver dis code i = resolved_arg ver dis code j.
Proof.
  intros (H1 & H2 & H3 & H4 & _). unfold resolved_arg.
  now rewrite H1, H2, H3, H4.
Qed.

Lemma store_same h r i x :
  i = deref h r -> deref (store h r i) x = deref h x.
Proof.
  intros ->. destruct (Nat.eq_dec x r) as [->|Hne].
  - apply deref_store_eq.
  - now apply deref_store_ne.
Qed.

Lemma fix_var_resolved code h r :
  resolved_arg ver dis code (deref h r) = Ok (arg (deref h r)) ->
  exists h',
    fix_var ver dis (name_table (co_varnames code))
      (name_table (co_names code)) h r = Ok h' /\
    forall x, deref h' x = deref h x.
Proof.
  unfold resolved_arg, fix_var.
  destruct (if version_ge ver (3, 11) &&
               String.eqb (opname (deref h r)) "LOAD_GLOBAL"
            then match arg (deref h r) with
                 | Some a => Ok (1, a mod 2)
                 | None => Raise AssertionError
                 end
            else Ok (0, 0)) as [[shift push_null]|e]; [|discriminate].
  cbn [bind].
  destruct (Z_in (opcode (deref h r)) (dis_haslocal dis)).
  - destruct (table_lookup _ (argval (deref h r))) as [idx|e]; [|discriminate].
    cbn [bind option_map]. intros [= E].
    rewrite deref_store_eq. cbn [arg set_arg]. eexists. split; [reflexivity|].
    intros x. destruct (Nat.eq_dec x r) as [->|Hne].
    + rewrite deref_store_eq, set_arg_set_arg, E. apply set_arg_id.
    + now rewrite !deref_store_ne.
  - destruct (Z_in (opcode (deref h r)) (dis_hasname dis)).
    + destruct (table_lookup _ (argval (deref h r))) as [idx|e]; [|discriminate].
      cbn [bind option_map]. intros [= E].
      rewrite deref_store_eq. cbn [arg set_arg]. eexists. split; [reflexivity|].
      intros x. destruct (Nat.eq_dec x r) as [->|Hne].
      * rewrite deref_store_eq, set_arg_set_arg, E. apply set_arg_id.
      * now rewrite !deref_store_ne.
    + cbn [bind]. destruct (arg (deref h r)) as [a|] eqn:Ea; cbn [option_map].
      * intros [= E]. eexists. split; [reflexivity|].
        intros x. apply store_same. rewrite E, <- Ea. apply set_arg_id.
      * intros _. now exists h.
Qed.

Lemma fix_vars_loop_resolved code h rest : forall hc,
  (forall x, deref hc x = deref h x) ->
  (forall r, In r rest ->
     resolved_arg ver dis code (deref h r) = Ok (arg (deref h r))) ->
  exists h',
    fix_vars_loop ver dis (name_table (co_varnames code))
      (name_table (co_names code)) hc rest = Ok h' /\
    forall x, deref h' x = deref h x.
Proof.
  induction rest as [|r rest IH]; intros hc Hc Hok.
  - exists hc. split; [reflexivity|exact Hc].
  - cbn [fix_vars_loop].
    destruct (fix_var_resolved code hc r) as (h1 & -> & H1).
    { rewrite Hc. apply Hok. now left. }
    cbn [bind]. apply IH.
    + intros x. now rewrite H1.
    + intros x Hx. apply Hok. now right.
Qed.

(** [update_offsets] on offsets that are laid out already *)
Lemma update_offsets_from_id l : forall hc h off,
  (forall x, deref hc x = deref h x) ->
  laid_out_from ver dis h off l ->
  forall x, deref (update_offsets_from ver dis off hc l) x = deref h x.
Proof.
  induction l as [|r l IH]; intros hc h off Hc; cbn [update_offsets_from laid_out_from].
  - intros _. exact Hc.
  - intros [Ho Hl]. apply IH.
    + intros x. rewrite store_same; [apply Hc|].
      rewrite Hc, <- Ho. apply set_offset_id.
    + rewrite deref_store_eq, instruction_size_set_offset, Hc. exact Hl.
Qed.

Lemma prefix_start_plain h l idx t offsets :
  (forall r, In r l -> is_extended_arg dis (deref h r) = false) ->
  (idx < List.length l)%nat ->
  prefix_start dis h l idx t offsets = t.
Proof.
  intros Hp Hidx. destruct offsets as [|o offsets]; [reflexivity|].
  cbn [prefix_start].
  destruct (Nat.leb_spec o idx) as [Hle|Hgt]; [|reflexivity].
  rewrite Hp; [reflexivity|]. apply nth_In. lia.
Qed.

Lemma fix_extended_args_loop_plain l : forall h out,
  (forall r, In r l -> is_extended_arg dis (deref h r) = false /\
                       prefixes_needed (arg (deref h r)) = 0%nat) ->
  fix_extended_args_loop dis h l out = Ok (h, out ++ l).
Proof.
  induction l as [|r l IH]; intros h out H.
  - now rewrite app_nil_r.
  - rewrite fix_loop_cons. destruct (H r (or_introl eq_refl)) as (-> & ->).
    cbn [maybe_pop_n chunk_shifts append_extended bind].
    rewrite IH by (intros x Hx; apply H; now right).
    now rewrite <- app_assoc.
Qed.

Lemma fix_extended_args_plain h l :
  (forall r, In r l -> is_extended_arg dis (deref h r) = false /\
                       prefixes_needed (arg (deref h r)) = 0%nat) ->
  fix_extended_args dis h l = Ok (h, l, 0).
Proof.
  intros H. unfold fix_extended_args.
  rewrite fix_extended_args_loop_plain by exact H. cbn [bind app].
  rewrite Z.sub_diag. reflexivity.
Qed.

(** [assemble] reads [opcode], [arg] and [starts_line] only. *)
Lemma encode_instruction_assembly i j :
  same_assembly i j -> encode_instruction ver dis i = encode_instruction ver dis j.
Proof.
  intros (H1 & H2 & _). unfold encode_instruction, instruction_size.
  now rewrite H1, H2.
Qed.

Lemma assemble_loop_assembly h h' l : forall code w,
  (forall x, same_assembly (deref h x) (deref h' x)) ->
  assemble_loop ver dis h l code w = assemble_loop ver dis h' l code w.
Proof.
  induction l as [|r l IH]; intros code w H; [reflexivity|].
  rewrite !assemble_loop_cons.
  rewrite (encode_instruction_assembly _ _ (H r)).
  destruct (H r) as (_ & _ & ->).
  match goal with
  | |- bind ?m _ = bind ?m _ => destruct m as [w1|e]; [|reflexivity]
  end.
  cbn [bind]. now apply IH.
Qed.

Lemma assemble_assembly h h' l firstlineno :
  (forall x, same_assembly (deref h x) (deref h' x)) ->
  assemble ver dis h l firstlineno = assemble ver dis h' l firstlineno.
Proof.
  intros H. unfold assemble.
  match goal with
  | |- bind ?m _ = bind ?m _ => destruct m as [w0|e]; [|reflexivity]
  end.
  cbn [bind]. now rewrite (assemble_loop_assembly h h').
Qed.


Lemma opt_eqb_eq a b : opt_eqb a b = true -> a = b.
Proof.
  destruct a as [x|], b as [y|]; simpl; try discriminate; [|reflexivity].
  intros H. apply Z.eqb_eq in H. now subst.
Qed.

Lemma opt_Z_eqb_eq a b : opt_Z_eqb a b = true -> a = Some b.
Proof.
  destruct a as [x|]; simpl; [|discriminate].
  intros H. apply Z.eqb_eq in H. now subst.
Qed.

Lemma jump_arg_ext i j toff ioff :
  same_code i j -> jump_arg ver dis i toff ioff = jump_arg ver dis j toff ioff.
Proof.
  intros (H1 & H2 & _). unfold jump_arg, instruction_size. now rewrite H1, H2.
Qed.

Lemma laid_out_from_code h h' l : forall off,
  (forall x, same_code (deref h' x) (deref h x)) ->
  laid_out_from ver dis h off l -> laid_out_from ver dis h' off l.
Proof.
  induction l as [|r l IH]; intros off H; cbn [laid_out_from]; [trivial|].
  intros [Ho Hl]. destruct (H r) as (Hop & _ & _ & _ & Hoff).
  split; [congruence|].
  rewrite (instruction_size_opcode ver dis _ _ Hop). now apply IH.
Qed.

Lemma laid_out_from_offsets h l : forall off,
  laid_out_from ver dis h off l -> offsets_set h l.
Proof.
  induction l as [|r l IH]; intros off; cbn [laid_out_from].
  - intros _ x [].
  - intros [Ho Hl] x [<-|Hx]; [now exists off|]. exact (IH _ Hl x Hx).
Qed.

(** What [canonical_instruction] says of the converted objects. *)
Lemma canonical_converted code decoded h0 l0 r :
  Forall2 (fun r i => deref h0 r = convert_instruction i) l0 decoded ->
  forallb (canonical_instruction ver dis code decoded) decoded = true ->
  In r l0 ->
  is_extended_arg dis (deref h0 r) = false /\
  prefixes_needed (arg (deref h0 r)) = 0%nat /\
  (is_jump dis (deref h0 r) = true ->
   exists av ioff t,
     argval (deref h0 r) = PyInt av /\ offset (deref h0 r) = Some ioff /\
     In t l0 /\ offset (deref h0 t) = Some av /\
     arg (deref h0 r) = Some (jump_arg ver dis (deref h0 r) av ioff)) /\
  resolved_arg ver dis code (deref h0 r) = Ok (arg (deref h0 r)).
Proof.
  intros HF Hall Hr.
  destruct (Forall2_In_l _ _ _ _ HF Hr) as (i & Hi & Ei).
  rewrite forallb_forall in Hall. pose proof (Hall i Hi) as Hc.
  unfold canonical_instruction in Hc.
  apply andb_true_iff in Hc. destruct Hc as [Hc Hres].
  apply andb_true_iff in Hc. destruct Hc as [Hc Hjmp].
  apply andb_true_iff in Hc. destruct Hc as [Hext Hpre].
  assert (Hsc : same_code (deref h0 r) i) by (rewrite Ei; repeat split).
  destruct Hsc as (Hop & Hname & Harg & Hav & Hoff).
  split.
  { unfold is_extended_arg in *. rewrite Hop. now apply negb_true_iff. }
  split.
  { rewrite Harg. now apply Nat.eqb_eq. }
  split.
  - intros Hj. assert (Hji : is_jump dis i = true)
      by (unfold is_jump in *; now rewrite <- Hop).
    rewrite Hji in Hjmp. rewrite Hav, Hoff, Harg.
    destruct (argval i) as [|av| |] eqn:Eav; try discriminate.
    destruct (offset i) as [ioff|] eqn:Eoff; try discriminate.
    apply andb_true_iff in Hjmp. destruct Hjmp as [Hex Ha].
    apply existsb_exists in Hex. destruct Hex as (j & Hj' & Ej).
    apply opt_Z_eqb_eq in Ej. apply opt_eqb_eq in Ha.
    destruct (Forall2_In_r _ _ _ _ HF Hj') as (t & Ht & Et).
    exists av, ioff, t. repeat split; try assumption.
    + rewrite Et. exact Ej.
    + rewrite Ha. f_equal. apply jump_arg_ext. repeat split; congruence.
  - rewrite (resolved_arg_ext code (deref h0 r) i) by (repeat split; assumption).
    destruct (resolved_arg ver dis code i) as [a|e]; [|discriminate].
    apply opt_eqb_eq in Hres. congruence.
Qed.

Variable stacksize_analysis : heap -> list ref -> Z.
Variable get_instructions : Code -> result (list Instruction).

(** Decoding in safe mode: [virtualize_jumps] gives every jump the object
    at the offset its [argval] holds and writes nothing else, and
    [strip_extended_args] finds nothing to remove. *)
Lemma cleaned_instructions_canonical h code decoded h0 l0 :
  get_instructions code = Ok decoded ->
  convert_instructions h decoded = (h0, l0) ->
  check_offsets ver dis h0 l0 = Ok tt ->
  forallb (canonical_instruction ver dis code decoded) decoded = true ->
  exists h1,
    cleaned_instructions ver dis get_instructions h code true = Ok (h1, l0) /\
    (forall x, exists tg, deref h1 x = set_target (deref h0 x) tg) /\
    (forall x av, In x l0 -> is_jump dis (deref h0 x) = true ->
       argval (deref h0 x) = PyInt av ->
       exists t, target (deref h1 x) = Some t /\ In t l0 /\
                 offset (deref h0 t) = Some av).
Proof.
  intros Hget Hconv Hcheck Hall.
  destruct (convert_instructions_spec _ _ _ _ Hconv) as (_ & _ & HF).
  pose proof (fun r => canonical_converted code decoded h0 l0 r HF Hall) as Hcan.
  set (jt := map (fun r => (offset (deref h0 r), r)) l0).
  destruct (virtualize_jumps_loop_spec jt h0 l0 h0) as (h1 & Hrun & Hc & _ & Htg).
  { intros x. exists (target (deref h0 x)). now rewrite set_target_id. }
  { intros r Hr Hj.
    destruct (Hcan r Hr) as (_ & _ & Hjmp & _).
    destruct (Hjmp Hj) as (av & ioff & t & Eav & _ & Ht & Et & _).
    destruct (dict_last_map_In (fun r => offset (deref h0 r)) l0 (Some (av + 0)) t Ht)
      as (t' & Ed).
    { rewrite Z.add_0_r. now apply opt_eqb_Some. }
    exists av, t'. split; [exact Eav|]. split; [exact Ed|].
    apply dict_last_map_Some in Ed. destruct Ed as (Hin & _).
    now destruct (Hcan t' Hin) as (He & _). }
  exists h1. split; [|split; [exact Hc|]].
  - unfold cleaned_instructions. rewrite Hget. cbn [bind]. rewrite Hconv, Hcheck.
    cbn [bind]. unfold virtualize_jumps. fold jt. rewrite Hrun. cbn [bind negb].
    rewrite strip_extended_args_plain; [reflexivity|].
    intros r Hr. destruct (Hcan r Hr) as (He & _).
    destruct (Hc r) as (tg & ->). exact He.
  - intros x av Hx Hj Eav.
    destruct (Hcan x Hx) as (_ & _ & Hjmp & _).
    destruct (Hjmp Hj) as (av' & ioff & t & Eav' & _ & Ht & Et & _).
    assert (av' = av) by congruence. subst av'.
    destruct (dict_last_map_In (fun r => offset (deref h0 r)) l0 (Some (av + 0)) t Ht)
      as (t' & Ed).
    { rewrite Z.add_0_r. now apply opt_eqb_Some. }
    exists t'. split; [exact (Htg x av t' Hx Hj Eav Ed)|].
    apply dict_last_map_Some in Ed. destruct Ed as (Hin & He).
    split; [exact Hin|]. apply opt_eqb_Some in He. now rewrite Z.add_0_r in He.
Qed.

(** One turn of the normalizer's loop on a list that needs no prefix and
    whose jumps have the operands of their targets already: the loop ends,
    and what [assemble] reads is as before. *)
Lemma normalize_canonical fuel h l :
  laid_out_from ver dis h 0 l ->
  (forall r, In r l -> is_extended_arg dis (deref h r) = false /\
                       prefixes_needed (arg (deref h r)) = 0%nat) ->
  (forall r, In r l -> is_jump dis (deref h r) = true ->
     exists av ioff t,
       target (deref h r) = Some t /\ In t l /\
       offset (deref h t) = Some av /\ offset (deref h r) = Some ioff /\
       arg (deref h r) = Some (jump_arg ver dis (deref h r) av ioff)) ->
  exists h',
    normalize ver dis (S fuel) h l = Some (Ok (h', l)) /\
    forall x, same_assembly (deref h' x) (deref h x).
Proof.
  intros Hlaid Hplain Hjumps. cbn [normalize].
  pose proof (update_offsets_from_id l h h 0 (fun x => eq_refl) Hlaid) as Hu.
  fold (update_offsets ver dis h l) in Hu.
  set (hu := update_offsets ver dis h l) in *.
  assert (Hsl : forall x, same_layout (deref hu x) (deref hu x))
    by (intros x; apply same_layout_refl).
  assert (Htp : targets_present dis hu l).
  { intros r Hr Hj. rewrite Hu in Hj.
    destruct (Hjumps r Hr Hj) as (av & ioff & t & Et & Ht & _).
    exists t. rewrite Hu. now split. }
  assert (Hos : offsets_set hu l).
  { intros r Hr. rewrite Hu. exact (laid_out_from_offsets _ _ _ Hlaid r Hr). }
  destruct (devirtualize_jumps_loop_spec ver dis l hu l hu Hsl)
    as (hd & Hrun & _ & Hlay & Hjd & Hfd).
  { intros r Hr Hj.
    destruct (devirtualized_jump_ok ver dis hu l r Htp Hos Hr Hj)
      as (t0 & idx & toff & ioff & a & _ & _ & _ & _ & _ & _ & ->).
    exact I. }
  assert (Hasm : forall x, same_assembly (deref hd x) (deref h x)).
  { intros x. destruct (Hlay x) as (Hop & _ & _ & Hst & _).
    rewrite Hu in Hop, Hst. split; [exact Hop|]. split; [|exact Hst].
    destruct (in_dec Nat.eq_dec x l) as [Hx|Hx];
      [|rewrite Hfd by (now left); now rewrite Hu].
    destruct (is_jump dis (deref hu x)) eqn:Hj;
      [|rewrite Hfd by (now right); now rewrite Hu].
    pose proof (Hjd x Hx Hj) as Ed.
    destruct (devirtualized_jump_ok ver dis hu l x Htp Hos Hx Hj)
      as (t0 & idx & toff & ioff & a & Et0 & _ & Hnth & Etoff & Eioff & Ea & Edj).
    rewrite Edj in Ed. injection Ed as Ed. rewrite <- Ed. cbn [arg set_argrepr set_argval set_arg].
    rewrite prefix_start_plain in Etoff.
    2:{ intros r Hr. rewrite Hu. now destruct (Hplain r Hr). }
    2:{ apply nth_error_Some. congruence. }
    rewrite Hu in Hj, Et0, Etoff, Eioff. rewrite Hu in Ea.
    destruct (Hjumps x Hx Hj) as (av & ioff' & t & Et & _ & Eav & Eioff' & Earg).
    assert (t0 = t) by congruence. subst t0.
    assert (toff = av) by congruence. assert (ioff' = ioff) by congruence.
    subst toff ioff'. rewrite Earg. f_equal. exact Ea. }
  unfold devirtualize_jumps. rewrite Hrun.
  rewrite fix_extended_args_plain.
  - cbn [Z.eqb]. exists hd. split; [reflexivity|exact Hasm].
  - intros r Hr. destruct (Hplain r Hr) as (He & Hp).
    destruct (Hasm r) as (Hop & Ha & _). unfold is_extended_arg in *.
    now rewrite Hop, Ha.
Qed.

End RoundTrip.


(** Two more code objects that the decoder accepts and the pipeline does
    not reproduce: with a name twice in [co_names], [fix_vars] resolves the
    operand to the last position; a line-table entry that starts no line is
    not written again. *)
Lemma safe_round_trip_twice_named :
  decoder_accepts Py39.ver Py39.tables Py39.get_instructions empty_heap
    twice_named_code /\
  exists dode,
    transform_code_object Py39.ver Py39.tables (fun _ _ => 0)
      Py39.get_instructions 1 empty_heap twice_named_code noop true
      = Some (Ok dode) /\
    co_code dode = [116; 1; 83; 0].
Proof.
  split.
  - eexists. split; [vm_compute; reflexivity|]. vm_compute. reflexivity.
  - eexists. split; [vm_compute; reflexivity|]. reflexivity.
Qed.

Lemma safe_round_trip_padded_table :
  decoder_accepts Py39.ver Py39.tables Py39.get_instructions empty_heap
    padded_table_code /\
  exists dode,
    transform_code_object Py39.ver Py39.tables (fun _ _ => 0)
      Py39.get_instructions 1 empty_heap padded_table_code noop true
      = Some (Ok dode) /\
    co_code dode = co_code padded_table_code /\
    co_lnotab dode = [0; 1].
Proof.
  split.
  - eexists. split; [vm_compute; reflexivity|]. vm_compute. reflexivity.
  - eexists. split; [vm_compute; reflexivity|]. split; reflexivity.
Qed.



(** * Further properties of the module *)

(** ** Helpers that build instructions *)

Section BuildersFacts.

Variable ver : version.
Variable dis : Dis.

Lemma create_instruction_ok h name op a :
  dis_opmap dis name = Some op ->
  exists h',
    create_instruction dis h name a None None = Ok (next_ref h, h') /\
    next_ref h' = S (next_ref h) /\
    deref h' (next_ref h) =
      mkInstruction op name a
        (match a with Some n => PyInt n | None => PyNone end)
        None None false None None /\
    forall x, x <> next_ref h -> deref h' x = deref h x.
Proof.
  intros Hop. unfold create_instruction. rewrite Hop.
  set (i := mkInstruction _ _ _ _ _ _ _ _ _).
  destruct (alloc_spec h i) as (Hn & Hr & Hd & Hf).
  destruct (alloc h i) as [r h'] eqn:Ea. simpl in Hn, Hr, Hd, Hf. subst r.
  exists h'. repeat split; assumption.
Qed.

Lemma create_one_ok h name op a :
  dis_opmap dis name = Some op ->
  exists h',
    create_one dis h name a = Ok (h', [next_ref h]) /\
    next_ref h' = S (next_ref h) /\
    deref h' (next_ref h) =
      mkInstruction op name a
        (match a with Some n => PyInt n | None => PyNone end)
        None None false None None /\
    forall x, x <> next_ref h -> deref h' x = deref h x.
Proof.
  intros Hop. destruct (create_instruction_ok h name op a Hop)
    as (h' & E & Hn & Hd & Hf).
  exists h'. unfold create_one. rewrite E. cbn [bind].
  repeat split; assumption.
Qed.

Lemma create_each_ok name op : forall args h,
  dis_opmap dis name = Some op ->
  exists h',
    create_each dis h name args =
      Ok (h', seq (next_ref h) (List.length args)) /\
    next_ref h' = (next_ref h + List.length args)%nat /\
    (forall x, (x < next_ref h)%nat -> deref h' x = deref h x) /\
    listing h' (seq (next_ref h) (List.length args)) =
      map (fun a => (name, Some a)) args.
Proof.
  induction args as [|a args IH]; intros h Hop.
  - exists h. cbn. split; [reflexivity|]. split; [lia|]. split; [auto|reflexivity].
  - destruct (create_instruction_ok h name op (Some a) Hop)
      as (h1 & E1 & Hn1 & Hd1 & Hf1).
    destruct (IH h1 Hop) as (h2 & E2 & Hn2 & Hf2 & Hl2).
    exists h2. cbn [create_each]. rewrite E1. cbn [bind]. rewrite E2. cbn [bind].
    rewrite Hn1 in *. cbn [List.length seq].
    split; [reflexivity|]. split; [lia|]. split.
    + intros x Hx. rewrite Hf2 by lia. apply Hf1. lia.
    + unfold listing in *. cbn [map]. rewrite Hl2. f_equal.
      rewrite Hf2 by lia. rewrite Hd1. reflexivity.
Qed.

End BuildersFacts.

(** Extra X19: [create_rot_n].  Nothing is built for [n <= 1].  From Python 3.11
    on, [n >= 2] gives the [n - 1] new instructions SWAP n, ..., SWAP 2, in
    this order, and no object that existed is written.  [AttributeError] is
    raised exactly before 3.11, for [n >= 4] below 3.8 and for [n >= 5]
    below 3.10. *)
Theorem create_rot_n_cases (ver : version) (dis : Dis) (h : heap) (n : Z) :
  (n <= 1 -> create_rot_n ver dis h n = Returns (h, [])) /\
  (version_ge ver (3, 11) = true ->
   (exists op, dis_opmap dis "SWAP" = Some op) -> 2 <= n ->
   exists h',
     create_rot_n ver dis h n =
       Returns (h', seq (next_ref h) (Z.to_nat (n - 1))) /\
     (forall x, (x < next_ref h)%nat -> deref h' x = deref h x) /\
     listing h' (seq (next_ref h) (Z.to_nat (n - 1))) =
       map (fun k => ("SWAP", Some (n - Z.of_nat k)))
         (seq 0 (Z.to_nat (n - 1)))) /\
  (create_rot_n ver dis h n = Throws AttributeError <->
   version_ge ver (3, 11) = false /\
   ((version_lt ver (3, 8) = true /\ 4 <= n) \/
    (version_lt ver (3, 10) = true /\ 5 <= n))).
Proof.
  split; [|split].
  - intros Hn. unfold create_rot_n.
    now replace (n <=? 1) with true by (symmetry; apply Z.leb_le; lia).
  - intros Hv [op Hop] Hn. unfold create_rot_n.
    replace (n <=? 1) with false by (symmetry; apply Z.leb_gt; lia).
    rewrite Hv.
    destruct (create_each_ok dis "SWAP" op (range_down n) h Hop)
      as (h' & E & _ & Hf & Hl).
    assert (Hlen : List.length (range_down n) = Z.to_nat (n - 1)).
    { unfold range_down. now rewrite length_map, length_seq. }
    rewrite Hlen in *. exists h'. rewrite E. split; [reflexivity|].
    split; [exact Hf|]. rewrite Hl. unfold range_down. now rewrite map_map.
  - unfold create_rot_n.
    destruct (Z.leb_spec n 1) as [Hn|Hn].
    { split; [discriminate|]. intros (_ & [[_ H]|[_ H]]); lia. }
    destruct (version_ge ver (3, 11)) eqn:Hv.
    { split.
      - destruct (create_each dis h "SWAP" (range_down n)); discriminate.
      - intros [H _]. discriminate. }
    destruct (version_lt ver (3, 8)) eqn:H8; cbn [andb].
    + destruct (Z.leb_spec 4 n) as [H4|H4].
      * split; [intros _|reflexivity]. split; [reflexivity|]. left. now split.
      * destruct (version_lt ver (3, 10)) eqn:H10; cbn [andb].
        -- destruct (Z.leb_spec 5 n) as [H5|H5]; [lia|].
           replace (n <=? 4) with true by (symmetry; apply Z.leb_le; lia).
           split.
           ++ destruct (nth_error _ _); [|discriminate].
              destruct (create_one _ _ _ _); discriminate.
           ++ intros (_ & [[_ H]|[_ H]]); lia.
        -- replace (n <=? 4) with true by (symmetry; apply Z.leb_le; lia).
           split.
           ++ destruct (nth_error _ _); [|discriminate].
              destruct (create_one _ _ _ _); discriminate.
           ++ intros (_ & [[_ H]|[H _]]); [lia|discriminate].
    + destruct (version_lt ver (3, 10)) eqn:H10; cbn [andb].
      * destruct (Z.leb_spec 5 n) as [H5|H5].
        -- split; [intros _|reflexivity]. split; [reflexivity|]. right. now split.
        -- replace (n <=? 4) with true by (symmetry; apply Z.leb_le; lia).
           split.
           ++ destruct (nth_error _ _); [|discriminate].
              destruct (create_one _ _ _ _); discriminate.
           ++ intros (_ & [[H _]|[_ H]]); [discriminate|lia].
      * split.
        -- destruct (n <=? 4).
           ++ destruct (nth_error _ _); [|discriminate].
              destruct (create_one _ _ _ _); discriminate.
           ++ destruct (create_one _ _ _ _); discriminate.
        -- intros (_ & [[H _]|[H _]]); discriminate.
Qed.

Lemma create_rot_n_cases_witness :
  exists h',
    create_rot_n Py311.ver Py311.tables empty_heap 3 =
      Returns (h', [0; 1]%nat) /\
    listing h' [0; 1]%nat = [("SWAP", Some 3); ("SWAP", Some 2)].
Proof.
  destruct (proj1 (proj2 (create_rot_n_cases Py311.ver Py311.tables empty_heap 3))
              eq_refl (ex_intro _ 99 eq_refl) ltac:(lia))
    as (h' & E & _ & Hl).
  exists h'. split; [exact E|exact Hl].
Defined.

(** Extra X20: [create_call_function] with [push_null] from Python 3.11 on.  The
    call is PUSH_NULL, the swaps that rotate the NULL below the function and
    its [nargs] arguments, PRECALL and CALL, all of them new objects made in
    this order; no object that existed is written. *)
Theorem create_call_function_push_null (ver : version) (dis : Dis) (h : heap)
    (nargs : Z) :
  version_ge ver (3, 11) = true ->
  (forall name, In name ["PUSH_NULL"; "SWAP"; "PRECALL"; "CALL"] ->
     exists op, dis_opmap dis name = Some op) ->
  exists h' l,
    create_call_function ver dis h nargs true = Returns (h', l) /\
    l = seq (next_ref h) (Z.to_nat (nargs + 1) + 3) /\
    (forall x, (x < next_ref h)%nat -> deref h' x = deref h x) /\
    listing h' l =
      [("PUSH_NULL", None)] ++
      map (fun k => ("SWAP", Some (nargs + 2 - Z.of_nat k)))
        (seq 0 (Z.to_nat (nargs + 1))) ++
      [("PRECALL", Some nargs); ("CALL", Some nargs)].
Proof.
  intros Hv Hops.
  destruct (Hops "PUSH_NULL") as (op1 & Hop1); [simpl; auto|].
  destruct (Hops "SWAP") as (op2 & Hop2); [simpl; auto|].
  destruct (Hops "PRECALL") as (op3 & Hop3); [simpl; auto|].
  destruct (Hops "CALL") as (op4 & Hop4); [simpl; auto|].
  unfold create_call_function. rewrite Hv.
  destruct (create_one_ok dis h "PUSH_NULL" op1 None Hop1)
    as (h1 & E1 & Hn1 & Hd1 & Hf1).
  rewrite E1. cbn [lift obind fst snd].
  assert (Hrot : exists h2,
            create_rot_n ver dis h1 (nargs + 2) =
              Returns (h2, seq (next_ref h1) (Z.to_nat (nargs + 1))) /\
            next_ref h2 = (next_ref h1 + Z.to_nat (nargs + 1))%nat /\
            (forall x, (x < next_ref h1)%nat -> deref h2 x = deref h1 x) /\
            listing h2 (seq (next_ref h1) (Z.to_nat (nargs + 1))) =
              map (fun k => ("SWAP", Some (nargs + 2 - Z.of_nat k)))
                (seq 0 (Z.to_nat (nargs + 1)))).
  { unfold create_rot_n. destruct (Z.leb_spec (nargs + 2) 1) as [Hn|Hn].
    - exists h1. replace (Z.to_nat (nargs + 1)) with 0%nat by lia.
      cbn. split; [reflexivity|]. split; [lia|]. split; [auto|reflexivity].
    - rewrite Hv.
      destruct (create_each_ok dis "SWAP" op2 (range_down (nargs + 2)) h1 Hop2)
        as (h2 & E & Hn2 & Hf & Hl).
      assert (Hlen : List.length (range_down (nargs + 2)) = Z.to_nat (nargs + 1)).
      { unfold range_down. rewrite length_map, length_seq. f_equal. lia. }
      rewrite Hlen in *. exists h2. rewrite E. split; [reflexivity|].
      split; [exact Hn2|]. split; [exact Hf|]. rewrite Hl. unfold range_down.
      rewrite map_map. replace (nargs + 2 - 1) with (nargs + 1) by lia.
      reflexivity. }
  destruct Hrot as (h2 & E2 & Hn2 & Hf2 & Hl2).
  rewrite E2. cbn [obind fst snd].
  destruct (create_one_ok dis h2 "PRECALL" op3 (Some nargs) Hop3)
    as (h3 & E3 & Hn3 & Hd3 & Hf3).
  rewrite E3. cbn [lift obind fst snd].
  destruct (create_one_ok dis h3 "CALL" op4 (Some nargs) Hop4)
    as (h4 & E4 & Hn4 & Hd4 & Hf4).
  rewrite E4. cbn [lift obind fst snd].
  set (m := Z.to_nat (nargs + 1)) in *.
  exists h4, ([next_ref h] ++ seq (next_ref h1) m ++ [next_ref h2] ++ [next_ref h3]).
  split; [reflexivity|]. split.
  { rewrite Hn3, Hn2, Hn1.
    replace (m + 3)%nat with (1 + (m + (1 + 1)))%nat by lia.
    rewrite !seq_app. cbn [seq app]. repeat f_equal; lia. }
  split.
  { intros x Hx. rewrite Hf4, Hf3, Hf2 by lia. apply Hf1. lia. }
  unfold listing in *. rewrite !map_app. f_equal; [|f_equal].
  - cbn [map]. rewrite Hf4, Hf3, Hf2, Hd1 by lia. reflexivity.
  - rewrite <- Hl2. apply map_ext_in. intros x Hx. apply in_seq in Hx.
    rewrite Hf4, Hf3 by lia. reflexivity.
  - cbn [map]. rewrite Hd4. rewrite Hf4, Hd3 by lia. reflexivity.
Qed.

Lemma create_call_function_push_null_witness :
  exists h',
    create_call_function Py311.ver Py311.tables empty_heap 1 true =
      Returns (h', [0; 1; 2; 3; 4]%nat) /\
    listing h' [0; 1; 2; 3; 4]%nat =
      [("PUSH_NULL", None); ("SWAP", Some 3); ("SWAP", Some 2);
       ("PRECALL", Some 1); ("CALL", Some 1)].
Proof.
  destruct (create_call_function_push_null Py311.ver Py311.tables empty_heap 1
              eq_refl) as (h' & l & E & -> & _ & Hl).
  - intros name [<-|[<-|[<-|[<-|[]]]]]; eexists; reflexivity.
  - exists h'. split; [exact E|exact Hl].
Defined.

(** ** [is_generator] *)

Lemma land_bit (x : Z) (n : Z) :
  0 <= n -> Z.land x (2 ^ n) = if Z.testbit x n then 2 ^ n else 0.
Proof.
  intros Hn. apply Z.bits_inj'. intros k Hk.
  rewrite Z.land_spec, Z.pow2_bits_eqb by exact Hn.
  destruct (Z.eqb_spec n k) as [->|Hne].
  - destruct (Z.testbit x k); [|now rewrite Z.bits_0].
    rewrite Z.pow2_bits_eqb by exact Hk. now rewrite Z.eqb_refl.
  - rewrite andb_false_r. destruct (Z.testbit x n); [|now rewrite Z.bits_0].
    rewrite Z.pow2_bits_eqb by exact Hn. symmetry. now apply Z.eqb_neq.
Qed.

(** Extra X22: [is_generator] tests one bit: it is true exactly when bit 5 (the
    flag 0x20) of [co_flags] is set, whatever the other flags are. *)
Theorem is_generator_bit (code : Code) :
  is_generator code = Z.testbit (co_flags code) 5.
Proof.
  unfold is_generator. change 32 with (2 ^ 5).
  rewrite land_bit by lia. now destruct (Z.testbit (co_flags code) 5).
Qed.

(** ** [unique_id] *)


Lemma string_of_uint_no_underscore d :
  has_underscore (NilZero.string_of_uint d) = false.
Proof.
  assert (H : forall d, has_underscore (NilEmpty.string_of_uint d) = false).
  { clear d. induction d; simpl; try reflexivity; exact IHd. }
  destruct d; try apply H. reflexivity.
Qed.

Lemma decimal_inj n m : decimal n = decimal m -> n = m.
Proof.
  unfold decimal. intros E.
  assert (Hnn : forall k, Nat.to_uint k <> Decimal.Nil).
  { intros k. rewrite <- (DecimalNat.Unsigned.of_to k) at 1.
    rewrite DecimalNat.Unsigned.to_of. apply DecimalFacts.unorm_nonnil. }
  apply DecimalNat.Unsigned.to_uint_inj.
  pose proof (NilZero.usu _ (Hnn n)) as H1.
  pose proof (NilZero.usu _ (Hnn m)) as H2.
  rewrite E in H1. congruence.
Qed.

Lemma has_underscore_app a b :
  has_underscore (String.append a b) = has_underscore a || has_underscore b.
Proof.
  induction a as [|c a IH]; simpl; [reflexivity|].
  now rewrite IH, orb_assoc.
Qed.

(** The part after the last underscore determines the rest. *)
Lemma append_underscore_inj a : forall b s1 s2,
  has_underscore s1 = false -> has_underscore s2 = false ->
  String.append a (String underscore s1) = String.append b (String underscore s2) ->
  a = b /\ s1 = s2.
Proof.
  induction a as [|c a IH]; intros [|d b] s1 s2 H1 H2 E; simpl in E.
  - injection E as E. now split.
  - injection E as Ec E. subst s1.
    rewrite has_underscore_app in H1. unfold underscore in H1. simpl in H1.
    now rewrite orb_true_r in H1.
  - injection E as Ec E. subst s2.
    rewrite has_underscore_app in H2. unfold underscore in H2. simpl in H2.
    now rewrite orb_true_r in H2.
  - injection E as Ec E. subst d.
    destruct (IH b s1 s2 H1 H2 E) as [-> ->]. now split.
Qed.

Lemma unique_ids_In names : forall counter s,
  In s (unique_ids counter names) ->
  exists name k, (counter <= k)%nat /\
    s = String.append name (String underscore (decimal k)).
Proof.
  induction names as [|name names IH]; intros counter s; simpl; [intros []|].
  intros [<-|Hin].
  - exists name, counter. split; [lia|reflexivity].
  - destruct (IH _ _ Hin) as (name' & k & Hk & ->).
    exists name', k. split; [lia|reflexivity].
Qed.

(** Extra X21: [unique_id] never returns the same string twice: the strings that
    successive calls return are pairwise different, whatever names they are
    given (the same name, or names that end in digits or underscores). *)
Theorem unique_id_never_repeats (counter : nat) (names : list string) :
  NoDup (unique_ids counter names).
Proof.
  revert counter. induction names as [|name names IH]; intros counter; simpl;
    [constructor|].
  constructor; [|apply IH].
  intros Hin. destruct (unique_ids_In _ _ _ Hin) as (name' & k & Hk & E).
  apply append_underscore_inj in E;
    try apply string_of_uint_no_underscore.
  destruct E as [_ E]. apply decimal_inj in E. lia.
Qed.

(** ** [virtualize_jumps] *)

Lemma at_offset_Some h l o t :
  at_offset h l o = Some t -> In t l /\ offset (deref h t) = Some o.
Proof.
  unfold at_offset. intros E.
  apply (dict_last_map_Some (fun r => offset (deref h r))) in E.
  destruct E as [Hin He]. split; [exact Hin|]. now apply opt_eqb_Some.
Qed.

Lemma at_offset_None h l o :
  at_offset h l o = None ->
  forall r, In r l -> offset (deref h r) <> Some o.
Proof.
  unfold at_offset. intros E r Hr Ho.
  destruct (dict_last_map_In (fun r => offset (deref h r)) l (Some o) r Hr)
    as (t & Et); [now apply opt_eqb_Some|].
  congruence.
Qed.

Section Virtualize.

Variable dis : Dis.

Lemma probe_target_ext hc h jt av offsets :
  (forall x, opcode (deref hc x) = opcode (deref h x)) ->
  probe_target dis hc jt av offsets = probe_target dis h jt av offsets.
Proof.
  intros Hop. induction offsets as [|o offsets IH]; [reflexivity|].
  cbn [probe_target]. destruct (dict_last opt_eqb jt (Some (av + o))) as [t|];
    [|reflexivity].
  unfold is_extended_arg. rewrite Hop, IH. reflexivity.
Qed.

(** What the inner loop finds, for the offsets [2 s], [2 (s + 1)], ... *)
Lemma probe_target_spec h l av n : forall s,
  let jt := map (fun r => (offset (deref h r), r)) l in
  let offsets := map (fun j => 2 * Z.of_nat j) (seq s n) in
  (forall res, probe_target dis h jt av offsets = Ok res ->
     exists k, (k <= n)%nat /\
       (forall j, (s <= j < s + k)%nat ->
          exists t, at_offset h l (av + 2 * Z.of_nat j) = Some t /\
                    is_extended_arg dis (deref h t) = true) /\
       ((k < n)%nat ->
          exists t, res = Some t /\
            at_offset h l (av + 2 * Z.of_nat (s + k)) = Some t /\
            is_extended_arg dis (deref h t) = false) /\
       (k = n -> res = None)) /\
  (forall e, probe_target dis h jt av offsets = Raise e ->
     e = KeyError /\
     exists k, (k < n)%nat /\
       at_offset h l (av + 2 * Z.of_nat (s + k)) = None).
Proof.
  induction n as [|n IH]; intros s jt offsets; subst offsets.
  - cbn. split.
    + intros res [= <-]. exists 0%nat. split; [lia|]. split; [intros j Hj; lia|].
      split; [lia|reflexivity].
    + discriminate.
  - cbn [seq map probe_target]. fold jt.
    change (dict_last opt_eqb jt (Some (av + 2 * Z.of_nat s)))
      with (at_offset h l (av + 2 * Z.of_nat s)).
    destruct (at_offset h l (av + 2 * Z.of_nat s)) as [t|] eqn:Et.
    + destruct (is_extended_arg dis (deref h t)) eqn:Ext; cbn [negb].
      * destruct (IH (S s)) as [IHok IHerr]. fold jt in IHok, IHerr. split.
        -- intros res E. destruct (IHok res E) as (k & Hk & Hpre & Hhit & Hend).
           exists (S k). split; [lia|]. split.
           ++ intros j Hj. destruct (Nat.eq_dec j s) as [->|Hne].
              ** now exists t.
              ** apply Hpre. lia.
           ++ split.
              ** intros Hlt. replace (s + S k)%nat with (S s + k)%nat by lia.
                 apply Hhit. lia.
              ** intros Hn. apply Hend. lia.
        -- intros e E. destruct (IHerr e E) as (-> & k & Hk & Hnone).
           split; [reflexivity|]. exists (S k). split; [lia|].
           now replace (s + S k)%nat with (S s + k)%nat by lia.
      * split; [|discriminate]. intros res [= <-]. exists 0%nat.
        split; [lia|]. split; [intros j Hj; lia|]. split; [|lia].
        intros _. exists t. rewrite Nat.add_0_r. now repeat split.
    + split; [discriminate|]. intros e [= <-]. split; [reflexivity|].
      exists 0%nat. split; [lia|]. now rewrite Nat.add_0_r.
Qed.

(** The loop writes [target] only; a jump is given what the inner loop
    finds for its [argval], and a second visit of the same object finds
    the same. *)
Lemma virtualize_jumps_loop_targets jt h rest : forall hc h',
  (forall x, exists tg, deref hc x = set_target (deref h x) tg) ->
  virtualize_jumps_loop dis jt hc rest = Ok h' ->
  (forall x, exists tg, deref h' x = set_target (deref h x) tg) /\
  (forall x, ~ In x rest \/ is_jump dis (deref h x) = false ->
     deref h' x = deref hc x) /\
  (forall x, In x rest -> is_jump dis (deref h x) = true ->
     exists av res,
       argval (deref h x) = PyInt av /\
       probe_target dis h jt av [0; 2; 4; 6] = Ok res /\
       (forall t, res = Some t -> target (deref h' x) = Some t) /\
       (res = None -> target (deref h' x) = target (deref hc x))).
Proof.
  induction rest as [|r rest IH]; intros hc h' Hc E.
  - cbn in E. injection E as <-. split; [exact Hc|]. split; [reflexivity|].
    intros x [].
  - rewrite virtualize_jumps_loop_cons in E.
    apply bind_ok in E. destruct E as (h1 & E1 & E).
    destruct (only_target_opcode h hc r Hc) as ((Hop & _ & _ & Hav & _) & _).
    assert (Hj : is_jump dis (deref hc r) = is_jump dis (deref h r))
      by (unfold is_jump; now rewrite Hop).
    assert (Hops : forall x, opcode (deref hc x) = opcode (deref h x)).
    { intros x. now destruct (only_target_opcode h hc x Hc) as ((? & _) & _). }
    rewrite Hj, Hav in E1.
    destruct (is_jump dis (deref h r)) eqn:Ej.
    + destruct (argval (deref h r)) as [|av| |] eqn:Eav; try discriminate.
      rewrite (probe_target_ext hc h) in E1 by exact Hops.
      apply bind_ok in E1. destruct E1 as (res & Ep & E1).
      assert (Hc1 : forall x, exists tg, deref h1 x = set_target (deref h x) tg).
      { destruct res as [t|]; injection E1 as <-; [|exact Hc].
        intros x. destruct (Nat.eq_dec x r) as [->|Hne].
        - rewrite deref_store_eq. destruct (Hc r) as (tg & ->). now exists (Some t).
        - rewrite deref_store_ne by exact Hne. apply Hc. }
      destruct (IH h1 h' Hc1 E) as (Hc' & Hf & Hin).
      split; [exact Hc'|]. split.
      * intros x Hx. rewrite Hf.
        -- destruct res as [t|]; injection E1 as <-; [|reflexivity].
           apply deref_store_ne. intros ->. destruct Hx as [Hx|Hx].
           ++ apply Hx. now left.
           ++ congruence.
        -- destruct Hx as [Hx|Hx]; [left|now right].
           intros Hn. apply Hx. now right.
      * intros x [<-|Hx] Hjx.
        -- destruct (in_dec Nat.eq_dec r rest) as [Hr|Hr].
           ++ destruct (Hin r Hr Hjx) as (av' & res' & Eav' & Ep' & Hs & Hn).
              assert (av' = av) by congruence. subst av'.
              assert (res' = res) by congruence. subst res'.
              exists av, res. split; [exact Eav|]. split; [exact Ep|].
              split; [exact Hs|]. intros ->. rewrite (Hn eq_refl).
              now injection E1 as <-.
           ++ exists av, res. split; [exact Eav|]. split; [exact Ep|].
              rewrite Hf by now left.
              destruct res as [t|]; injection E1 as <-.
              ** split; [|discriminate]. intros t' [= <-].
                 now rewrite deref_store_eq.
              ** split; [discriminate|reflexivity].
        -- destruct (Hin x Hx Hjx) as (av' & res' & Eav' & Ep' & Hs & Hn).
           exists av', res'. split; [exact Eav'|]. split; [exact Ep'|].
           split; [exact Hs|]. intros Hres. rewrite (Hn Hres).
           destruct res as [t|]; injection E1 as <-; [|reflexivity].
           destruct (Nat.eq_dec x r) as [->|Hne]; [|now rewrite deref_store_ne].
           (* the same object again: its own probe found nothing *)
           assert (av' = av) by congruence. subst av'. congruence.
    + injection E1 as <-. destruct (IH hc h' Hc E) as (Hc' & Hf & Hin).
      split; [exact Hc'|]. split.
      * intros x Hx. apply Hf. destruct Hx as [Hx|Hx]; [left|now right].
        intros Hn. apply Hx. now right.
      * intros x [<-|Hx] Hjx; [congruence|]. now apply Hin.
Qed.

End Virtualize.

(** What a run of [virtualize_jumps] has found for the jumps. *)
Lemma virtualize_jumps_found (dis : Dis) (h : heap) (l : list ref)
    (h' : heap) :
  virtualize_jumps dis h l = Ok h' ->
  (forall x, exists tg, deref h' x = set_target (deref h x) tg) /\
  (forall x, ~ In x l \/ is_jump dis (deref h x) = false ->
     deref h' x = deref h x) /\
  (forall r, In r l -> is_jump dis (deref h r) = true ->
     exists av k,
       argval (deref h r) = PyInt av /\ (k <= 4)%nat /\
       prefixes_at dis h l av k /\
       ((k < 4)%nat ->
          exists t, target (deref h' r) = Some t /\
            at_offset h l (av + 2 * Z.of_nat k) = Some t /\
            is_extended_arg dis (deref h t) = false) /\
       (k = 4%nat -> target (deref h' r) = target (deref h r))).
Proof.
  unfold virtualize_jumps. intros E.
  assert (Hc0 : forall x, exists tg, deref h x = set_target (deref h x) tg).
  { intros x. exists (target (deref h x)). now rewrite set_target_id. }
  destruct (virtualize_jumps_loop_targets dis _ h l h h' Hc0 E) as (Hc & Hf & Hin).
  split; [exact Hc|]. split; [exact Hf|].
  intros r Hr Hj. destruct (Hin r Hr Hj) as (av & res & Eav & Ep & Hs & Hn).
  destruct (probe_target_spec dis h l av 4 0) as [Hok _].
  destruct (Hok res Ep) as (k & Hk & Hpre & Hhit & Hend).
  exists av, k. split; [exact Eav|]. split; [exact Hk|]. split.
  - intros j Hj'. apply Hpre. lia.
  - split.
    + intros Hlt. destruct (Hhit Hlt) as (t & -> & Ht & Hx).
      exists t. split; [now apply Hs|]. now split.
    + intros Hk4. apply Hn. now apply Hend.
Qed.

(** Extra X1: the targets that [virtualize_jumps] assigns.  On success it has
    written [target] only, and only of the jumps of the list.  A jump whose
    [argval] is [av] refers to the first instruction that is not an
    EXTENDED_ARG among the instructions at the offsets [av], [av + 2],
    [av + 4] and [av + 6] (the instruction at an offset is the last one of
    the list that has it); if all four are EXTENDED_ARG, its [target] is
    left as it was. *)
Theorem virtualize_jumps_targets (dis : Dis) (h : heap) (l : list ref)
    (h' : heap) :
  virtualize_jumps dis h l = Ok h' ->
  (forall x, exists tg, deref h' x = set_target (deref h x) tg) /\
  (forall x, ~ In x l \/ is_jump dis (deref h x) = false ->
     deref h' x = deref h x) /\
  (forall r, In r l -> is_jump dis (deref h r) = true ->
     exists av k,
       argval (deref h r) = PyInt av /\ (k <= 4)%nat /\
       prefixes_at dis h l av k /\
       ((k < 4)%nat ->
          exists t, target (deref h' r) = Some t /\
            at_offset h l (av + 2 * Z.of_nat k) = Some t /\
            is_extended_arg dis (deref h t) = false) /\
       (k = 4%nat -> target (deref h' r) = target (deref h r))).
Proof. exact (virtualize_jumps_found dis h l h'). Qed.

Section VirtualizeErrors.

Variable dis : Dis.

Lemma probe_target_raises h jt av offsets e :
  probe_target dis h jt av offsets = Raise e -> e = KeyError.
Proof.
  induction offsets as [|o offsets IH]; cbn [probe_target]; [discriminate|].
  destruct (dict_last opt_eqb jt (Some (av + o))) as [t|]; [|now intros [= <-]].
  destruct (negb _); [discriminate|exact IH].
Qed.

Lemma virtualize_jumps_loop_raises jt h rest : forall hc e,
  (forall x, exists tg, deref hc x = set_target (deref h x) tg) ->
  (forall x, In x rest -> is_jump dis (deref h x) = true ->
     exists a, argval (deref h x) = PyInt a) ->
  virtualize_jumps_loop dis jt hc rest = Raise e -> e = KeyError.
Proof.
  induction rest as [|r rest IH]; intros hc e Hc Hint; [discriminate|].
  rewrite virtualize_jumps_loop_cons.
  destruct (only_target_opcode h hc r Hc) as ((Hop & _ & _ & Hav & _) & _).
  assert (Hj : is_jump dis (deref hc r) = is_jump dis (deref h r))
    by (unfold is_jump; now rewrite Hop).
  rewrite Hj, Hav.
  destruct (is_jump dis (deref h r)) eqn:Ej.
  - destruct (Hint r (or_introl eq_refl) Ej) as (a & ->).
    destruct (probe_target dis hc jt a [0; 2; 4; 6]) as [res|e'] eqn:Ep.
    + cbn [bind]. destruct res as [t|]; cbn [bind]; apply IH.
      * intros x. destruct (Nat.eq_dec x r) as [->|Hne].
        -- rewrite deref_store_eq. destruct (Hc r) as (tg & ->). now exists (Some t).
        -- rewrite deref_store_ne by exact Hne. apply Hc.
      * intros x Hx. apply Hint. now right.
      * exact Hc.
      * intros x Hx. apply Hint. now right.
    + cbn [bind]. intros [= <-]. exact (probe_target_raises _ _ _ _ _ Ep).
  - cbn [bind]. apply IH; [exact Hc|]. intros x Hx. apply Hint. now right.
Qed.

End VirtualizeErrors.

(** Extra X2: a jump to nowhere.  When every jump of the list holds an integer in
    [argval] and one of them holds an offset that no instruction of the
    list has, [virtualize_jumps] raises [KeyError]. *)
Theorem virtualize_jumps_missing_offset (dis : Dis) (h : heap) (l : list ref)
    (r : nat) (av : Z) :
  (forall x, In x l -> is_jump dis (deref h x) = true ->
     exists a, argval (deref h x) = PyInt a) ->
  In r l -> is_jump dis (deref h r) = true ->
  argval (deref h r) = PyInt av ->
  (forall x, In x l -> offset (deref h x) <> Some av) ->
  virtualize_jumps dis h l = Raise KeyError.
Proof.
  intros Hint Hr Hj Eav Hmiss.
  assert (Hc : forall x, exists tg, deref h x = set_target (deref h x) tg).
  { intros x. exists (target (deref h x)). now rewrite set_target_id. }
  unfold virtualize_jumps.
  destruct (virtualize_jumps_loop dis _ h l) as [h'|e] eqn:E.
  - exfalso.
    destruct (virtualize_jumps_loop_targets dis _ h l h h' Hc E) as (_ & _ & Hin).
    destruct (Hin r Hr Hj) as (av' & res & Eav' & Ep & _).
    assert (av' = av) by congruence. subst av'.
    cbn [probe_target] in Ep.
    change (dict_last opt_eqb _ (Some (av + 0))) with (at_offset h l (av + 0)) in Ep.
    rewrite Z.add_0_r in Ep.
    destruct (at_offset h l av) as [t|] eqn:Et; [|discriminate].
    apply at_offset_Some in Et. destruct Et as [Ht Ho]. exact (Hmiss t Ht Ho).
  - f_equal. exact (virtualize_jumps_loop_raises dis _ h l h e Hc Hint E).
Qed.

Lemma virtualize_jumps_targets_witness :
  exists h',
    virtualize_jumps Py39.tables prefixed_jump39 [0; 1; 2; 3]%nat = Ok h' /\
    target (deref h' 0%nat) = Some 2%nat /\
    exists av k,
      argval (deref prefixed_jump39 0%nat) = PyInt av /\ (k <= 4)%nat /\
      prefixes_at Py39.tables prefixed_jump39 [0; 1; 2; 3]%nat av k /\
      ((k < 4)%nat ->
         exists t, target (deref h' 0%nat) = Some t /\
           at_offset prefixed_jump39 [0; 1; 2; 3]%nat (av + 2 * Z.of_nat k)
             = Some t /\
           is_extended_arg Py39.tables (deref prefixed_jump39 t) = false) /\
      (k = 4%nat ->
         target (deref h' 0%nat) = target (deref prefixed_jump39 0%nat)).
Proof.
  destruct (virtualize_jumps Py39.tables prefixed_jump39 [0; 1; 2; 3]%nat)
    as [h'|e] eqn:E; [|vm_compute in E; discriminate].
  exists h'. split; [reflexivity|]. split.
  - vm_compute in E. injection E as <-. reflexivity.
  - apply (proj2 (proj2 (virtualize_jumps_targets Py39.tables prefixed_jump39
                           [0; 1; 2; 3]%nat h' E)) 0%nat).
    + simpl. auto.
    + reflexivity.
Defined.

Lemma virtualize_jumps_missing_offset_witness :
  virtualize_jumps Py39.tables dangling_jump39 [0; 1]%nat = Raise KeyError.
Proof.
  apply (virtualize_jumps_missing_offset Py39.tables dangling_jump39
           [0; 1]%nat 0%nat 8).
  - intros x [<-|[<-|[]]] Hj; [now exists 8|discriminate].
  - simpl. auto.
  - reflexivity.
  - reflexivity.
  - intros x [<-|[<-|[]]]; discriminate.
Defined.

(** ** [devirtualize_jumps] when a target is missing *)

Lemma dict_last_combine_In (l : list ref) t : forall (s : list ref) idx,
  dict_last Nat.eqb (combine l s) t = Some idx -> In t l.
Proof.
  induction l as [|a l IH]; intros [|b s] idx; simpl; try discriminate.
  destruct (dict_last Nat.eqb (combine l s) t) as [v|] eqn:Ed.
  - intros _. right. exact (IH _ _ Ed).
  - destruct (Nat.eqb_spec a t) as [->|_]; [|discriminate]. intros _. now left.
Qed.

Section DevirtualizeErrors.

Variable ver : version.
Variable dis : Dis.

Lemma devirtualized_jump_cases h l r :
  offsets_set h l -> In r l ->
  (exists i, devirtualized_jump ver dis h l r = Ok i /\
             exists t, target (deref h r) = Some t /\ In t l) \/
  (devirtualized_jump ver dis h l r = Raise KeyError /\
   forall t, target (deref h r) = Some t -> ~ In t l).
Proof.
  intros Ho Hr. unfold devirtualized_jump.
  destruct (target (deref h r)) as [t0|] eqn:Et; [|right; split; [reflexivity|discriminate]].
  destruct (dict_last Nat.eqb (indexof l) t0) as [idx|] eqn:Ed.
  - left. pose proof (dict_last_combine_In _ _ _ _ Ed) as Hin.
    destruct (indexof_In l t0 Hin) as (idx' & Ed' & Hnth).
    assert (idx' = idx) by congruence. subst idx'.
    assert (Hidx : (idx < List.length l)%nat) by (apply nth_error_Some; congruence).
    destruct (Ho _ (prefix_start_In dis h l idx [1; 2; 3]%nat t0 Hidx Hin))
      as (toff & ->).
    destruct (Ho r Hr) as (ioff & ->).
    destruct (Z_in (opcode (deref h r)) (dis_hasjabs dis)).
    + destruct (version_lt ver (3, 10)); cbn [bind];
        (eexists; split; [reflexivity|]; exists t0; now split).
    + cbn [sub_offsets bind].
      destruct (version_ge ver (3, 11) && _); cbn [bind];
        (eexists; split; [reflexivity|]; exists t0; now split).
  - right. split; [reflexivity|]. intros t [= <-] Hin.
    destruct (indexof_In l t0 Hin) as (idx & Ed' & _). congruence.
Qed.

Lemma devirtualize_jumps_loop_cases all h rest : forall hc,
  offsets_set h all ->
  (forall x, In x rest -> In x all) ->
  (forall x, same_layout (deref hc x) (deref h x)) ->
  (exists h', devirtualize_jumps_loop ver dis all hc rest = Ok h' /\
     forall r, In r rest -> is_jump dis (deref h r) = true ->
       exists t, target (deref h r) = Some t /\ In t all) \/
  (devirtualize_jumps_loop ver dis all hc rest = Raise KeyError /\
   exists r, In r rest /\ is_jump dis (deref h r) = true /\
     forall t, target (deref h r) = Some t -> ~ In t all).
Proof.
  induction rest as [|r rest IH]; intros hc Ho Hsub Hs.
  - left. exists hc. split; [reflexivity|]. intros r [].
  - cbn [devirtualize_jumps_loop]. rewrite (is_jump_layout _ _ _ (Hs r)).
    destruct (is_jump dis (deref h r)) eqn:Hj.
    + unfold devirtualize_jump.
      rewrite (devirtualized_jump_ext ver dis hc h) by exact Hs.
      destruct (devirtualized_jump_cases h all r Ho (Hsub r (or_introl eq_refl)))
        as [(i & Ei & Ht)|(Ee & Hno)].
      * rewrite Ei. cbn [bind].
        pose proof (devirtualized_jump_layout _ _ _ _ _ _ Ei) as Hi.
        destruct (IH (store hc r i) Ho) as [(h' & E & Hall)|(E & x & Hx & Hjx & Hno)].
        -- intros x Hx. apply Hsub. now right.
        -- intros x. destruct (Nat.eq_dec x r) as [->|Hne].
           ++ now rewrite deref_store_eq.
           ++ rewrite deref_store_ne by exact Hne. apply Hs.
        -- left. exists h'. split; [exact E|].
           intros x [<-|Hx] Hjx; [exact Ht|now apply Hall].
        -- right. split; [exact E|]. exists x. split; [now right|]. now split.
      * rewrite Ee. cbn [bind]. right. split; [reflexivity|].
        exists r. split; [now left|]. now split.
    + cbn [bind].
      destruct (IH hc Ho) as [(h' & E & Hall)|(E & x & Hx & Hjx & Hno)].
      * intros x Hx. apply Hsub. now right.
      * exact Hs.
      * left. exists h'. split; [exact E|].
        intros x [<-|Hx] Hjx; [congruence|now apply Hall].
      * right. split; [exact E|]. exists x. split; [now right|]. now split.
Qed.

End DevirtualizeErrors.

(** Extra X3: [devirtualize_jumps] and missing targets.  When every instruction
    of the list has an offset (as after [update_offsets]), the pass
    succeeds if every jump's [target] is an instruction of the list, and
    raises [KeyError] if some jump has no [target] or one that is not in
    the list (an instruction that a transformation removed). *)
Theorem devirtualize_jumps_missing_target (ver : version) (dis : Dis)
    (h : heap) (l : list ref) :
  offsets_set h l ->
  (targets_present dis h l -> is_ok (devirtualize_jumps ver dis h l)) /\
  (~ targets_present dis h l ->
   devirtualize_jumps ver dis h l = Raise KeyError).
Proof.
  intros Ho. unfold devirtualize_jumps.
  destruct (devirtualize_jumps_loop_cases ver dis l h l h Ho (fun x H => H)
              (fun x => same_layout_refl _))
    as [(h' & E & Hall)|(E & r & Hr & Hj & Hno)].
  - rewrite E. split; [intros _; exact I|]. intros Hn. exfalso. apply Hn.
    intros r Hr Hj. now apply Hall.
  - rewrite E. split; [|reflexivity]. intros Ht. exfalso.
    destruct (Ht r Hr Hj) as (t & Et & Hin). exact (Hno t Et Hin).
Qed.

Lemma devirtualize_jumps_missing_target_witness :
  devirtualize_jumps Py39.ver Py39.tables orphaned_jump39 [0; 1]%nat
    = Raise KeyError.
Proof.
  apply (devirtualize_jumps_missing_target Py39.ver Py39.tables
           orphaned_jump39 [0; 1]%nat).
  - intros r [<-|[<-|[]]]; eexists; reflexivity.
  - intros Ht. destruct (Ht 0%nat) as (t & Et & Hin).
    + simpl. auto.
    + reflexivity.
    + vm_compute in Et. injection Et as <-.
      destruct Hin as [H|[H|[]]]; discriminate.
Defined.

(** ** [fix_vars] on every version *)

Section FixVarsAll.

Variable ver : version.
Variable dis : Dis.
Variable code : Code.

(** [fix_var] assigns [arg] the value of [resolved_arg], and fails as it
    does. *)
Lemma fix_var_as_resolved h r :
  match resolved_arg ver dis code (deref h r) with
  | Ok a =>
      exists h1,
        fix_var ver dis (name_table (co_varnames code))
          (name_table (co_names code)) h r = Ok h1 /\
        deref h1 r = set_arg (deref h r) a /\
        forall x, x <> r -> deref h1 x = deref h x
  | Raise e =>
      fix_var ver dis (name_table (co_varnames code))
        (name_table (co_names code)) h r = Raise e
  end.
Proof.
  unfold resolved_arg, fix_var.
  destruct (if version_ge ver (3, 11) &&
               String.eqb (opname (deref h r)) "LOAD_GLOBAL"
            then match arg (deref h r) with
                 | Some a => Ok (1, a mod 2)
                 | None => Raise AssertionError
                 end
            else Ok (0, 0)) as [[shift push_null]|e]; [|reflexivity].
  cbn [bind].
  destruct (Z_in (opcode (deref h r)) (dis_haslocal dis)).
  - destruct (table_lookup _ (argval (deref h r))) as [idx|e]; [|reflexivity].
    cbn [bind option_map]. rewrite deref_store_eq. cbn [arg set_arg].
    eexists. split; [reflexivity|]. split.
    + now rewrite deref_store_eq, set_arg_set_arg.
    + intros x Hx. now rewrite !deref_store_ne.
  - destruct (Z_in (opcode (deref h r)) (dis_hasname dis)).
    + destruct (table_lookup _ (argval (deref h r))) as [idx|e]; [|reflexivity].
      cbn [bind option_map]. rewrite deref_store_eq. cbn [arg set_arg].
      eexists. split; [reflexivity|]. split.
      * now rewrite deref_store_eq, set_arg_set_arg.
      * intros x Hx. now rewrite !deref_store_ne.
    + cbn [bind]. destruct (arg (deref h r)) as [a|] eqn:Ea; cbn [option_map].
      * eexists. split; [reflexivity|]. split.
        -- now rewrite deref_store_eq.
        -- intros x Hx. now rewrite deref_store_ne.
      * exists h. split; [reflexivity|]. split; [|reflexivity].
        rewrite <- Ea. symmetry. apply set_arg_id.
Qed.

Lemma resolved_arg_set_arg i a :
  flagged ver i = false ->
  Z_in (opcode i) (dis_haslocal dis) || Z_in (opcode i) (dis_hasname dis) = true ->
  resolved_arg ver dis code (set_arg i a) = resolved_arg ver dis code i.
Proof.
  unfold flagged, resolved_arg. cbn [opname opcode argval set_arg].
  intros -> Hn.
  destruct (Z_in (opcode i) (dis_haslocal dis)); [reflexivity|].
  cbn [orb] in Hn. now rewrite Hn.
Qed.

(** What [resolved_arg] returns, in terms of the tables. *)
Lemma resolved_arg_index i a :
  resolved_arg ver dis code i = Ok a ->
  flagged ver i = false ->
  (Z_in (opcode i) (dis_haslocal dis) = true ->
   exists s idx, argval i = PyStr s /\
     last_index (co_varnames code) s idx /\ a = Some (Z.of_nat idx)) /\
  (Z_in (opcode i) (dis_haslocal dis) = false ->
   Z_in (opcode i) (dis_hasname dis) = true ->
   exists s idx, argval i = PyStr s /\
     last_index (co_names code) s idx /\ a = Some (Z.of_nat idx)) /\
  (Z_in (opcode i) (dis_haslocal dis) = false ->
   Z_in (opcode i) (dis_hasname dis) = false -> a = arg i).
Proof.
  unfold flagged, resolved_arg. intros E Hf. rewrite Hf in E. cbn [bind] in E.
  assert (Hlook : forall names idx,
            table_lookup (name_table names) (argval i) = Ok idx ->
            exists s k, argval i = PyStr s /\ last_index names s k /\
                        idx = Z.of_nat k).
  { intros names idx El. unfold table_lookup in El.
    destruct (argval i) as [| |s|]; try discriminate.
    destruct (in_dec string_dec s names) as [Hin|Hnin].
    - destruct (table_lookup_names names s Hin) as (k & Ek & Hk).
      unfold table_lookup in Ek. exists s, k. split; [reflexivity|].
      split; [exact Hk|]. destruct (dict_last String.eqb (name_table names) s);
        congruence.
    - unfold name_table in El. rewrite dict_last_names_None in El by exact Hnin.
      discriminate. }
  destruct (Z_in (opcode i) (dis_haslocal dis)).
  - destruct (table_lookup _ (argval i)) as [idx|e] eqn:El; [|discriminate].
    cbn [bind option_map] in E. injection E as <-.
    split; [|split; discriminate]. intros _.
    destruct (Hlook _ _ El) as (s & k & Es & Hk & ->).
    exists s, k. split; [exact Es|]. split; [exact Hk|].
    now rewrite ?Z.shiftl_0_r, Z.add_0_r.
  - destruct (Z_in (opcode i) (dis_hasname dis)).
    + destruct (table_lookup _ (argval i)) as [idx|e] eqn:El; [|discriminate].
      cbn [bind option_map] in E. injection E as <-.
      split; [discriminate|]. split; [|discriminate]. intros _ _.
      destruct (Hlook _ _ El) as (s & k & Es & Hk & ->).
      exists s, k. split; [exact Es|]. split; [exact Hk|].
      now rewrite ?Z.shiftl_0_r, Z.add_0_r.
    + cbn [bind] in E. injection E as <-.
      split; [discriminate|]. split; [discriminate|]. intros _ _.
      destruct (arg i) as [a0|]; cbn [option_map]; [|reflexivity].
      now rewrite ?Z.shiftl_0_r, Z.add_0_r.
Qed.

(** The loop: what it has made of the objects it has visited. *)
Lemma fix_vars_loop_indices h rest : forall hc h',
  (forall x, exists a, deref hc x = set_arg (deref h x) a) ->
  fix_vars_loop ver dis (name_table (co_varnames code))
    (name_table (co_names code)) hc rest = Ok h' ->
  (forall x, exists a, deref h' x = set_arg (deref h x) a) /\
  (forall x, ~ In x rest -> deref h' x = deref hc x) /\
  (forall x, flagged ver (deref h x) = false ->
     Z_in (opcode (deref h x)) (dis_haslocal dis) = false ->
     Z_in (opcode (deref h x)) (dis_hasname dis) = false ->
     arg (deref h' x) = arg (deref hc x)) /\
  (forall x, In x rest -> flagged ver (deref h x) = false ->
     Z_in (opcode (deref h x)) (dis_haslocal dis) ||
     Z_in (opcode (deref h x)) (dis_hasname dis) = true ->
     resolved_arg ver dis code (deref h x) = Ok (arg (deref h' x))).
Proof.
  induction rest as [|r rest IH]; intros hc h' Hc E.
  - cbn in E. injection E as <-. split; [exact Hc|]. split; [reflexivity|].
    split; [reflexivity|]. intros x [].
  - cbn [fix_vars_loop] in E. apply bind_ok in E. destruct E as (h1 & E1 & E).
    pose proof (fix_var_as_resolved hc r) as Hr. rewrite E1 in Hr.
    destruct (resolved_arg ver dis code (deref hc r)) as [a|e] eqn:Er;
      [|discriminate].
    destruct Hr as (h1' & [= <-] & Hd & Hf).
    assert (Hc1 : forall x, exists a, deref h1 x = set_arg (deref h x) a).
    { intros x. destruct (Nat.eq_dec x r) as [->|Hne].
      - rewrite Hd. destruct (Hc r) as (a0 & ->). now exists a.
      - rewrite Hf by exact Hne. apply Hc. }
    destruct (IH h1 h' Hc1 E) as (Hc' & Hout & Hkeep & Hin).
    assert (Hsame : forall x b, deref hc x = set_arg (deref h x) b ->
              flagged ver (deref hc x) = flagged ver (deref h x) /\
              opcode (deref hc x) = opcode (deref h x)).
    { intros x b ->. split; reflexivity. }
    split; [exact Hc'|]. split.
    { intros x Hx. rewrite Hout by (intros H; apply Hx; now right).
      apply Hf. intros ->. apply Hx. now left. }
    split.
    { intros x Hfl Hl Hn. rewrite (Hkeep x Hfl Hl Hn).
      destruct (Nat.eq_dec x r) as [->|Hne]; [|now rewrite Hf].
      rewrite Hd. cbn [arg set_arg].
      destruct (Hc r) as (b & Eb). destruct (Hsame r b Eb) as [Hfl' Hop'].
      destruct (resolved_arg_index _ _ Er) as (_ & _ & Hk); [congruence|].
      apply Hk; congruence. }
    intros x [<-|Hx] Hfl Hln; [|now apply Hin].
    destruct (in_dec Nat.eq_dec r rest) as [Hr|Hr]; [now apply Hin|].
    rewrite Hout by exact Hr. rewrite Hd. cbn [arg set_arg].
    destruct (Hc r) as (b & Eb). rewrite Eb in Er.
    now rewrite resolved_arg_set_arg in Er.
Qed.

End FixVarsAll.

(** Extra X10: the operands that [fix_vars] assigns.  On success it has written
    [arg] only, and only of instructions of the list.  Leaving aside the
    LOAD_GLOBAL of Python 3.11, whose operand carries a flag bit: the
    operand of an instruction whose opcode is in [dis.haslocal] is the
    position of its [argval] in [co_varnames], that of another instruction
    whose opcode is in [dis.hasname] the position of its [argval] in
    [co_names] (the last position, should the name occur twice), and every
    other instruction keeps its operand. *)
Theorem fix_vars_indices (ver : version) (dis : Dis) (code_options : Code)
    (h : heap) (l : list ref) (h' : heap) :
  fix_vars ver dis h l code_options = Ok h' ->
  (forall x, exists a, deref h' x = set_arg (deref h x) a) /\
  (forall x, ~ In x l -> deref h' x = deref h x) /\
  (forall r, In r l -> flagged ver (deref h r) = false ->
     (Z_in (opcode (deref h r)) (dis_haslocal dis) = true ->
      exists s idx, argval (deref h r) = PyStr s /\
        last_index (co_varnames code_options) s idx /\
        arg (deref h' r) = Some (Z.of_nat idx)) /\
     (Z_in (opcode (deref h r)) (dis_haslocal dis) = false ->
      Z_in (opcode (deref h r)) (dis_hasname dis) = true ->
      exists s idx, argval (deref h r) = PyStr s /\
        last_index (co_names code_options) s idx /\
        arg (deref h' r) = Some (Z.of_nat idx)) /\
     (Z_in (opcode (deref h r)) (dis_haslocal dis) = false ->
      Z_in (opcode (deref h r)) (dis_hasname dis) = false ->
      arg (deref h' r) = arg (deref h r))).
Proof.
  unfold fix_vars. intros E.
  assert (Hc0 : forall x, exists a, deref h x = set_arg (deref h x) a).
  { intros x. exists (arg (deref h x)). now rewrite set_arg_id. }
  destruct (fix_vars_loop_indices ver dis code_options h l h h' Hc0 E)
    as (Hc & Hout & Hkeep & Hin).
  split; [exact Hc|]. split; [exact Hout|].
  intros r Hr Hfl. split; [|split].
  - intros Hl.
    destruct (resolved_arg_index ver dis code_options _ _
                (Hin r Hr Hfl ltac:(now rewrite Hl)) Hfl) as (H1 & _).
    exact (H1 Hl).
  - intros Hl Hn.
    destruct (resolved_arg_index ver dis code_options _ _
                (Hin r Hr Hfl ltac:(now rewrite Hl, Hn)) Hfl) as (_ & H2 & _).
    exact (H2 Hl Hn).
  - intros Hl Hn. exact (Hkeep r Hfl Hl Hn).
Qed.

Section FixVarsErrors.

Variable ver : version.
Variable dis : Dis.
Variable code : Code.

Lemma resolved_arg_raises i e :
  resolved_arg ver dis code i = Raise e ->
  e = KeyError \/ (version_ge ver (3, 11) = true /\ e = AssertionError).
Proof.
  unfold resolved_arg.
  assert (Hlook : forall t k e', table_lookup t k = Raise e' -> e' = KeyError).
  { intros t k e'. unfold table_lookup. destruct k; try (now intros [= <-]).
    destruct (dict_last String.eqb t s); [discriminate|now intros [= <-]]. }
  destruct (version_ge ver (3, 11)) eqn:Hv; cbn [andb].
  - destruct (String.eqb (opname i) "LOAD_GLOBAL").
    + destruct (arg i) as [a|]; [|intros [= <-]; right; now split].
      cbn [bind]. destruct (Z_in (opcode i) (dis_haslocal dis)).
      * destruct (table_lookup _ (argval i)) as [idx|e'] eqn:El; [discriminate|].
        intros [= <-]. left. exact (Hlook _ _ _ El).
      * destruct (Z_in (opcode i) (dis_hasname dis)); [|discriminate].
        destruct (table_lookup _ (argval i)) as [idx|e'] eqn:El; [discriminate|].
        intros [= <-]. left. exact (Hlook _ _ _ El).
    + cbn [bind]. destruct (Z_in (opcode i) (dis_haslocal dis)).
      * destruct (table_lookup _ (argval i)) as [idx|e'] eqn:El; [discriminate|].
        intros [= <-]. left. exact (Hlook _ _ _ El).
      * destruct (Z_in (opcode i) (dis_hasname dis)); [|discriminate].
        destruct (table_lookup _ (argval i)) as [idx|e'] eqn:El; [discriminate|].
        intros [= <-]. left. exact (Hlook _ _ _ El).
  - cbn [bind]. destruct (Z_in (opcode i) (dis_haslocal dis)).
    + destruct (table_lookup _ (argval i)) as [idx|e'] eqn:El; [discriminate|].
      intros [= <-]. left. exact (Hlook _ _ _ El).
    + destruct (Z_in (opcode i) (dis_hasname dis)); [|discriminate].
      destruct (table_lookup _ (argval i)) as [idx|e'] eqn:El; [discriminate|].
      intros [= <-]. left. exact (Hlook _ _ _ El).
Qed.

Lemma table_lookup_unknown names k :
  (forall s, k = PyStr s -> ~ In s names) ->
  table_lookup (name_table names) k = Raise KeyError.
Proof.
  intros H. unfold table_lookup. destruct k as [| |s|]; try reflexivity.
  unfold name_table. now rewrite dict_last_names_None by (now apply H).
Qed.

Lemma resolved_arg_unknown i :
  unknown_name dis code i -> exists e, resolved_arg ver dis code i = Raise e.
Proof.
  unfold resolved_arg.
  intros [(Hl & Hs)|(Hl & Hn & Hs)];
    destruct (if version_ge ver (3, 11) && String.eqb (opname i) "LOAD_GLOBAL"
              then match arg i with
                   | Some a => Ok (1, a mod 2)
                   | None => Raise AssertionError
                   end
              else Ok (0, 0)) as [[shift pn]|e]; try (now exists e);
    cbn [bind]; rewrite Hl; try rewrite Hn;
    rewrite table_lookup_unknown by exact Hs; now exists KeyError.
Qed.

Lemma fix_vars_loop_unknown h rest : forall hc,
  (forall x, exists a, deref hc x = set_arg (deref h x) a) ->
  (exists r, In r rest /\ unknown_name dis code (deref h r)) ->
  exists e,
    fix_vars_loop ver dis (name_table (co_varnames code))
      (name_table (co_names code)) hc rest = Raise e /\
    (e = KeyError \/ (version_ge ver (3, 11) = true /\ e = AssertionError)).
Proof.
  induction rest as [|r rest IH]; intros hc Hc (x & Hx & Hu); [destruct Hx|].
  cbn [fix_vars_loop].
  pose proof (fix_var_as_resolved ver dis code hc r) as Hr.
  destruct (resolved_arg ver dis code (deref hc r)) as [a|e] eqn:Er.
  - destruct Hr as (h1 & -> & Hd & Hf). cbn [bind]. apply IH.
    + intros y. destruct (Nat.eq_dec y r) as [->|Hne].
      * rewrite Hd. destruct (Hc r) as (a0 & ->). now exists a.
      * rewrite Hf by exact Hne. apply Hc.
    + destruct Hx as [<-|Hx]; [|now exists x].
      exfalso. destruct (Hc r) as (b & Eb).
      destruct (resolved_arg_unknown (deref hc r)) as (e & Ee); [|congruence].
      rewrite Eb. exact Hu.
  - rewrite Hr. cbn [bind]. exists e. split; [reflexivity|].
    exact (resolved_arg_raises _ _ Er).
Qed.

(** An operand that [fix_var] has assigned is assigned again as it is. *)
Lemma resolved_arg_stable i a :
  (flagged ver i = true ->
   Z_in (opcode i) (dis_haslocal dis) || Z_in (opcode i) (dis_hasname dis) = true) ->
  resolved_arg ver dis code i = Ok a ->
  resolved_arg ver dis code (set_arg i a) = Ok a.
Proof.
  intros HF E. destruct (flagged ver i) eqn:Hfl.
  - specialize (HF eq_refl). revert E. unfold flagged in Hfl.
    unfold resolved_arg. cbn [opname opcode argval arg set_arg]. rewrite Hfl.
    destruct (arg i) as [a0|]; [|discriminate]. cbn [bind].
    assert (Hm : forall idx, (Z.shiftl idx 1 + a0 mod 2) mod 2 = a0 mod 2).
    { intros idx. apply shiftl_1_mod2. apply Z.mod_pos_bound. lia. }
    destruct (Z_in (opcode i) (dis_haslocal dis)).
    + destruct (table_lookup _ (argval i)) as [idx|e]; [|discriminate].
      cbn [bind option_map]. intros E.
      assert (Ea : a = Some (Z.shiftl idx 1 + a0 mod 2)) by congruence.
      subst a. cbn [bind option_map]. now rewrite Hm.
    + cbn [orb] in HF. rewrite HF.
      destruct (table_lookup _ (argval i)) as [idx|e]; [|discriminate].
      cbn [bind option_map]. intros E.
      assert (Ea : a = Some (Z.shiftl idx 1 + a0 mod 2)) by congruence.
      subst a. cbn [bind option_map]. now rewrite Hm.
  - destruct (Z_in (opcode i) (dis_haslocal dis) ||
              Z_in (opcode i) (dis_hasname dis)) eqn:Hln.
    + now rewrite resolved_arg_set_arg.
    + apply orb_false_iff in Hln. destruct Hln as [Hl Hn].
      destruct (resolved_arg_index ver dis code i a E Hfl) as (_ & _ & Hk).
      rewrite (Hk Hl Hn), set_arg_id. now rewrite <- (Hk Hl Hn).
Qed.

Lemma fix_vars_loop_stable h rest : forall hc h',
  (forall x, exists a, deref hc x = set_arg (deref h x) a) ->
  (forall x, flagged ver (deref h x) = true ->
     Z_in (opcode (deref h x)) (dis_haslocal dis) ||
     Z_in (opcode (deref h x)) (dis_hasname dis) = true) ->
  fix_vars_loop ver dis (name_table (co_varnames code))
    (name_table (co_names code)) hc rest = Ok h' ->
  (forall x, resolved_arg ver dis code (deref hc x) = Ok (arg (deref hc x)) ->
     deref h' x = deref hc x) /\
  (forall x, In x rest ->
     resolved_arg ver dis code (deref h' x) = Ok (arg (deref h' x))).
Proof.
  induction rest as [|r rest IH]; intros hc h' Hc HF E.
  - cbn in E. injection E as <-. split; [reflexivity|]. intros x [].
  - cbn [fix_vars_loop] in E. apply bind_ok in E. destruct E as (h1 & E1 & E).
    pose proof (fix_var_as_resolved ver dis code hc r) as Hr. rewrite E1 in Hr.
    destruct (resolved_arg ver dis code (deref hc r)) as [a|e] eqn:Er;
      [|discriminate].
    destruct Hr as (h1' & [= <-] & Hd & Hf).
    assert (Hc1 : forall x, exists a, deref h1 x = set_arg (deref h x) a).
    { intros x. destruct (Nat.eq_dec x r) as [->|Hne].
      - rewrite Hd. destruct (Hc r) as (a0 & ->). now exists a.
      - rewrite Hf by exact Hne. apply Hc. }
    destruct (IH h1 h' Hc1 HF E) as (Hst & Hin).
    assert (Hr1 : resolved_arg ver dis code (deref h1 r) = Ok (arg (deref h1 r))).
    { rewrite Hd. cbn [arg set_arg]. apply resolved_arg_stable; [|exact Er].
      destruct (Hc r) as (b & ->). exact (HF r). }
    split.
    + intros x Hx. destruct (Nat.eq_dec x r) as [->|Hne].
      * rewrite (Hst r Hr1), Hd. rewrite Er in Hx. injection Hx as ->.
        apply set_arg_id.
      * rewrite <- (Hf x Hne). apply Hst. now rewrite Hf.
    + intros x [<-|Hx]; [|now apply Hin].
      now rewrite (Hst r Hr1).
Qed.

End FixVarsErrors.

(** Extra X11: an unknown name.  If an instruction of the list has its opcode in
    [dis.haslocal] and an [argval] that is not a name of [co_varnames], or
    its opcode in [dis.hasname] (and not in [dis.haslocal]) and an [argval]
    that is not a name of [co_names], [fix_vars] raises: [KeyError], or,
    from Python 3.11 on, the [AssertionError] of a LOAD_GLOBAL without
    operand, if that comes first. *)
Theorem fix_vars_unknown_name (ver : version) (dis : Dis) (code_options : Code)
    (h : heap) (l : list ref) (r : nat) :
  In r l -> unknown_name dis code_options (deref h r) ->
  exists e,
    fix_vars ver dis h l code_options = Raise e /\
    (e = KeyError \/ (version_ge ver (3, 11) = true /\ e = AssertionError)).
Proof.
  intros Hr Hu. unfold fix_vars.
  apply (fix_vars_loop_unknown ver dis code_options h l h).
  - intros x. exists (arg (deref h x)). now rewrite set_arg_id.
  - now exists r.
Qed.

(** Extra X12: [fix_vars] is idempotent.  Provided that, from Python 3.11 on, the
    instructions named LOAD_GLOBAL have their opcode in [dis.hasname] or
    [dis.haslocal]: after a run that succeeded, a second run succeeds and
    changes no instruction. *)
Theorem fix_vars_idempotent (ver : version) (dis : Dis) (code_options : Code)
    (h : heap) (l : list ref) (h1 : heap) :
  (forall x, flagged ver (deref h x) = true ->
     Z_in (opcode (deref h x)) (dis_haslocal dis) ||
     Z_in (opcode (deref h x)) (dis_hasname dis) = true) ->
  fix_vars ver dis h l code_options = Ok h1 ->
  exists h2,
    fix_vars ver dis h1 l code_options = Ok h2 /\
    forall x, deref h2 x = deref h1 x.
Proof.
  intros HF E. unfold fix_vars in *.
  destruct (fix_vars_loop_stable ver dis code_options h l h h1) as (_ & Hin).
  - intros x. exists (arg (deref h x)). now rewrite set_arg_id.
  - exact HF.
  - exact E.
  - apply (fix_vars_loop_resolved ver dis code_options h1 l h1).
    + reflexivity.
    + exact Hin.
Qed.

Lemma fix_vars_indices_witness :
  exists h',
    fix_vars Py39.ver Py39.tables vars39 [0; 1; 2]%nat vars_code = Ok h' /\
    listing h' [0; 1; 2]%nat =
      [("LOAD_FAST", Some 1); ("LOAD_GLOBAL", Some 1); ("LOAD_CONST", Some 3)] /\
    (forall x, exists a, deref h' x = set_arg (deref vars39 x) a).
Proof.
  destruct (fix_vars Py39.ver Py39.tables vars39 [0; 1; 2]%nat vars_code)
    as [h'|e] eqn:E; [|vm_compute in E; discriminate].
  exists h'. split; [reflexivity|]. split.
  - vm_compute in E. injection E as <-. reflexivity.
  - exact (proj1 (fix_vars_indices Py39.ver Py39.tables vars_code vars39
                    [0; 1; 2]%nat h' E)).
Defined.

Lemma fix_vars_unknown_name_witness :
  exists e,
    fix_vars Py39.ver Py39.tables vars39 [0; 1; 2; 3]%nat vars_code = Raise e /\
    (e = KeyError \/
     (version_ge Py39.ver (3, 11) = true /\ e = AssertionError)).
Proof.
  apply (fix_vars_unknown_name Py39.ver Py39.tables vars_code vars39
           [0; 1; 2; 3]%nat 3%nat).
  - simpl. auto.
  - left. split; [reflexivity|].
    intros s [= <-] [H|[H|[]]]; discriminate.
Defined.

Lemma fix_vars_idempotent_witness :
  exists h1 h2,
    fix_vars Py39.ver Py39.tables vars39 [0; 1; 2]%nat vars_code = Ok h1 /\
    fix_vars Py39.ver Py39.tables h1 [0; 1; 2]%nat vars_code = Ok h2 /\
    forall x, deref h2 x = deref h1 x.
Proof.
  destruct (fix_vars Py39.ver Py39.tables vars39 [0; 1; 2]%nat vars_code)
    as [h1|e] eqn:E; [|vm_compute in E; discriminate].
  destruct (fix_vars_idempotent Py39.ver Py39.tables vars_code vars39
              [0; 1; 2]%nat h1) as (h2 & E2 & Heq).
  - intros x H. unfold flagged in H. simpl in H. discriminate.
  - exact E.
  - exists h1, h2. split; [reflexivity|]. split; [exact E2|exact Heq].
Defined.

(** ** [remove_load_call_method] *)

Lemma renamed_idem op1 op2 i :
  renamed op1 op2 (renamed op1 op2 i) = renamed op1 op2 i.
Proof.
  unfold renamed. destruct (String.eqb (opname i) "LOAD_METHOD") eqn:E1.
  - reflexivity.
  - destruct (String.eqb (opname i) "CALL_METHOD") eqn:E2.
    + reflexivity.
    + now rewrite E1, E2.
Qed.

Lemma remove_load_call_method_step dis h r op1 op2 :
  dis_opmap dis "LOAD_ATTR" = Some op1 ->
  dis_opmap dis "CALL_FUNCTION" = Some op2 ->
  exists h1,
    match dict_find rewrites (opname (deref h r)) with
    | Some name' =>
        match dis_opmap dis name' with
        | Some op => Ok (store h r (set_opcode (set_opname (deref h r) name') op))
        | None => Raise KeyError
        end
    | None => Ok h
    end = Ok h1 /\
    deref h1 r = renamed op1 op2 (deref h r) /\
    forall x, x <> r -> deref h1 x = deref h x.
Proof.
  intros H1 H2. unfold rewrites, renamed. cbn [dict_find].
  destruct (String.eqb (opname (deref h r)) "LOAD_METHOD").
  - rewrite H1. eexists. split; [reflexivity|]. split.
    + now rewrite deref_store_eq.
    + intros x Hx. now rewrite deref_store_ne.
  - destruct (String.eqb (opname (deref h r)) "CALL_METHOD").
    + rewrite H2. eexists. split; [reflexivity|]. split.
      * now rewrite deref_store_eq.
      * intros x Hx. now rewrite deref_store_ne.
    + exists h. repeat split.
Qed.

(** Extra X6: [remove_load_call_method].  When [dis.opmap] has LOAD_ATTR and
    CALL_FUNCTION the pass succeeds: every LOAD_METHOD of the list becomes
    LOAD_ATTR and every CALL_METHOD becomes CALL_FUNCTION, with the opcode
    of the new name; no other field and no other instruction is written. *)
Theorem remove_load_call_method_renames (dis : Dis) (h : heap) (l : list ref)
    (op1 op2 : Z) :
  dis_opmap dis "LOAD_ATTR" = Some op1 ->
  dis_opmap dis "CALL_FUNCTION" = Some op2 ->
  exists h',
    remove_load_call_method dis h l = Ok h' /\
    (forall x, In x l -> deref h' x = renamed op1 op2 (deref h x)) /\
    (forall x, ~ In x l -> deref h' x = deref h x).
Proof.
  intros H1 H2.
  assert (G : forall l hc,
    (forall x, deref hc x = deref h x \/ deref hc x = renamed op1 op2 (deref h x)) ->
    exists h',
      remove_load_call_method dis hc l = Ok h' /\
      (forall x, In x l -> deref h' x = renamed op1 op2 (deref h x)) /\
      (forall x, ~ In x l -> deref h' x = deref hc x)).
  { clear l. induction l as [|r l IH]; intros hc Hc.
    - exists hc. split; [reflexivity|]. split; [intros x []|reflexivity].
    - rewrite remove_load_call_method_cons.
      destruct (remove_load_call_method_step dis hc r op1 op2 H1 H2)
        as (h1 & -> & Hd & Hf).
      cbn [bind].
      assert (Hr : deref h1 r = renamed op1 op2 (deref h r)).
      { rewrite Hd. destruct (Hc r) as [->| ->]; [reflexivity|apply renamed_idem]. }
      destruct (IH h1) as (h' & E & Hin & Hout).
      { intros x. destruct (Nat.eq_dec x r) as [->|Hne]; [now right|].
        rewrite Hf by exact Hne. apply Hc. }
      exists h'. split; [exact E|]. split.
      + intros x [<-|Hx]; [|now apply Hin].
        destruct (in_dec Nat.eq_dec r l) as [Hr'|Hr']; [now apply Hin|].
        now rewrite Hout.
      + intros x Hx. rewrite Hout by (intros H; apply Hx; now right).
        apply Hf. intros ->. apply Hx. now left. }
  destruct (G l h) as (h' & E & Hin & Hout); [now left|].
  now exists h'.
Qed.

Lemma remove_load_call_method_renames_witness :
  exists h',
    remove_load_call_method Py39.tables super39 [0; 1; 2; 3; 4]%nat = Ok h' /\
    listing h' [0; 1; 2; 3; 4]%nat =
      [("LOAD_GLOBAL", Some 0); ("CALL_FUNCTION", Some 0);
       ("LOAD_ATTR", Some 1); ("CALL_FUNCTION", Some 0);
       ("RETURN_VALUE", None)].
Proof.
  destruct (remove_load_call_method_renames Py39.tables super39
              [0; 1; 2; 3; 4]%nat 106 131 eq_refl eq_refl)
    as (h' & E & Hin & _).
  exists h'. split; [exact E|]. unfold listing. cbn [map].
  rewrite !Hin by (simpl; auto 10). reflexivity.
Defined.

(** ** [fix_extended_args] and [strip_extended_args] *)

Section StripFix.

Variable dis : Dis.

Lemma strip_app h l1 l2 :
  strip_extended_args dis h (l1 ++ l2) =
  strip_extended_args dis h l1 ++ strip_extended_args dis h l2.
Proof. unfold strip_extended_args. apply filter_app. Qed.

Lemma strip_exts h (cs : list ref) :
  Forall (fun c => is_extended_arg dis (deref h c) = true) cs ->
  strip_extended_args dis h cs = [].
Proof.
  induction 1 as [|c cs Hc _ IH]; [reflexivity|].
  unfold strip_extended_args in *. cbn [filter]. now rewrite Hc.
Qed.

Lemma strip_one h r :
  strip_extended_args dis h [r] =
  if is_extended_arg dis (deref h r) then [] else [r].
Proof.
  unfold strip_extended_args. cbn [filter].
  now destruct (is_extended_arg dis (deref h r)).
Qed.

Lemma expands_strip h n0 l out :
  expands dis h n0 l out ->
  strip_extended_args dis h out = strip_extended_args dis h l.
Proof.
  induction 1 as [|l out r H IH Hr Hx|l out r H IH Hr Hx Hz
                 |l out popped chain r H IH Hr Hx Hlen Hpos Hpop Hle Hends Hch Hck].
  - reflexivity.
  - now rewrite !strip_app, IH.
  - now rewrite !strip_app, IH.
  - rewrite !strip_app, IH. f_equal. f_equal.
    rewrite !strip_exts; [reflexivity| |].
    + eapply Forall_impl; [|exact Hpop]. now intros c [_ Hc].
    + clear - Hck. induction Hck as [|c s cs ss [Hc _] _ IHc]; constructor; auto.
Qed.

End StripFix.

(** Extra X5: [fix_extended_args] touches EXTENDED_ARG instructions only.  The
    other instructions of the list are in the result, the same objects in
    the same order and with all their fields: what [strip_extended_args]
    leaves of the result is what it leaves of the input. *)
Theorem fix_extended_args_keeps_instructions (dis : Dis) (h : heap)
    (l : list ref) :
  dis_opmap dis "EXTENDED_ARG" = Some (dis_EXTENDED_ARG dis) ->
  allocated h l ->
  exists h' out added,
    fix_extended_args dis h l = Ok (h', out, added) /\
    strip_extended_args dis h' out = strip_extended_args dis h l /\
    (forall r, In r l -> is_extended_arg dis (deref h r) = false ->
               deref h' r = deref h r).
Proof.
  intros Hext Hl.
  destruct (fix_extended_args_spec dis Hext h l Hl) as (h' & out & E & Hexp & F & _).
  exists h', out, (Z.of_nat (List.length out) - Z.of_nat (List.length l)).
  split; [exact E|]. unfold allocated in Hl. rewrite Forall_forall in Hl.
  split.
  - rewrite (expands_strip dis _ _ _ _ Hexp). unfold strip_extended_args.
    apply filter_ext_in. intros r Hr.
    now rewrite (frame_is_ext dis _ _ _ _ F (Hl r Hr)).
  - intros r Hr Hx. exact (frame_plain dis _ _ _ _ F (Hl r Hr) Hx).
Qed.

Lemma fix_extended_args_keeps_instructions_witness :
  exists h' out added,
    fix_extended_args Py39.tables wide39 [0; 1]%nat = Ok (h', out, added) /\
    strip_extended_args Py39.tables h' out =
      strip_extended_args Py39.tables wide39 [0; 1]%nat /\
    (forall r, In r [0; 1]%nat ->
               is_extended_arg Py39.tables (deref wide39 r) = false ->
               deref h' r = deref wide39 r).
Proof.
  apply (fix_extended_args_keeps_instructions Py39.tables wide39 [0; 1]%nat).
  - reflexivity.
  - unfold allocated. simpl. repeat constructor.
Defined.

(** ** The writers when the byte position goes back *)

Lemma lnotab_update_loop_back n : forall st ln bn,
  bn < ln_byteno st ->
  lnotab_update_loop n st ln bn = Raise AssertionError.
Proof.
  induction n as [|n IH]; intros st ln bn Hb.
  - cbn [lnotab_update_loop].
    replace (bn =? ln_byteno st) with false by (symmetry; apply Z.eqb_neq; lia).
    reflexivity.
  - rewrite lnotab_update_loop_S.
    replace (bn =? ln_byteno st) with false by (symmetry; apply Z.eqb_neq; lia).
    cbn [andb].
    replace (Z.max 0 (Z.min (bn - ln_byteno st) 255)) with 0 by lia.
    cbn [Z.eqb negb orb].
    destruct (Z.max (-128) (Z.min (ln - ln_lineno st) 127) =? 0);
      cbn [negb assert bind]; [reflexivity|].
    apply IH. cbn [ln_byteno]. lia.
Qed.

Lemma _update_loop_back n : forall table bd ld,
  bd < 0 -> _update_loop n table bd ld = Raise AssertionError.
Proof.
  induction n as [|n IH]; intros table bd ld Hb.
  - cbn [_update_loop].
    replace (bd =? 0) with false by (symmetry; apply Z.eqb_neq; lia).
    reflexivity.
  - rewrite _update_loop_S.
    replace (bd =? 0) with false by (symmetry; apply Z.eqb_neq; lia).
    cbn [andb].
    replace (Z.max 0 (Z.min bd 254)) with 0 by lia.
    cbn [Z.eqb negb orb].
    destruct (Z.max (-127) (Z.min ld 127) =? 0);
      cbn [negb assert bind]; [reflexivity|].
    apply IH. lia.
Qed.

(** Extra X18: the writers do not go back.  An update to a byte position before
    the one recorded last raises [AssertionError], in both formats and
    whatever the line numbers are: once the line delta is written no entry
    is left that could be written.  So does [end] with a total below the
    position recorded last. *)
Theorem line_table_never_goes_back :
  (forall st lineno_new byteno_new,
     byteno_new < ln_byteno st ->
     lnotab_update st lineno_new byteno_new = Raise AssertionError) /\
  (forall st lineno_new byteno_new,
     byteno_new < lt_byteno st ->
     linetable_update st lineno_new byteno_new = Raise AssertionError) /\
  (forall st total_bytes,
     total_bytes < lt_byteno st ->
     linetable_end st total_bytes = Raise AssertionError).
Proof.
  split; [|split].
  - intros st ln bn Hb. unfold lnotab_update. now apply lnotab_update_loop_back.
  - intros st ln bn Hb. unfold linetable_update, _update.
    rewrite _update_loop_back by lia. reflexivity.
  - intros st total Hb. unfold linetable_end, _update.
    rewrite _update_loop_back by lia. reflexivity.
Qed.

Lemma line_table_never_goes_back_witness :
  lnotab_update (mkLnotab [] 1 10) 5 4 = Raise AssertionError /\
  linetable_update (mkLinetable [] 1 3 10) 5 4 = Raise AssertionError.
Proof.
  split.
  - apply (proj1 line_table_never_goes_back). simpl. lia.
  - apply (proj1 (proj2 line_table_never_goes_back)). simpl. lia.
Defined.

(** ** The size of an instruction and its bytes *)

Lemma caches_range name : 0 <= dict_get _PYOPCODE_CACHES name 0 <= 10.
Proof.
  unfold _PYOPCODE_CACHES. cbn [dict_get].
  repeat match goal with
         | |- context [if String.eqb ?a ?b then _ else _] =>
             destruct (String.eqb a b); [lia|]
         end.
  lia.
Qed.

Lemma cache_padding_length n : List.length (cache_padding n) = (2 * n)%nat.
Proof. induction n as [|n IH]; cbn [cache_padding List.length]; lia. Qed.

Lemma instruction_size_bytes (ver : version) (dis : Dis)
    (i : Instruction) :
  Z.of_nat (List.length (encode_instruction ver dis i)) =
    instruction_size ver dis i /\
  2 <= instruction_size ver dis i <= 22 /\
  Z.even (instruction_size ver dis i) = true /\
  (version_ge ver (3, 11) = false -> instruction_size ver dis i = 2).
Proof.
  unfold encode_instruction, instruction_size.
  pose proof (caches_range (dis_opname dis (opcode i))) as Hc.
  destruct (version_ge ver (3, 11)).
  - set (c := dict_get _PYOPCODE_CACHES (dis_opname dis (opcode i)) 0) in *.
    rewrite length_app, cache_padding_length. cbn [List.length].
    replace (2 * (c + 1) / 2 - 1) with c
      by (rewrite Z.mul_comm, Z.div_mul by lia; lia).
    split; [lia|]. split; [lia|]. split; [|discriminate].
    rewrite Z.even_mul. reflexivity.
  - cbn. repeat split; lia.
Qed.



(** ** [assemble] *)

Section AssembleAll.

Variable ver : version.
Variable dis : Dis.

Lemma assemble_loop_code h l : forall code w code' w',
  assemble_loop ver dis h l code w = Ok (code', w') ->
  code' = code ++ flat_map (fun r => encode_instruction ver dis (deref h r)) l.
Proof.
  induction l as [|r l IH]; intros code w code' w'.
  - cbn. intros [= <- <-]. now rewrite app_nil_r.
  - rewrite assemble_loop_cons. intros E. apply bind_ok in E.
    destruct E as (w1 & _ & E). rewrite (IH _ _ _ _ E).
    cbn [flat_map]. now rewrite app_assoc.
Qed.

(** The loop of [assemble] with the writer of Python 3.9 and before: no
    update fails, because the byte position only grows. *)
Lemma assemble_loop_legacy h l : forall code st,
  ln_byteno st <= Z.of_nat (List.length code) ->
  exists st' es,
    assemble_loop ver dis h l code (Lnotab st) =
      Ok (code ++ flat_map (fun r => encode_instruction ver dis (deref h r)) l,
          Lnotab st') /\
    ln_byteno st' <=
      Z.of_nat (List.length
                  (code ++ flat_map (fun r => encode_instruction ver dis (deref h r)) l)) /\
    lnotab st' = lnotab st ++ encode_entries es /\
    Forall legacy_entry es /\
    sum_bytes es = ln_byteno st' - ln_byteno st /\
    sum_lines es = ln_lineno st' - ln_lineno st.
Proof.
  induction l as [|r l IH]; intros code st Hb.
  - exists st, []. cbn. rewrite !app_nil_r.
    unfold sum_bytes, sum_lines. cbn. repeat split; auto; lia.
  - rewrite assemble_loop_cons.
    assert (Hstep : exists st1 es1,
              match starts_line (deref h r) with
              | Some line =>
                  update_lineno (Lnotab st) line (Z.of_nat (List.length code))
              | None => Ok (Lnotab st)
              end = Ok (Lnotab st1) /\
              ln_byteno st1 <= Z.of_nat (List.length code) /\
              lnotab st1 = lnotab st ++ encode_entries es1 /\
              Forall legacy_entry es1 /\
              sum_bytes es1 = ln_byteno st1 - ln_byteno st /\
              sum_lines es1 = ln_lineno st1 - ln_lineno st).
    { destruct (starts_line (deref h r)) as [line|].
      - unfold update_lineno.
        destruct (lnotab_update_spec st line (Z.of_nat (List.length code)) Hb)
          as (es1 & -> & Hes & Hsb & Hsl & _).
        cbn [bind]. eexists _, es1. split; [reflexivity|]. cbn.
        repeat split; try assumption; lia.
      - exists st, []. rewrite app_nil_r. unfold sum_bytes, sum_lines. cbn.
        repeat split; auto; lia. }
    destruct Hstep as (st1 & es1 & -> & Hb1 & Ht1 & Hes1 & Hsb1 & Hsl1).
    cbn [bind].
    pose proof (encode_instruction_length ver dis (deref h r)) as Hlen.
    destruct (IH (code ++ encode_instruction ver dis (deref h r)) st1)
      as (st' & es & Hrun & Hb' & Ht & Hes & Hsb & Hsl).
    { rewrite length_app. lia. }
    cbn [flat_map]. rewrite app_assoc.
    exists st', (es1 ++ es). split; [exact Hrun|]. split; [exact Hb'|].
    split; [rewrite Ht, Ht1, encode_entries_app, app_assoc; reflexivity|].
    split; [now apply Forall_app|].
    rewrite sum_bytes_app, sum_lines_app. lia.
Qed.

Lemma bytes_raise l b :
  In b l -> ~ 0 <= b < 256 -> bytes l = Raise ValueError.
Proof.
  intros Hin Hb. unfold bytes.
  destruct (forallb (fun b => (0 <=? b) && (b <? 256)) l) eqn:E; [|reflexivity].
  exfalso. rewrite forallb_forall in E. specialize (E b Hin).
  apply andb_true_iff in E. destruct E as [E1 E2].
  apply Z.leb_le in E1. apply Z.ltb_lt in E2. lia.
Qed.

Lemma opcode_in_code h (l : list ref) r :
  In r l ->
  In (opcode (deref h r))
     (flat_map (fun r => encode_instruction ver dis (deref h r)) l).
Proof.
  intros Hr. apply in_flat_map. exists r. split; [exact Hr|].
  unfold encode_instruction. now left.
Qed.

(** The bytes of an instruction are at its offset. *)
Lemma laid_out_bytes h l : forall code0 off r,
  laid_out_from ver dis h off l ->
  off = Z.of_nat (List.length code0) ->
  In r l ->
  exists o, offset (deref h r) = Some o /\ 0 <= o /\
    nth_error
      (code0 ++ flat_map (fun r => encode_instruction ver dis (deref h r)) l)
      (Z.to_nat o) = Some (opcode (deref h r)) /\
    nth_error
      (code0 ++ flat_map (fun r => encode_instruction ver dis (deref h r)) l)
      (S (Z.to_nat o)) = Some (Z.land (arg_or_0 (arg (deref h r))) 0xFF).
Proof.
  induction l as [|x l IH]; intros code0 off r Hlaid Hoff Hr; [destruct Hr|].
  cbn [laid_out_from] in Hlaid. destruct Hlaid as [Hx Hl].
  cbn [flat_map].
  destruct (instruction_size_bytes ver dis (deref h x)) as (Hsz & _).
  destruct (Nat.eq_dec r x) as [->|Hne].
  - exists off. split; [exact Hx|]. split; [lia|].
    subst off. rewrite Nat2Z.id. split.
    + rewrite nth_error_app2 by lia. rewrite Nat.sub_diag. reflexivity.
    + rewrite nth_error_app2 by lia.
      replace (S (List.length code0) - List.length code0)%nat with 1%nat by lia.
      reflexivity.
  - destruct Hr as [Hr|Hr]; [congruence|].
    rewrite app_assoc.
    apply (IH (code0 ++ encode_instruction ver dis (deref h x))
              (off + instruction_size ver dis (deref h x)) r Hl);
      [|exact Hr].
    rewrite length_app. lia.
Qed.

End AssembleAll.

(** Extra X15: where [assemble] puts an instruction.  When the offsets of the list
    are contiguous (as [update_offsets] leaves them, and as [check_offsets]
    requires), the assembled code has, at the offset of each instruction,
    its opcode and then the low byte of its operand (0 when it has none):
    the offsets that the jumps were computed from are the positions in the
    code. *)
Theorem assemble_layout (ver : version) (dis : Dis) (h : heap) (l : list ref)
    (firstlineno : Z) (bytecode table : list Z) :
  assemble ver dis h l firstlineno = Ok (bytecode, table) ->
  laid_out_from ver dis h 0 l ->
  forall r, In r l ->
    exists o, offset (deref h r) = Some o /\ 0 <= o /\
      nth_error bytecode (Z.to_nat o) = Some (opcode (deref h r)) /\
      nth_error bytecode (S (Z.to_nat o)) =
        Some (Z.land (arg_or_0 (arg (deref h r))) 0xFF).
Proof.
  intros E Hlaid r Hr. unfold assemble in E.
  apply bind_ok in E. destruct E as (w0 & _ & E).
  apply bind_ok in E. destruct E as ([code w] & Eloop & E).
  apply bind_ok in E. destruct E as (w' & _ & E).
  apply bind_ok in E. destruct E as (bc & Eb & E).
  apply bind_ok in E. destruct E as (tb & _ & E).
  injection E as <- <-. apply bytes_inv in Eb. subst bc.
  rewrite (assemble_loop_code ver dis _ _ _ _ _ _ Eloop).
  exact (laid_out_bytes ver dis h l [] 0 r Hlaid eq_refl Hr).
Qed.



Lemma assemble_layout_witness :
  exists bytecode table,
    assemble Py39.ver Py39.tables prefixed_jump39 [0; 1; 2; 3]%nat 1 =
      Ok (bytecode, table) /\
    forall r, In r [0; 1; 2; 3]%nat ->
      exists o, offset (deref prefixed_jump39 r) = Some o /\ 0 <= o /\
        nth_error bytecode (Z.to_nat o) =
          Some (opcode (deref prefixed_jump39 r)) /\
        nth_error bytecode (S (Z.to_nat o)) =
          Some (Z.land (arg_or_0 (arg (deref prefixed_jump39 r))) 0xFF).
Proof.
  destruct (assemble Py39.ver Py39.tables prefixed_jump39 [0; 1; 2; 3]%nat 1)
    as [[bytecode table]|e] eqn:E; [|vm_compute in E; discriminate].
  exists bytecode, table. split; [reflexivity|].
  apply (assemble_layout Py39.ver Py39.tables prefixed_jump39
           [0; 1; 2; 3]%nat 1 bytecode table E).
  simpl. repeat split.
Defined.



(** ** [explicit_super] *)

Section ExplicitSuper.

Variable ver : version.
Variable dis : Dis.
Variable code : Code.

(** The instructions of the input are those of the output that existed
    before. *)
Lemma explicit_super_loop_keeps n0 : forall rest h output h' out,
  (n0 <= next_ref h)%nat ->
  Forall (fun x => (x < n0)%nat) rest ->
  explicit_super_loop ver dis code h rest output = Ok (h', out) ->
  exists tail,
    out = output ++ tail /\
    filter (fun x => (x <? n0)%nat) tail = rest.
Proof.
  induction rest as [|r rest IH]; intros h output h' out Hn Hb E.
  - cbn in E. injection E as <- <-. exists []. now rewrite app_nil_r.
  - rewrite explicit_super_loop_cons in E.
    inversion Hb as [|? ? Hr Hb']; subst.
    assert (Hkeep : forall tail', filter (fun x => (x <? n0)%nat) tail' = rest ->
              filter (fun x => (x <? n0)%nat) (r :: tail') = r :: rest).
    { intros tail' <-. cbn [filter].
      now replace (r <? n0)%nat with true by (symmetry; apply Nat.ltb_lt; lia). }
    assert (Hplain : explicit_super_loop ver dis code h rest (output ++ [r]) =
                       Ok (h', out) ->
                     exists tail, out = output ++ tail /\
                       filter (fun x => (x <? n0)%nat) tail = r :: rest).
    { intros E'. destruct (IH h _ h' out Hn Hb' E') as (tail' & -> & Hf).
      exists (r :: tail'). rewrite <- app_assoc. split; [reflexivity|].
      now apply Hkeep. }
    destruct (is_super_load (deref h r)); [|now apply Hplain].
    destruct rest as [|nexti after]; [discriminate|].
    destruct (is_call0 (deref h nexti)); [|now apply Hplain].
    apply bind_ok in E. destruct E as ([h1 output2] & Ex & E).
    inversion Hb' as [|? ? Hnx Hafter]; subst.
    destruct (expand_super_spec ver dis code h (output ++ [r]) nexti after h1
                output2) as (-> & Hn1 & _); [lia| |exact Ex|].
    { eapply Forall_impl; [|exact Hafter]. cbn. intros; lia. }
    destruct (IH h1 _ h' out ltac:(lia) Hb' E) as (tail' & -> & Hf).
    exists (r :: next_ref h :: S (next_ref h) :: tail').
    rewrite <- !app_assoc. split; [reflexivity|].
    rewrite <- (Hkeep tail' Hf). cbn [filter].
    replace (next_ref h <? n0)%nat with false
      by (symmetry; apply Nat.ltb_ge; lia).
    replace (S (next_ref h) <? n0)%nat with false
      by (symmetry; apply Nat.ltb_ge; lia).
    reflexivity.
Qed.

Lemma explicit_super_loop_skip : forall pre h rest output,
  (forall x, In x pre -> is_super_load (deref h x) = false) ->
  explicit_super_loop ver dis code h (pre ++ rest) output =
  explicit_super_loop ver dis code h rest (output ++ pre).
Proof.
  induction pre as [|x pre IH]; intros h rest output Hp.
  - now rewrite app_nil_r.
  - cbn [app]. rewrite explicit_super_loop_cons.
    rewrite (Hp x) by now left.
    rewrite IH by (intros y Hy; apply Hp; now right).
    now rewrite <- app_assoc.
Qed.

End ExplicitSuper.

(** Extra X7: [explicit_super] only inserts.  On success the instructions of the
    input are all in the output, in their order; what is between them are
    objects created by the pass, each a LOAD_DEREF or a LOAD_FAST.  Of an
    instruction that existed the name is kept, and [arg] and [argval] are
    kept or become 2. *)
Theorem explicit_super_inserts_only (ver : version) (dis : Dis) (code : Code)
    (h : heap) (l : list ref) (h' : heap) (out : list ref) :
  allocated h l ->
  explicit_super ver dis code h l = Ok (h', out) ->
  filter (fun x => (x <? next_ref h)%nat) out = l /\
  Forall (fun x => In x l \/ added_load h h' x) out /\
  evolves h h'.
Proof.
  intros Hl E. unfold explicit_super in E.
  destruct (explicit_super_loop_keeps ver dis code (next_ref h) l h [] h' out
              (le_n _) Hl E) as (tail & -> & Hf).
  destruct (explicit_super_loop_first ver dis code l h [] h' _ Hl E)
    as (Hev & tail' & Ht & _ & _ & Hall).
  cbn [app] in *. subst tail'. split; [exact Hf|]. split; [exact Hall|exact Hev].
Qed.

Lemma explicit_super_inserts_only_witness :
  exists h' out,
    explicit_super Py39.ver Py39.tables super_code super39 [0; 1; 2; 3; 4]%nat
      = Ok (h', out) /\
    out = [0; 5; 6; 1; 2; 3; 4]%nat /\
    filter (fun x => (x <? next_ref super39)%nat) out = [0; 1; 2; 3; 4]%nat.
Proof.
  destruct (explicit_super Py39.ver Py39.tables super_code super39
              [0; 1; 2; 3; 4]%nat) as [[h' out]|e] eqn:E;
    [|vm_compute in E; discriminate].
  exists h', out. split; [reflexivity|]. split.
  - vm_compute in E. congruence.
  - apply (explicit_super_inserts_only Py39.ver Py39.tables super_code super39
             [0; 1; 2; 3; 4]%nat h' out); [|exact E].
    unfold allocated. simpl. repeat constructor.
Defined.





(** ** [virtualize_jumps] and [devirtualize_jumps], one after the other *)

Lemma Some_eq {A : Type} (a b : A) : Some a = Some b -> a = b.
Proof. congruence. Qed.

Section Layout.

Variable ver : version.
Variable dis : Dis.
Variable h : heap.

Lemma instruction_size_pos i : 2 <= instruction_size ver dis i.
Proof. now destruct (instruction_size_bytes ver dis i) as (_ & H & _). Qed.

Lemma laid_out_ge l : forall off j y,
  laid_out_from ver dis h off l -> nth_error l j = Some y ->
  exists oy, offset (deref h y) = Some oy /\ off <= oy.
Proof.
  induction l as [|x l IH]; intros off j y Hl Hy; [now destruct j|].
  cbn [laid_out_from] in Hl. destruct Hl as [Hx Hl].
  destruct j as [|j]; cbn in Hy.
  - injection Hy as <-. exists off. split; [exact Hx|lia].
  - destruct (IH _ _ _ Hl Hy) as (oy & Ey & Hge). exists oy.
    split; [exact Ey|]. pose proof (instruction_size_pos (deref h x)). lia.
Qed.

Lemma laid_out_lt l : forall off i j x y,
  laid_out_from ver dis h off l -> (i < j)%nat ->
  nth_error l i = Some x -> nth_error l j = Some y ->
  exists ox oy, offset (deref h x) = Some ox /\ offset (deref h y) = Some oy /\
                ox + instruction_size ver dis (deref h x) <= oy.
Proof.
  induction l as [|a l IH]; intros off i j x y Hl Hij Hx Hy; [now destruct i|].
  cbn [laid_out_from] in Hl. destruct Hl as [Ha Hl].
  destruct j as [|j]; [lia|]. cbn in Hy.
  destruct i as [|i]; cbn in Hx.
  - injection Hx as <-. destruct (laid_out_ge _ _ _ _ Hl Hy) as (oy & Ey & Hge).
    exists off, oy. now repeat split.
  - apply (IH _ i j x y Hl); [lia|assumption|assumption].
Qed.

Lemma laid_out_succ l : forall off i x y,
  laid_out_from ver dis h off l ->
  nth_error l i = Some x -> nth_error l (S i) = Some y ->
  exists ox, offset (deref h x) = Some ox /\
             offset (deref h y) = Some (ox + instruction_size ver dis (deref h x)).
Proof.
  induction l as [|a l IH]; intros off i x y Hl Hx Hy; [now destruct i|].
  cbn [laid_out_from] in Hl. destruct Hl as [Ha Hl].
  destruct i as [|i]; cbn in Hx, Hy.
  - injection Hx as <-. destruct l as [|b l]; [discriminate|].
    cbn in Hy. injection Hy as <-. cbn [laid_out_from] in Hl.
    destruct Hl as [Hb _]. exists off. now split.
  - exact (IH _ i x y Hl Hx Hy).
Qed.

Lemma laid_out_inj l off i j x y :
  laid_out_from ver dis h off l ->
  nth_error l i = Some x -> nth_error l j = Some y ->
  offset (deref h x) = offset (deref h y) -> i = j.
Proof.
  intros Hl Hx Hy Ho.
  destruct (Nat.lt_trichotomy i j) as [H|[H|H]]; [|exact H|].
  - destruct (laid_out_lt _ _ _ _ _ _ Hl H Hx Hy) as (ox & oy & Ex & Ey & Hle).
    pose proof (instruction_size_pos (deref h x)). exfalso.
    rewrite Ex, Ey in Ho. apply Some_eq in Ho. lia.
  - destruct (laid_out_lt _ _ _ _ _ _ Hl H Hy Hx) as (oy & ox & Ey & Ex & Hle).
    pose proof (instruction_size_pos (deref h y)). exfalso.
    rewrite Ex, Ey in Ho. apply Some_eq in Ho. lia.
Qed.

(** The EXTENDED_ARG at the offsets [av], ..., [av + 2 (k - 1)] and the
    instruction at [av + 2 k] are next to each other in the list. *)
Lemma chain_indices l av k p t :
  laid_out_from ver dis h 0 l ->
  (forall i, is_extended_arg dis i = true -> instruction_size ver dis i = 2) ->
  prefixes_at dis h l av k ->
  nth_error l p = Some t -> offset (deref h t) = Some (av + 2 * Z.of_nat k) ->
  forall m, (m <= k)%nat ->
    (m <= p)%nat /\
    forall j, (1 <= j <= m)%nat ->
      exists x, nth_error l (p - j) = Some x /\
        is_extended_arg dis (deref h x) = true /\
        offset (deref h x) = Some (av + 2 * Z.of_nat (k - j)).
Proof.
  intros Hl Hsz Hpre Hp Ht. induction m as [|m IH]; intros Hm.
  - split; [lia|]. intros j Hj. lia.
  - destruct (IH ltac:(lia)) as (Hmp & Hch).
    (* the element at index p - m, at offset av + 2 (k - m) *)
    assert (Hz : exists z, nth_error l (p - m) = Some z /\
                   offset (deref h z) = Some (av + 2 * Z.of_nat (k - m))).
    { destruct m as [|m'].
      - exists t. rewrite !Nat.sub_0_r. now split.
      - destruct (Hch (S m') ltac:(lia)) as (x & Hx & _ & Ho). now exists x. }
    destruct Hz as (z & Hz & Hoz).
    (* the prefix at offset av + 2 (k - m - 1) *)
    destruct (Hpre (k - S m)%nat ltac:(lia)) as (e & Ee & Hxe).
    apply at_offset_Some in Ee. destruct Ee as [Hine Hoe].
    destruct (In_nth_error _ _ Hine) as (q & Hq).
    assert (Hqlt : (q < p - m)%nat).
    { destruct (Nat.lt_trichotomy q (p - m)) as [H|[H|H]]; [exact H| |].
      - subst q. rewrite Hz in Hq. injection Hq as <-.
        rewrite Hoz in Hoe. apply Some_eq in Hoe. lia.
      - destruct (laid_out_lt _ _ _ _ _ _ Hl H Hz Hq) as (oz & oe & Ez & Ee' & Hle).
        pose proof (instruction_size_pos (deref h z)).
        rewrite Hoz in Ez. rewrite Hoe in Ee'.
        apply Some_eq in Ez, Ee'. lia. }
    assert (Hlen : (S q < List.length l)%nat).
    { assert (p - m < List.length l)%nat by (apply nth_error_Some; congruence).
      lia. }
    destruct (nth_error l (S q)) as [w|] eqn:Hw;
      [|apply nth_error_None in Hw; lia].
    destruct (laid_out_succ _ _ _ _ _ Hl Hq Hw) as (oe & Eoe & Eow).
    rewrite (Hsz _ Hxe) in Eow. rewrite Hoe in Eoe. apply Some_eq in Eoe. subst oe.
    assert (Hidx : S q = (p - m)%nat).
    { apply (laid_out_inj l 0 (S q) (p - m) w z Hl Hw Hz).
      rewrite Eow, Hoz. f_equal. lia. }
    split; [lia|]. intros j Hj.
    destruct (Nat.eq_dec j (S m)) as [->|Hne].
    + exists e. replace (p - S m)%nat with q by lia. now repeat split.
    + apply Hch. lia.
Qed.

Lemma prefix_start_run (l : list ref) idx t k :
  (k <= 3)%nat -> (k <= idx)%nat ->
  (forall j, (1 <= j <= k)%nat ->
     exists x, nth_error l (idx - j) = Some x /\
               is_extended_arg dis (deref h x) = true) ->
  ((k < 3)%nat -> (k < idx)%nat ->
     exists y, nth_error l (idx - k - 1) = Some y /\
               is_extended_arg dis (deref h y) = false) ->
  nth_error l idx = Some t ->
  nth_error l (idx - k) = Some (prefix_start dis h l idx t [1; 2; 3]%nat).
Proof.
  intros Hk3 Hki Hrun Hstop Ht.
  assert (Hnth : forall j x d, nth_error l (idx - j) = Some x ->
            nth (idx - j) l d = x).
  { intros j x d Hx. now apply nth_error_nth. }
  assert (Hstep : forall j d, (j <= 3)%nat ->
            (j = S k) ->
            ((j <=? idx)%nat && is_extended_arg dis (deref h (nth (idx - j) l d)))
              = false).
  { intros j d Hj3 ->. destruct (Nat.leb_spec (S k) idx) as [Hle|Hgt];
      [|reflexivity].
    destruct (Hstop ltac:(lia) ltac:(lia)) as (y & Hy & Hxy).
    replace (idx - k - 1)%nat with (idx - S k)%nat in Hy by lia.
    now rewrite (Hnth _ _ d Hy), Hxy. }
  assert (Hgo : forall j d, (1 <= j <= k)%nat ->
            exists x, nth_error l (idx - j) = Some x /\
              nth (idx - j) l d = x /\
              ((j <=? idx)%nat &&
               is_extended_arg dis (deref h (nth (idx - j) l d))) = true).
  { intros j d Hj. destruct (Hrun j Hj) as (x & Hx & Hxx).
    exists x. split; [exact Hx|]. split; [now apply Hnth|].
    rewrite (Hnth _ _ d Hx), Hxx.
    now replace (j <=? idx)%nat with true by (symmetry; apply Nat.leb_le; lia). }
  destruct k as [|[|[|[|k]]]]; try lia; cbn [prefix_start].
  - rewrite (Hstep 1%nat t) by lia. now rewrite Nat.sub_0_r.
  - destruct (Hgo 1%nat t ltac:(lia)) as (x1 & Hx1 & -> & ->).
    now rewrite (Hstep 2%nat x1) by lia.
  - destruct (Hgo 1%nat t ltac:(lia)) as (x1 & Hx1 & -> & ->).
    destruct (Hgo 2%nat x1 ltac:(lia)) as (x2 & Hx2 & -> & ->).
    now rewrite (Hstep 3%nat x2) by lia.
  - destruct (Hgo 1%nat t ltac:(lia)) as (x1 & Hx1 & -> & ->).
    destruct (Hgo 2%nat x1 ltac:(lia)) as (x2 & Hx2 & -> & ->).
    destruct (Hgo 3%nat x2 ltac:(lia)) as (x3 & Hx3 & -> & ->).
    exact Hx3.
Qed.

End Layout.

(** Extra X4: [devirtualize_jumps] undoes [virtualize_jumps].  Take a list with
    contiguous offsets in which an EXTENDED_ARG occupies 2 bytes, and a jump
    whose [argval] is [av]; let it not point into the middle of a chain of
    prefixes (no EXTENDED_ARG of the list is at the offset [av - 2]), and
    let at most three EXTENDED_ARG follow one another at [av].  When both
    passes succeed, one after the other with nothing moved in between, the
    jump has the [argval] it had, and as operand the one that belongs to
    this offset. *)
Theorem virtualize_devirtualize_round_trip (ver : version) (dis : Dis)
    (h : heap) (l : list ref) (h1 h2 : heap) (r : nat) (av : Z) :
  laid_out_from ver dis h 0 l ->
  (forall i, is_extended_arg dis i = true -> instruction_size ver dis i = 2) ->
  virtualize_jumps dis h l = Ok h1 ->
  devirtualize_jumps ver dis h1 l = Ok h2 ->
  In r l -> is_jump dis (deref h r) = true ->
  argval (deref h r) = PyInt av ->
  (forall x, In x l -> is_extended_arg dis (deref h x) = true ->
     offset (deref h x) <> Some (av - 2)) ->
  ~ prefixes_at dis h l av 4 ->
  argval (deref h2 r) = PyInt av /\
  exists ioff,
    offset (deref h r) = Some ioff /\
    arg (deref h2 r) = Some (jump_arg ver dis (deref h r) av ioff).
Proof.
  intros Hl Hsz Hv Hd Hr Hj Eav Hstart Hfew.
  destruct (virtualize_jumps_found dis h l h1 Hv) as (Hc1 & _ & Hjt).
  destruct (Hjt r Hr Hj) as (av' & k & Eav' & Hk & Hpre & Hhit & Hend).
  assert (av' = av) by congruence. subst av'.
  assert (Hk4 : (k < 4)%nat).
  { destruct (Nat.eq_dec k 4) as [->|Hne]; [|lia]. contradiction. }
  destruct (Hhit Hk4) as (t & Et & Hat & Hxt).
  apply at_offset_Some in Hat. destruct Hat as [Hint Hot].
  assert (Hsame : forall x, same_code (deref h1 x) (deref h x)).
  { intros x. destruct (Hc1 x) as (tg & ->). repeat split. }
  assert (Hext1 : forall x, is_extended_arg dis (deref h1 x) =
                            is_extended_arg dis (deref h x)).
  { intros x. unfold is_extended_arg. now destruct (Hsame x) as (-> & _). }
  assert (Hj1 : is_jump dis (deref h1 r) = true).
  { unfold is_jump in *. now destruct (Hsame r) as (-> & _). }
  assert (Ho1 : offsets_set h1 l).
  { intros x Hx. destruct (Hsame x) as (_ & _ & _ & _ & ->).
    exact (laid_out_from_offsets ver dis h l 0 Hl x Hx). }
  unfold devirtualize_jumps in Hd.
  destruct (devirtualize_jumps_loop_cases ver dis l h1 l h1 Ho1 (fun x H => H)
              (fun x => same_layout_refl _))
    as [(h' & _ & Hall)|(E & _)]; [|congruence].
  assert (Htp : targets_present dis h1 l) by (intros x Hx Hjx; now apply Hall).
  destruct (devirtualize_jumps_loop_spec ver dis l h1 l h1
              (fun x => same_layout_refl _))
    as (h'' & Hrun & _ & _ & Hjd & _).
  { intros x Hx Hjx.
    destruct (devirtualized_jump_ok ver dis h1 l x Htp Ho1 Hx Hjx)
      as (? & ? & ? & ? & ? & _ & _ & _ & _ & _ & _ & ->).
    exact I. }
  assert (h'' = h2) by congruence. subst h''.
  pose proof (Hjd r Hr Hj1) as Edj.
  destruct (devirtualized_jump_ok ver dis h1 l r Htp Ho1 Hr Hj1)
    as (t0 & idx & toff & ioff & a & Et0 & _ & Hnth & Etoff & Eioff & Ea & Edj').
  assert (t0 = t) by congruence. subst t0.
  rewrite Edj' in Edj.
  destruct (chain_indices ver dis h l av k idx t Hl Hsz Hpre Hnth Hot k (le_n _))
    as (Hki & Hch).
  (* the instruction at the offset av *)
  assert (Hz : exists z, nth_error l (idx - k) = Some z /\
                 offset (deref h z) = Some av).
  { destruct k as [|k'].
    - exists t. rewrite Nat.sub_0_r. split; [exact Hnth|].
      rewrite Hot. f_equal. lia.
    - destruct (Hch (S k') ltac:(lia)) as (x & Hx & _ & Ho). exists x.
      split; [exact Hx|]. rewrite Ho. f_equal. lia. }
  destruct Hz as (z & Hz & Hoz).
  assert (Hps : nth_error l (idx - k) =
                Some (prefix_start dis h1 l idx t [1; 2; 3]%nat)).
  { apply prefix_start_run; [lia|exact Hki| | |exact Hnth].
    - intros j Hjk. destruct (Hch j Hjk) as (x & Hx & Hxx & _).
      exists x. split; [exact Hx|]. now rewrite Hext1.
    - intros Hk3 Hlt.
      assert (Hlen : (idx < List.length l)%nat)
        by (apply nth_error_Some; congruence).
      destruct (nth_error l (idx - k - 1)) as [y|] eqn:Hy;
        [|apply nth_error_None in Hy; lia].
      exists y. split; [reflexivity|]. rewrite Hext1.
      destruct (is_extended_arg dis (deref h y)) eqn:Hxy; [|reflexivity].
      exfalso.
      replace (idx - k)%nat with (S (idx - k - 1)) in Hz by lia.
      destruct (laid_out_succ ver dis h l 0 _ y z Hl Hy Hz) as (oy & Eoy & Eoz).
      rewrite (Hsz _ Hxy) in Eoz. rewrite Hoz in Eoz. apply Some_eq in Eoz.
      apply (Hstart y (nth_error_In _ _ Hy) Hxy). rewrite Eoy. f_equal. lia. }
  rewrite Hz in Hps. apply Some_eq in Hps. rewrite <- Hps in Etoff.
  destruct (Hsame z) as (_ & _ & _ & _ & Hoz1). rewrite Hoz1, Hoz in Etoff.
  apply Some_eq in Etoff. subst toff.
  destruct (Hsame r) as (_ & _ & _ & _ & Hor). rewrite Hor in Eioff.
  assert (Edj2 : deref h2 r =
                 set_argrepr
                   (set_argval (set_arg (deref h1 r) (Some a)) (PyInt av))
                   (Some (String.append "to " (Z_to_string av))))
    by congruence.
  rewrite Edj2. split; [reflexivity|]. exists ioff. split; [exact Eioff|].
  cbn [arg set_argrepr set_argval set_arg]. f_equal.
  rewrite <- (jump_arg_ext ver dis (deref h1 r) (deref h r) av ioff (Hsame r)).
  exact Ea.
Qed.

Lemma virtualize_devirtualize_round_trip_witness :
  exists h1 h2,
    virtualize_jumps Py39.tables prefixed_jump39 [0; 1; 2; 3]%nat = Ok h1 /\
    devirtualize_jumps Py39.ver Py39.tables h1 [0; 1; 2; 3]%nat = Ok h2 /\
    target (deref h1 0%nat) = Some 2%nat /\
    argval (deref h2 0%nat) = PyInt 2.
Proof.
  destruct (virtualize_jumps Py39.tables prefixed_jump39 [0; 1; 2; 3]%nat)
    as [h1|e] eqn:E1; [|vm_compute in E1; discriminate].
  assert (Et : target (deref h1 0%nat) = Some 2%nat).
  { vm_compute in E1. injection E1 as <-. reflexivity. }
  destruct (devirtualize_jumps Py39.ver Py39.tables h1 [0; 1; 2; 3]%nat)
    as [h2|e] eqn:E2.
  2:{ vm_compute in E1. injection E1 as <-. vm_compute in E2. discriminate. }
  exists h1, h2. split; [reflexivity|]. split; [exact E2|].
  split; [exact Et|].
  apply (virtualize_devirtualize_round_trip Py39.ver Py39.tables
           prefixed_jump39 [0; 1; 2; 3]%nat h1 h2 0%nat 2).
  - simpl. repeat split.
  - intros i _. reflexivity.
  - exact E1.
  - exact E2.
  - simpl. auto.
  - reflexivity.
  - reflexivity.
  - intros x [<-|[<-|[<-|[<-|[]]]]] Hx; vm_compute in Hx; discriminate.
  - intros H. destruct (H 1%nat ltac:(lia)) as (t & Ht & Hx).
    vm_compute in Ht. injection Ht as <-. vm_compute in Hx. discriminate.
Defined.

(** ** [create_load_global] and [fix_vars] *)

(** Extra X13: [create_load_global] and [fix_vars] agree on the operand of
    LOAD_GLOBAL.  Let LOAD_GLOBAL be an opcode of [dis.hasname] and not of
    [dis.haslocal], and [name] a name of [co_names], at the index [idx] of
    the names dictionary.  Whatever index [a] the instruction is created
    with, [fix_vars] on it succeeds and leaves the operand
    [(idx << 1) + push_null] from Python 3.11 on, and [idx] before: the
    flag given to [create_load_global] is kept, the index is corrected. *)
Theorem create_load_global_fix_vars (ver : version) (dis : Dis)
    (code_options : Code) (h : heap) (name : string) (a : Z)
    (push_null : bool) (op : Z) (idx : nat) :
  dis_opmap dis "LOAD_GLOBAL" = Some op ->
  Z_in op (dis_hasname dis) = true -> Z_in op (dis_haslocal dis) = false ->
  last_index (co_names code_options) name idx ->
  exists h1 h2,
    create_load_global ver dis h name a push_null = Ok (next_ref h, h1) /\
    fix_vars ver dis h1 [next_ref h] code_options = Ok h2 /\
    arg (deref h2 (next_ref h)) =
      Some (if version_ge ver (3, 11)
            then Z.shiftl (Z.of_nat idx) 1 + Z.b2z push_null
            else Z.of_nat idx) /\
    (forall x, (x < next_ref h)%nat -> deref h2 x = deref h x).
Proof.
  intros Hop Hn Hl Hidx. unfold create_load_global.
  set (a' := if version_ge ver (3, 11) then Z.shiftl a 1 + Z.b2z push_null else a).
  unfold create_instruction. rewrite Hop.
  set (i := mkInstruction op "LOAD_GLOBAL" (Some a') (PyStr name) None None
              false None None).
  destruct (alloc_spec h i) as (Hn1 & Hr & Hd & Hf).
  destruct (alloc h i) as [r h1] eqn:Ea. cbn [fst snd] in Hn1, Hr, Hd, Hf.
  subst r. exists h1.
  assert (Hin : In name (co_names code_options)).
  { destruct Hidx as [Hnth _]. exact (nth_error_In _ _ Hnth). }
  destruct (table_lookup_names (co_names code_options) name Hin)
    as (idx' & Elook & Hidx').
  assert (idx' = idx) by exact (last_index_unique _ _ _ _ Hidx' Hidx).
  subst idx'.
  assert (Eres : resolved_arg ver dis code_options (deref h1 (next_ref h)) =
                 Ok (Some (if version_ge ver (3, 11)
                           then Z.shiftl (Z.of_nat idx) 1 + Z.b2z push_null
                           else Z.of_nat idx))).
  { rewrite Hd. unfold resolved_arg, i. cbn [opname opcode arg argval].
    rewrite Hl, Hn, Elook. rewrite String.eqb_refl, andb_true_r.
    unfold a'. destruct (version_ge ver (3, 11)); cbn [bind option_map].
    - rewrite shiftl_1_mod2 by (destruct push_null; cbn; lia). reflexivity.
    - now rewrite Z.shiftl_0_r, Z.add_0_r. }
  pose proof (fix_var_as_resolved ver dis code_options h1 (next_ref h)) as Hfix.
  rewrite Eres in Hfix. destruct Hfix as (h2 & Efix & Hd2 & Hf2).
  exists h2. split; [reflexivity|]. split.
  - unfold fix_vars. cbn [fix_vars_loop]. rewrite Efix. reflexivity.
  - split.
    + rewrite Hd2. reflexivity.
    + intros x Hx. rewrite Hf2 by lia. apply Hf. lia.
Qed.

Lemma create_load_global_fix_vars_witness :
  exists h1 h2,
    create_load_global Py311.ver Py311.tables empty_heap "g" 0 true =
      Ok (0%nat, h1) /\
    fix_vars Py311.ver Py311.tables h1 [0%nat] vars_code = Ok h2 /\
    arg (deref h2 0%nat) = Some 3.
Proof.
  destruct (create_load_global_fix_vars Py311.ver Py311.tables vars_code
              empty_heap "g" 0 true 116 1%nat)
    as (h1 & h2 & E1 & E2 & Ha & _).
  - reflexivity.
  - reflexivity.
  - reflexivity.
  - split; [reflexivity|]. intros [|[|[|j]]] Hj; try lia; discriminate.
  - exists h1, h2. split; [exact E1|]. split; [exact E2|exact Ha].
Defined.
